(** * Generalized pose estimation for camera rigs

    A shallow embedding of [src/colmap/estimators/generalized_pose.cc]:
    the helpers [ThrowCheckCameras], [IsPanoramicRig],
    [ComputeMaxErrorInCamera], [LowerVector3d], [ComputeUniquePointIds], and
    the three entry points [EstimateGeneralizedAbsolutePose],
    [EstimateGeneralizedRelativePose] and [RefineGeneralizedAbsolutePose].

    A [double] is a binary64 float of the kernel ([PrimFloat.float]), a
    [size_t] is a [nat] (the file only counts, compares and indexes with
    them), a [std::vector] is a [list].  What the file calls but does not
    define (Eigen, the camera models, the consensus engine, the least-squares
    solver) enters through the interfaces [EigenOps], [CameraModel],
    [Consensus] and [Ceres]; the modules [Binary64], [SimplePinhole],
    [AcceptAll] and [Nudge] are instances of them to compute with. *)

From Stdlib Require Import PrimFloat PrimInt63 Uint63.
From Stdlib Require FloatOps FloatAxioms SpecFloat.
From stdpp Require Import base option list sorting.

Local Open Scope nat_scope.
#[local] Set Warnings "-inexact-float".

(** ** Outcome of a call

    A call either returns, or it raises (a [THROW_CHECK] fails, [at] is used
    out of range), or it reaches an operation C++ gives no meaning to (an end
    iterator is dereferenced, [operator[]] is used out of range). *)

Inductive outcome (A : Type) : Type :=
| Returned (a : A)
| Thrown
| Undefined.
Arguments Returned {A} a.
Arguments Thrown {A}.
Arguments Undefined {A}.

#[export] Instance outcome_ret : MRet outcome := @Returned.
#[export] Instance outcome_bind : MBind outcome := fun A B f m =>
  match m with
  | Returned a => f a
  | Thrown => Thrown
  | Undefined => Undefined
  end.

Definition THROW_CHECK (b : bool) : outcome unit :=
  if b then Returned tt else Thrown.

(** [v[i]] on a [std::vector]: undefined out of range. *)
Definition index {A} (v : list A) (i : nat) : outcome A :=
  match v !! i with
  | Some a => Returned a
  | None => Undefined
  end.

(** [*it] for an iterator that may be [end()]. *)
Definition deref {A} (it : option A) : outcome A :=
  match it with
  | Some a => Returned a
  | None => Undefined
  end.

(** ** Data *)

Record Vector2d := Vec2 { u : float; v : float }.
Record Vector3d := Vec3 { x : float; y : float; z : float }.
Record Quaterniond := Quat { qw : float; qx : float; qy : float; qz : float }.
Record Rigid3d := MkRigid3d { rotation : Quaterniond; translation : Vector3d }.
Record Camera := MkCamera { model_id : nat; params : list float }.
Definition Matrix6d := list float.

#[export] Instance Vector2d_inhabited : Inhabited Vector2d := populate (Vec2 0 0).
#[export] Instance Vector3d_inhabited : Inhabited Vector3d := populate (Vec3 0 0 0).
#[export] Instance Quaterniond_inhabited : Inhabited Quaterniond :=
  populate (Quat 1 0 0 0).
#[export] Instance Rigid3d_inhabited : Inhabited Rigid3d :=
  populate (MkRigid3d inhabitant inhabitant).
#[export] Instance Camera_inhabited : Inhabited Camera := populate (MkCamera 0 []).

(** The [size_t] to [double] conversion of [x / v.size()]. *)
Definition double_of_size_t (n : nat) : float :=
  PrimFloat.of_uint63 (Uint63.of_Z (Z.of_nat n)).

(** ** Eigen

    The operations of Eigen the file uses, on the types above. *)

Class EigenOps := {
  (** [a.isApprox(b, prec)] *)
  isApprox : Vector3d -> Vector3d -> float -> bool;
  (** [q.inverse()] *)
  inverse : Quaterniond -> Quaterniond;
  (** [q * v] *)
  rotate : Quaterniond -> Vector3d -> Vector3d;
  (** [-v] *)
  negate : Vector3d -> Vector3d;
  (** [p.homogeneous().normalized()] *)
  homogeneous_normalized : Vector2d -> Vector3d;
}.

(** ** Camera models ([colmap/scene/camera.h]) *)

Class CameraModel := {
  CamFromImg : Camera -> Vector2d -> option Vector2d;
  CamFromImgThreshold : Camera -> float -> float;
  PrincipalPointIdxs : Camera -> list nat;
  FocalLengthIdxs : Camera -> list nat;
  ExtraParamsIdxs : Camera -> list nat;
}.

(** ** [std::set<size_t>] and [std::sort]

    A [std::set<size_t>] is its strictly increasing list of elements, which is
    the order its iterators visit. *)

Fixpoint set_insert (k : nat) (s : list nat) : list nat :=
  match s with
  | [] => [k]
  | j :: s' =>
      if k <? j then k :: s
      else if k =? j then s
      else j :: set_insert k s'
  end.

Definition std_set (l : list nat) : list nat :=
  fold_left (fun s k => set_insert k s) l [].

(** [std::sort] by a comparator [lt], as an insertion sort.  [std::sort] does
    not fix the order of elements the comparator holds equivalent; the model
    puts a new element before the first one it is lower than.  (With a
    comparator that is no strict weak order, as [LowerVector3d] on points
    with a NaN coordinate, [std::sort] is not defined; the model still
    returns a permutation.) *)

Fixpoint sort_insert (lt : nat -> nat -> bool) (i : nat) (l : list nat) : list nat :=
  match l with
  | [] => [i]
  | j :: l' => if lt i j then i :: l else j :: sort_insert lt i l'
  end.

Definition std_sort (lt : nat -> nat -> bool) (l : list nat) : list nat :=
  fold_left (fun acc i => sort_insert lt i acc) l [].

(** [std::minmax_element]: the pair of end iterators on an empty range. *)
Definition minmax_element (l : list nat) : option nat * option nat :=
  match l with
  | [] => (None, None)
  | a :: l' => (Some (fold_left Nat.min l' a), Some (fold_left Nat.max l' a))
  end.

Definition min_element (l : list nat) : option nat := (minmax_element l).1.
Definition max_element (l : list nat) : option nat := (minmax_element l).2.

Section Helpers.
Context {Eigen : EigenOps} {Cam : CameraModel}.

(** ** The helpers of the anonymous namespace *)

Definition ThrowCheckCameras (camera_idxs : list nat)
    (cams_from_rig : list Rigid3d) (cameras : list Camera) : outcome unit :=
  THROW_CHECK (negb (bool_decide (cameras = [])));;
  THROW_CHECK (length cams_from_rig =? length cameras);;
  let '(min_camera_idx, max_camera_idx) := minmax_element camera_idxs in
  lo ← deref min_camera_idx;
  THROW_CHECK (0 <=? lo);;
  hi ← deref max_camera_idx;
  THROW_CHECK (hi <? length cameras).

(** The position of a camera in the rig frame:
    [cam_from_rig.rotation.inverse() * -cam_from_rig.translation]. *)
Definition origin_in_rig (cam_from_rig : Rigid3d) : Vector3d :=
  rotate (inverse (rotation cam_from_rig)) (negate (translation cam_from_rig)).

(** The loop of [IsPanoramicRig] over the other elements of the set. *)
Fixpoint IsPanoramicRig_loop (first_origin_in_rig : Vector3d)
    (others : list nat) (cams_from_rig : list Rigid3d) : outcome bool :=
  match others with
  | [] => Returned true
  | it :: others' =>
      cam ← index cams_from_rig it;
      let other_origin_in_rig := origin_in_rig cam in
      if negb (isApprox first_origin_in_rig other_origin_in_rig 1e-6%float)
      then Returned false
      else IsPanoramicRig_loop first_origin_in_rig others' cams_from_rig
  end.

Definition IsPanoramicRig (camera_idxs : list nat)
    (cams_from_rig : list Rigid3d) : outcome bool :=
  let camera_idx_set := std_set camera_idxs in
  first_camera_idx ← deref (head camera_idx_set);
  first ← index cams_from_rig first_camera_idx;
  let first_origin_in_rig := origin_in_rig first in
  IsPanoramicRig_loop first_origin_in_rig (tail camera_idx_set) cams_from_rig.

(** The accumulation loop of [ComputeMaxErrorInCamera]. *)
Fixpoint sum_thresholds (camera_idxs : list nat) (cameras : list Camera)
    (max_error_px : float) (max_error_cam : float) : outcome float :=
  match camera_idxs with
  | [] => Returned max_error_cam
  | camera_idx :: rest =>
      camera ← index cameras camera_idx;
      sum_thresholds rest cameras max_error_px
        (max_error_cam + CamFromImgThreshold camera max_error_px)%float
  end.

Definition ComputeMaxErrorInCamera (camera_idxs : list nat)
    (cameras : list Camera) (max_error_px : float) : outcome float :=
  THROW_CHECK (0 <? max_error_px)%float;;
  max_error_cam ← sum_thresholds camera_idxs cameras max_error_px 0%float;
  Returned (max_error_cam / double_of_size_t (length camera_idxs))%float.

Definition LowerVector3d (v1 v2 : Vector3d) : bool :=
  if (x v1 <? x v2)%float then true
  else if (x v1 =? x v2)%float then
    if (y v1 <? y v2)%float then true
    else if (y v1 =? y v2)%float then (z v1 <? z v2)%float
    else false
  else false.

(** The [while] loop of [ComputeUniquePointIds]: [rest] is what
    [current_it] has not visited yet; [unique_it] and [current_it] are
    positions in [point3D_ids].  The lookups are in range: [point3D_ids] is
    a permutation of the indices of [points3D], and [unique_it] is a position
    already visited. *)
Fixpoint unique_walk (points3D : list Vector3d) (point3D_ids rest : list nat)
    (unique_it current_it : nat) (unique_point3D_ids : list nat) : list nat :=
  match rest with
  | [] => unique_point3D_ids
  | current :: rest' =>
      let unique_it' :=
        if negb (isApprox (points3D !!! (point3D_ids !!! unique_it))
                          (points3D !!! current) 1e-5%float)
        then current_it else unique_it in
      unique_walk points3D point3D_ids rest' unique_it' (S current_it)
        (<[current := unique_it']> unique_point3D_ids)
  end.

(** [point3D_ids] after [std::iota] and [std::sort]. *)
Definition sorted_point3D_ids (points3D : list Vector3d) : list nat :=
  std_sort (fun i j => LowerVector3d (points3D !!! i) (points3D !!! j))
           (seq 0 (length points3D)).

Definition ComputeUniquePointIds (points3D : list Vector3d) : list nat :=
  let point3D_ids := sorted_point3D_ids points3D in
  unique_walk points3D point3D_ids point3D_ids 0 0
    (replicate (length points3D) 0).

End Helpers.

(** ** The consensus engine ([colmap/optim/ransac.h], [loransac.h],
       [support_measurement.h], [colmap/estimators/pose.h]) *)

Record RANSACOptions := MkRANSACOptions {
  max_error : float;
  min_inlier_ratio : float;
  confidence : float;
  dyn_num_trials_multiplier : float;
  min_num_trials : nat;
  max_num_trials : nat;
}.

Definition set_max_error (e : float) (o : RANSACOptions) : RANSACOptions :=
  MkRANSACOptions e (min_inlier_ratio o) (confidence o)
    (dyn_num_trials_multiplier o) (min_num_trials o) (max_num_trials o).

(** [GP3PEstimator::X_t] and [GRNPObservation]: a ray with the extrinsic of
    the camera that saw it. *)
Record RigObservation := MkRigObservation {
  ray_in_cam : Vector3d;
  cam_from_rig : Rigid3d;
}.

(** [InlierSupportMeasurer::Support] and
    [UniqueInlierSupportMeasurer::Support]. *)
Record InlierSupport := MkInlierSupport {
  num_inliers : nat;
  residual_sum : float;
}.
Record UniqueInlierSupport := MkUniqueInlierSupport {
  num_unique_inliers : nat;
  unique_residual_sum : float;
}.

(** [RANSAC<...>::Report].  A [char] of an inlier mask is the truth value the
    file tests it for. *)
Record Report (Support : Type) := MkReport {
  success : bool;
  model : Rigid3d;
  report_inlier_mask : list bool;
  support : Support;
}.
Arguments MkReport {Support}.
Arguments success {Support}.
Arguments model {Support}.
Arguments report_inlier_mask {Support}.
Arguments support {Support}.

(** The estimation calls are taken to return. *)
Class Consensus := {
  (** [RANSACOptions::Check]: [true] when no check of it fails. *)
  RANSACOptions_Check : RANSACOptions -> bool;
  (** [RANSAC<GP3PEstimator, UniqueInlierSupportMeasurer>(options,
      GP3PEstimator(ReprojectionError),
      UniqueInlierSupportMeasurer(unique_point3D_ids)).Estimate(X, Y)] *)
  RANSAC_GP3P_Estimate :
    RANSACOptions -> list nat -> list RigObservation -> list Vector3d ->
    Report UniqueInlierSupport;
  (** [LORANSAC<GR6PEstimator, GR8PEstimator>(options).Estimate(X, Y)],
      with the default [InlierSupportMeasurer] *)
  LORANSAC_GR6P_GR8P_Estimate :
    RANSACOptions -> list RigObservation -> list RigObservation ->
    Report InlierSupport;
  (** [EstimateRelativePose(options, cam_rays1, cam_rays2, &cam2_from_cam1,
      num_inliers, inlier_mask)]: the value returned, [cam2_from_cam1] after
      the call, and what the call stored through [num_inliers] and
      [inlier_mask] ([None]: nothing). *)
  EstimateRelativePose :
    RANSACOptions -> list Vector3d -> list Vector3d ->
    bool * Rigid3d * option nat * option (list bool);
}.

(** ** Output parameters

    What a call stored through each of its output pointers; [None] when it
    stored nothing there. *)
Record Outputs := MkOutputs {
  rig_from_world : option Rigid3d;
  rig2_from_rig1 : option Rigid3d;
  pano2_from_pano1 : option Rigid3d;
  out_num_inliers : option nat;
  out_inlier_mask : option (list bool);
}.

Definition no_output : Outputs := MkOutputs None None None None None.

Section Estimators.
Context {Eigen : EigenOps} {Cam : CameraModel} {Engine : Consensus}.

(** [cameras[camera_idx].CamFromImg(point2D)] turned into a ray, the zero
    vector when the camera model gives no point. *)
Definition ray_of (camera : Camera) (point2D : Vector2d) : Vector3d :=
  match CamFromImg camera point2D with
  | Some cam_point => homogeneous_normalized cam_point
  | None => Vec3 0 0 0
  end.

(** One round of the loop that fills [rig_points2D] (and [points1],
    [points2]). *)
Definition rig_observation (points2D : list Vector2d) (camera_idxs : list nat)
    (cams_from_rig : list Rigid3d) (cameras : list Camera) (i : nat)
    : outcome RigObservation :=
  camera_idx ← index camera_idxs i;
  camera ← index cameras camera_idx;
  point2D ← index points2D i;
  cam ← index cams_from_rig camera_idx;
  Returned (MkRigObservation (ray_of camera point2D) cam).

Definition EstimateGeneralizedAbsolutePose (options : RANSACOptions)
    (points2D : list Vector2d) (points3D : list Vector3d)
    (camera_idxs : list nat) (cams_from_rig : list Rigid3d)
    (cameras : list Camera) : outcome (bool * Outputs) :=
  THROW_CHECK (length points2D =? length points3D);;
  THROW_CHECK (length points2D =? length camera_idxs);;
  ThrowCheckCameras camera_idxs cams_from_rig cameras;;
  THROW_CHECK (RANSACOptions_Check options);;
  if length points2D =? 0 then Returned (false, no_output) else
  rig_points2D ←
    mapM (rig_observation points2D camera_idxs cams_from_rig cameras)
         (seq 0 (length points2D));
  let unique_point3D_ids := ComputeUniquePointIds points3D in
  max_error_cam ← ComputeMaxErrorInCamera camera_idxs cameras (max_error options);
  let options_copy := set_max_error max_error_cam options in
  let report :=
    RANSAC_GP3P_Estimate options_copy unique_point3D_ids rig_points2D points3D in
  if negb (success report) then Returned (false, no_output) else
  Returned (true,
            MkOutputs (Some (model report)) None None
                      (Some (num_unique_inliers (support report)))
                      (Some (report_inlier_mask report))).

(** One round of the loop of the panoramic branch, for one view. *)
Definition pano_ray (points2D : list Vector2d) (camera_idxs : list nat)
    (cams_from_rig : list Rigid3d) (cameras : list Camera) (i : nat)
    : outcome Vector3d :=
  camera_idx ← index camera_idxs i;
  camera ← index cameras camera_idx;
  point2D ← index points2D i;
  match CamFromImg camera point2D with
  | Some cam_point =>
      cam ← index cams_from_rig camera_idx;
      Returned (rotate (inverse (rotation cam)) (homogeneous_normalized cam_point))
  | None => Returned (Vec3 0 0 0)
  end.

Definition EstimateGeneralizedRelativePose (ransac_options : RANSACOptions)
    (points2D1 points2D2 : list Vector2d) (camera_idxs1 camera_idxs2 : list nat)
    (cams_from_rig : list Rigid3d) (cameras : list Camera)
    : outcome (bool * Outputs) :=
  THROW_CHECK (length points2D1 =? length points2D2);;
  ThrowCheckCameras camera_idxs1 cams_from_rig cameras;;
  ThrowCheckCameras camera_idxs2 cams_from_rig cameras;;
  THROW_CHECK (RANSACOptions_Check ransac_options);;
  let num_points := length points2D1 in
  if num_points =? 0 then Returned (false, no_output) else
  pano1 ← IsPanoramicRig camera_idxs1 cams_from_rig;
  pano2 ← (if pano1 then IsPanoramicRig camera_idxs2 cams_from_rig
           else Returned false);
  if pano1 && pano2 then
    cam_rays ←
      mapM (fun i =>
              r1 ← pano_ray points2D1 camera_idxs1 cams_from_rig cameras i;
              r2 ← pano_ray points2D2 camera_idxs2 cams_from_rig cameras i;
              Returned (r1, r2))
           (seq 0 num_points);
    let '(ok, cam2_from_cam1, n, mask) :=
      EstimateRelativePose ransac_options (cam_rays.*1) (cam_rays.*2) in
    if ok then Returned (true, MkOutputs None None (Some cam2_from_cam1) n mask)
    else Returned (false, MkOutputs None None None n mask)
  else
    points ←
      mapM (fun i =>
              p1 ← rig_observation points2D1 camera_idxs1 cams_from_rig cameras i;
              p2 ← rig_observation points2D2 camera_idxs2 cams_from_rig cameras i;
              Returned (p1, p2))
           (seq 0 num_points);
    let report :=
      LORANSAC_GR6P_GR8P_Estimate ransac_options (points.*1) (points.*2) in
    if negb (success report) then Returned (false, no_output) else
    Returned (true,
              MkOutputs None (Some (model report)) None
                        (Some (num_inliers (support report)))
                        (Some (report_inlier_mask report))).

End Estimators.

(** ** The least-squares problem ([ceres::Problem])

    A parameter block is known to the solver by the address of its first
    [double].  [Block] names the buffers the refinement can hand to the
    solver, and the caller's buffers it only reads; [Memory] gives each its
    current content. *)

Inductive Block :=
| RigFromWorldRotation              (* rig_from_world->rotation.coeffs().data() *)
| RigFromWorldTranslation           (* rig_from_world->translation.data() *)
| CameraParams (i : nat)            (* cameras->at(i).params.data() *)
| CamFromRigCopyRotation (i : nat)  (* cams_from_rig_copy[i].rotation... *)
| CamFromRigCopyTranslation (i : nat)
| Point3DCopy (i : nat)             (* points3D_copy[i].data() *)
| CamFromRigRotation (i : nat)      (* the caller's cams_from_rig[i] *)
| CamFromRigTranslation (i : nat)
| Point3D (i : nat).                (* the caller's points3D[i] *)

#[export] Instance Block_eq_dec : EqDecision Block.
Proof. solve_decision. Defined.

Definition Memory := Block -> list float.

Inductive Manifold :=
| QuaternionManifold
| SubsetManifold (size : nat) (constant_params : list nat).

(** A residual block: [CreateCameraCostFunction<RigReprojErrorCostFunctor>(
    model_id, point2D)], the Cauchy loss with its scale, and the parameter
    blocks in the order they are passed. *)
Record ResidualBlock := MkResidualBlock {
  cost_model_id : nat;
  cost_point2D : Vector2d;
  loss_scale : float;
  parameter_blocks : list Block;
}.

Record Problem := MkProblem {
  residual_blocks : list ResidualBlock;
  constant_blocks : list Block;
  manifolds : list (Block * Manifold);
}.

Definition empty_problem : Problem := MkProblem [] [] [].

Definition AddResidualBlock (r : ResidualBlock) (p : Problem) : Problem :=
  MkProblem (residual_blocks p ++ [r]) (constant_blocks p) (manifolds p).

Definition SetParameterBlockConstant (b : Block) (p : Problem) : Problem :=
  MkProblem (residual_blocks p) (b :: constant_blocks p) (manifolds p).

Definition SetManifold (b : Block) (m : Manifold) (p : Problem) : Problem :=
  MkProblem (residual_blocks p) (constant_blocks p) ((b, m) :: manifolds p).

(** [SetQuaternionManifold] and [SetSubsetManifold] of
    [colmap/estimators/manifold.h]. *)
Definition SetQuaternionManifold (b : Block) (p : Problem) : Problem :=
  SetManifold b QuaternionManifold p.
Definition SetSubsetManifold (size : nat) (constant_params : list nat)
    (b : Block) (p : Problem) : Problem :=
  SetManifold b (SubsetManifold size constant_params) p.

(** The parameter blocks of a problem are those of its residual blocks. *)
Definition problem_blocks (p : Problem) : list Block :=
  concat (parameter_blocks <$> residual_blocks p).

(** The manifold a block has: the one set last. *)
Fixpoint manifold_lookup (b : Block) (ms : list (Block * Manifold)) : option Manifold :=
  match ms with
  | [] => None
  | (b', m) :: ms' => if decide (b = b') then Some m else manifold_lookup b ms'
  end.
Definition manifold_of (p : Problem) (b : Block) : option Manifold :=
  manifold_lookup b (manifolds p).

(** [problem.NumResiduals()]: the reprojection cost of one observation has
    two residuals. *)
Definition NumResiduals (p : Problem) : nat := 2 * length (residual_blocks p).

Record AbsolutePoseRefinementOptions := MkRefinementOptions {
  gradient_tolerance : float;
  max_num_iterations : nat;
  loss_function_scale : float;
  refine_focal_length : bool;
  refine_extra_params : bool;
  print_summary : bool;
}.

Inductive LinearSolverType := DENSE_QR | DENSE_NORMAL_CHOLESKY | SPARSE_NORMAL_CHOLESKY.

Record SolverOptions := MkSolverOptions {
  solver_gradient_tolerance : float;
  solver_max_num_iterations : nat;
  linear_solver_type : LinearSolverType;
  num_threads : nat;
}.

Class Ceres := {
  (** [AbsolutePoseRefinementOptions::Check]: [true] when no check fails. *)
  RefinementOptions_Check : AbsolutePoseRefinementOptions -> bool;
  Summary : Type;
  (** [ceres::Solve(options, &problem, &summary)]: the memory after the
      solve, and the summary. *)
  Solve : SolverOptions -> Problem -> Memory -> Memory * Summary;
  IsSolutionUsable : Summary -> bool;
  (** [covariance.Compute(parameter_blocks, &problem)] *)
  Covariance_Compute : list Block -> Problem -> Memory -> bool;
  (** [covariance.GetCovarianceMatrixInTangentSpace(parameter_blocks, out)] *)
  GetCovarianceMatrixInTangentSpace : list Block -> Problem -> Memory -> Matrix6d;
}.

(** What the solver is relied on for: it writes only to parameter blocks of
    the problem, leaves a block set constant as it is, and leaves the
    constant coordinates of a subset manifold as they are. *)
Class CeresFrame {Solver : Ceres} := {
  Solve_outside : forall o p m b,
    b ∉ problem_blocks p -> (Solve o p m).1 b = m b;
  Solve_constant : forall o p m b,
    b ∈ constant_blocks p -> (Solve o p m).1 b = m b;
  Solve_subset : forall o p m b size idxs j,
    manifold_of p b = Some (SubsetManifold size idxs) -> j ∈ idxs ->
    (Solve o p m).1 b !! j = m b !! j;
}.

(** [v.at(i)]: raises out of range. *)
Definition at_ {A} (v : list A) (i : nat) : outcome A :=
  match v !! i with
  | Some a => Returned a
  | None => Thrown
  end.

(** A [for] loop over [0 .. n-1] threading a state. *)
Fixpoint for_loop {S} (body : S -> nat -> outcome S) (idxs : list nat) (s : S)
    : outcome S :=
  match idxs with
  | [] => Returned s
  | i :: rest => s' ← body s i; for_loop body rest s'
  end.

Definition coeffs (q : Quaterniond) : list float := [qx q; qy q; qz q; qw q].
Definition data (p : Vector3d) : list float := [x p; y p; z p].

(** The memory on entry, once the copies have been made. *)
Definition initial_memory (rig_from_world0 : Rigid3d) (cameras : list Camera)
    (cams_from_rig : list Rigid3d) (points3D : list Vector3d) : Memory :=
  fun b =>
    match b with
    | RigFromWorldRotation => coeffs (rotation rig_from_world0)
    | RigFromWorldTranslation => data (translation rig_from_world0)
    | CameraParams i => from_option params [] (cameras !! i)
    | CamFromRigCopyRotation i | CamFromRigRotation i =>
        from_option (coeffs ∘ rotation) [] (cams_from_rig !! i)
    | CamFromRigCopyTranslation i | CamFromRigTranslation i =>
        from_option (data ∘ translation) [] (cams_from_rig !! i)
    | Point3DCopy i | Point3D i => from_option data [] (points3D !! i)
    end.

(** The cameras as the caller finds them after the call. *)
Definition cameras_after (m : Memory) (cameras : list Camera) : list Camera :=
  imap (fun i c => MkCamera (model_id c) (m (CameraParams i))) cameras.

(** What the refinement leaves behind: the value returned, the memory, and
    the covariance stored through [rig_from_world_cov] ([None]: nothing). *)
Record Refined := MkRefined {
  refined_ok : bool;
  refined_memory : Memory;
  refined_cov : option Matrix6d;
}.

Section Refiner.
Context {Cam : CameraModel} {Solver : Ceres}.

(** One round of the loop over the observations. *)
Definition residual_step (options : AbsolutePoseRefinementOptions)
    (inlier_mask : list bool) (points2D : list Vector2d)
    (camera_idxs : list nat) (cameras : list Camera)
    (st : Problem * list nat) (i : nat) : outcome (Problem * list nat) :=
  let '(problem, camera_counts) := st in
  inlier ← index inlier_mask i;
  if negb inlier then Returned st else
  camera_idx ← index camera_idxs i;
  count ← index camera_counts camera_idx;
  let camera_counts := <[camera_idx := count + 1]> camera_counts in
  camera ← at_ cameras camera_idx;
  point2D ← index points2D i;
  let problem :=
    AddResidualBlock
      (MkResidualBlock (model_id camera) point2D (loss_function_scale options)
         [CamFromRigCopyRotation camera_idx; CamFromRigCopyTranslation camera_idx;
          RigFromWorldRotation; RigFromWorldTranslation;
          Point3DCopy i; CameraParams camera_idx])
      problem in
  let problem := SetParameterBlockConstant (Point3DCopy i) problem in
  Returned (problem, camera_counts).

(** [camera_params_const] once the three index groups have been inserted. *)
Definition camera_params_const (options : AbsolutePoseRefinementOptions)
    (camera : Camera) : list nat :=
  let camera_params_const := PrincipalPointIdxs camera in
  let camera_params_const :=
    if negb (refine_focal_length options)
    then camera_params_const ++ FocalLengthIdxs camera
    else camera_params_const in
  if negb (refine_extra_params options)
  then camera_params_const ++ ExtraParamsIdxs camera
  else camera_params_const.

(** One round of the loop over the cameras. *)
Definition camera_step (options : AbsolutePoseRefinementOptions)
    (cameras : list Camera) (camera_counts : list nat)
    (problem : Problem) (i : nat) : outcome Problem :=
  count ← index camera_counts i;
  if count =? 0 then Returned problem else
  camera ← at_ cameras i;
  let problem := SetParameterBlockConstant (CamFromRigCopyRotation i) problem in
  let problem := SetParameterBlockConstant (CamFromRigCopyTranslation i) problem in
  if negb (refine_focal_length options) && negb (refine_extra_params options) then
    Returned (SetParameterBlockConstant (CameraParams i) problem)
  else
    let camera_params_const := camera_params_const options camera in
    if length camera_params_const =? length (params camera) then
      Returned (SetParameterBlockConstant (CameraParams i) problem)
    else
      Returned (SetSubsetManifold (length (params camera)) camera_params_const
                  (CameraParams i) problem).

(** The problem as it stands when [ceres::Solve] is called. *)
Definition build_problem (options : AbsolutePoseRefinementOptions)
    (inlier_mask : list bool) (points2D : list Vector2d)
    (camera_idxs : list nat) (cameras : list Camera) : outcome Problem :=
  '(problem, camera_counts) ←
    for_loop (residual_step options inlier_mask points2D camera_idxs cameras)
      (seq 0 (length points2D))
      (empty_problem, replicate (length cameras) 0);
  if 0 <? NumResiduals problem then
    let problem := SetQuaternionManifold RigFromWorldRotation problem in
    for_loop (camera_step options cameras camera_counts)
      (seq 0 (length cameras)) problem
  else Returned problem.

Definition solver_options_of (options : AbsolutePoseRefinementOptions) : SolverOptions :=
  MkSolverOptions (gradient_tolerance options) (max_num_iterations options)
    DENSE_QR 1.

(** From [ceres::Solve] to the [return]s.  [rig_from_world_cov] tells
    whether the pointer of that name is non-null.  Printing the summary
    leaves no trace here. *)
Definition solve_and_report (options : AbsolutePoseRefinementOptions)
    (problem : Problem) (memory : Memory) (rig_from_world_cov : bool) : Refined :=
  let '(memory, summary) := Solve (solver_options_of options) problem memory in
  if (0 <? NumResiduals problem) && rig_from_world_cov then
    let parameter_blocks := [RigFromWorldRotation; RigFromWorldTranslation] in
    if negb (Covariance_Compute parameter_blocks problem memory) then
      MkRefined false memory None
    else
      MkRefined (IsSolutionUsable summary) memory
        (Some (GetCovarianceMatrixInTangentSpace parameter_blocks problem memory))
  else MkRefined (IsSolutionUsable summary) memory None.

Definition RefineGeneralizedAbsolutePose (options : AbsolutePoseRefinementOptions)
    (inlier_mask : list bool) (points2D : list Vector2d)
    (points3D : list Vector3d) (camera_idxs : list nat)
    (cams_from_rig : list Rigid3d) (rig_from_world0 : Rigid3d)
    (cameras : list Camera) (rig_from_world_cov : bool) : outcome Refined :=
  THROW_CHECK (length points2D =? length inlier_mask);;
  THROW_CHECK (length points2D =? length points3D);;
  THROW_CHECK (length points2D =? length camera_idxs);;
  THROW_CHECK (length cams_from_rig =? length cameras);;
  lo ← deref (min_element camera_idxs);
  THROW_CHECK (0 <=? lo);;
  hi ← deref (max_element camera_idxs);
  THROW_CHECK (hi <? length cameras);;
  THROW_CHECK (RefinementOptions_Check options);;
  problem ← build_problem options inlier_mask points2D camera_idxs cameras;
  Returned (solve_and_report options problem
              (initial_memory rig_from_world0 cameras cams_from_rig points3D)
              rig_from_world_cov).

End Refiner.

(** ** The specification's own words

    Definitions that follow the specification rather than the code, to be
    compared with the code's. *)

Section SpecWords.
Context {Eigen : EigenOps}.

(** The representative of the point at sorted position [b], in the words of
    the specification: the walk keeps a representative, and whenever the
    current point is not within the tolerance of the representative, the
    representative advances to the current point. *)
Fixpoint representative (points3D : list Vector3d) (point3D_ids : list nat)
    (b : nat) : nat :=
  match b with
  | 0 => 0
  | S b' =>
      let r := representative points3D point3D_ids b' in
      if isApprox (points3D !!! (point3D_ids !!! r))
                  (points3D !!! (point3D_ids !!! b)) 1e-5%float
      then r else b
  end.

(** A run collapsed by chaining: the points at sorted positions [a < b] got
    the same id, no point before [a] has that id, and the point at [b] is not
    within the tolerance of the point at [a]. *)
Definition chained_collapse (points3D : list Vector3d) : Prop :=
  let point3D_ids := sorted_point3D_ids points3D in
  let ids := ComputeUniquePointIds points3D in
  exists a b i j,
    a < b /\ point3D_ids !! a = Some i /\ point3D_ids !! b = Some j /\
    ids !! i = ids !! j /\
    (forall a' i', a' < a -> point3D_ids !! a' = Some i' -> ids !! i' <> ids !! i) /\
    isApprox (points3D !!! i) (points3D !!! j) 1e-5%float = false.

End SpecWords.


(** Modelled from the spec: the two support measurers of
    [colmap/optim/support_measurement.h], which is not among the sources.  The
    plain count is the number of inliers of the mask; the unique count
    "deduplicates inliers that observe the same physical 3D point", that is,
    it counts the distinct ids among the inliers. *)
Definition count_inliers (mask : list bool) : nat :=
  length (filter (fun b => b = true) mask).

Definition ids_of_inliers (ids : list nat) (mask : list bool) : list nat :=
  (filter (fun p => p.2 = true) (zip ids mask)).*1.

Definition count_unique_inliers (ids : list nat) (mask : list bool) : nat :=
  length (remove_dups (ids_of_inliers ids mask)).

(** Modelled from the spec: a successful report's support is its measurer's
    count over the report's inlier mask. *)
Class ConsensusSupport {Engine : Consensus} := {
  GP3P_support : forall o ids X Y,
    success (RANSAC_GP3P_Estimate o ids X Y) = true ->
    num_unique_inliers (support (RANSAC_GP3P_Estimate o ids X Y)) =
    count_unique_inliers ids (report_inlier_mask (RANSAC_GP3P_Estimate o ids X Y));
  GR6P_support : forall o X Y,
    success (LORANSAC_GR6P_GR8P_Estimate o X Y) = true ->
    num_inliers (support (LORANSAC_GR6P_GR8P_Estimate o X Y)) =
    count_inliers (report_inlier_mask (LORANSAC_GR6P_GR8P_Estimate o X Y));
}.

(** The panoramic rig of the specification: "every referenced camera's
    optical center, expressed in rig coordinates, coincides with a chosen
    reference camera's center within 1e-6 per axis".  [reference] is the
    camera chosen. *)
Definition coincides_per_axis (a b : Vector3d) (tol : float) : bool :=
  (abs (x a - x b) <=? tol)%float && (abs (y a - y b) <=? tol)%float &&
  (abs (z a - z b) <=? tol)%float.

Definition panoramic_by_centers {Eigen : EigenOps} (camera_idxs : list nat)
    (cams_from_rig : list Rigid3d) (reference : nat) : bool :=
  forallb (fun c =>
             coincides_per_axis (origin_in_rig (cams_from_rig !!! reference))
               (origin_in_rig (cams_from_rig !!! c)) 1e-6%float)
          camera_idxs.

(** ** Instances to compute with *)

(** Eigen on binary64, after its documentation: [isApprox] is the relative
    comparison [|a - b|^2 <= prec^2 * min(|a|^2, |b|^2)]; the inverse of a
    quaternion is its conjugate over its squared norm; [q * v] is
    [v + w * t + q.vec x t] with [t = 2 * (q.vec x v)]. *)
Module Binary64.

Definition squaredNorm (a : Vector3d) : float :=
  (x a * x a + y a * y a + z a * z a)%float.
Definition minus (a b : Vector3d) : Vector3d :=
  Vec3 (x a - x b) (y a - y b) (z a - z b).
Definition plus (a b : Vector3d) : Vector3d :=
  Vec3 (x a + x b) (y a + y b) (z a + z b).
Definition scale (s : float) (a : Vector3d) : Vector3d :=
  Vec3 (s * x a) (s * y a) (s * z a).
Definition cross (a b : Vector3d) : Vector3d :=
  Vec3 (y a * z b - z a * y b) (z a * x b - x a * z b) (x a * y b - y a * x b).
Definition mini (a b : float) : float := if (b <? a)%float then b else a.

Definition isApprox (a b : Vector3d) (prec : float) : bool :=
  (squaredNorm (minus a b) <=? prec * prec * mini (squaredNorm a) (squaredNorm b))%float.

Definition inverse (q : Quaterniond) : Quaterniond :=
  let n2 := (qx q * qx q + qy q * qy q + qz q * qz q + qw q * qw q)%float in
  if (0 <? n2)%float
  then Quat (qw q / n2) (- qx q / n2) (- qy q / n2) (- qz q / n2)
  else Quat 0 0 0 0.

Definition rotate (q : Quaterniond) (a : Vector3d) : Vector3d :=
  let qv := Vec3 (qx q) (qy q) (qz q) in
  let uv := cross qv a in
  let uv := plus uv uv in
  plus (plus a (scale (qw q) uv)) (cross qv uv).

Definition negate (a : Vector3d) : Vector3d := Vec3 (- x a) (- y a) (- z a).

Definition homogeneous_normalized (p : Vector2d) : Vector3d :=
  let h := Vec3 (u p) (v p) 1 in
  let n2 := squaredNorm h in
  let n := PrimFloat.sqrt n2 in
  if (0 <? n2)%float then Vec3 (x h / n) (y h / n) (z h / n) else h.

#[export] Instance eigen : EigenOps :=
  Build_EigenOps isApprox inverse rotate negate homogeneous_normalized.

(** The absolute distance test [|a - b| <= tol]. *)
Definition within (a b : Vector3d) (tol : float) : bool :=
  (squaredNorm (minus a b) <=? tol * tol)%float.

End Binary64.

(** A camera model in the manner of SIMPLE_PINHOLE: [params] are
    [f, cx, cy]. *)
Module SimplePinhole.

Definition f (c : Camera) : float := nth 0 (params c) 1%float.
Definition cx (c : Camera) : float := nth 1 (params c) 0%float.
Definition cy (c : Camera) : float := nth 2 (params c) 0%float.

#[export] Instance camera_model : CameraModel :=
  Build_CameraModel
    (fun c p => Some (Vec2 ((u p - cx c) / f c) ((v p - cy c) / f c)))
    (fun c threshold => (threshold / f c)%float)
    (fun _ => [1; 2])
    (fun _ => [0])
    (fun _ => []).

End SimplePinhole.

(** A consensus engine that accepts every observation once it has enough of
    them, and reports the identity. *)
Module AcceptAll.

Definition identity : Rigid3d := MkRigid3d (Quat 1 0 0 0) (Vec3 0 0 0).
Definition all_inliers {A} (X : list A) : list bool := (fun _ => true) <$> X.

#[export] Instance consensus : Consensus :=
  Build_Consensus
    (fun o => (0 <? max_error o)%float)
    (fun o ids X Y =>
       MkReport (3 <=? length X) identity (all_inliers X)
         (MkUniqueInlierSupport (count_unique_inliers ids (all_inliers X)) 0))
    (fun o X Y =>
       MkReport (6 <=? length X) identity (all_inliers X)
         (MkInlierSupport (count_inliers (all_inliers X)) 0))
    (fun o X Y =>
       (1 <=? length X, identity, Some (length X), Some (all_inliers X))).

End AcceptAll.

(** A solver that moves every coordinate it is allowed to move. *)
Module Nudge.

Definition nudge (p : Problem) (m : Memory) : Memory := fun b =>
  if bool_decide (b ∈ problem_blocks p) && negb (bool_decide (b ∈ constant_blocks p))
  then match manifold_of p b with
       | Some (SubsetManifold _ idxs) =>
           imap (fun j c => if bool_decide (j ∈ idxs) then c else (c + 1)%float) (m b)
       | _ => (fun c => (c + 1)%float) <$> m b
       end
  else m b.

#[export] Instance ceres : Ceres :=
  Build_Ceres
    (fun o => (0 <=? loss_function_scale o)%float)
    bool
    (fun o p m => (nudge p m, true))
    (fun s => s)
    (fun blocks p m => 3 <=? length (residual_blocks p))
    (fun blocks p m => replicate 36 0%float).

End Nudge.

(** ** Invariants, and inputs to compute on *)

(** The representative as the walk holds it when it reaches position [c]. *)
Definition representative_before {Eigen : EigenOps}
    (points3D : list Vector3d) (ids : list nat) (c : nat) : nat :=
  match c with
  | 0 => 0
  | S c' => representative points3D ids c'
  end.

(** Three points on a line, each within the tolerance of the next, the first
    and the last not within it. *)
Definition three_on_a_line : list Vector3d :=
  [Vec3 1.000016 0 0; Vec3 1 0 0; Vec3 1.000008 0 0].

(** Two cameras with the identity rotation, their centers [1.8e-6] apart on
    the x axis, and the point halfway between the centers. *)
Definition two_close_cameras : list Rigid3d :=
  [MkRigid3d (Quat 1 0 0 0) (Vec3 (-1) 0 0);
   MkRigid3d (Quat 1 0 0 0) (Vec3 (-1.0000018) 0 0)].
Definition halfway_point : Vector3d := Vec3 1.0000009 0 0.

(** The arithmetic mean of a list of doubles, summed from the left starting
    at [0.0]. *)
Definition float_sum (l : list float) : float := fold_left PrimFloat.add l 0%float.
Definition mean (l : list float) : float :=
  (float_sum l / double_of_size_t (length l))%float.

(** One camera with focal length 10, and a pixel threshold of 1. *)
Definition focal10 : list Camera := [MkCamera 0 [10; 0; 0]%float].

(** What [IsPanoramicRig] says of the two views, as the code combines it. *)
Definition both_panoramic {Eigen : EigenOps} (camera_idxs1 camera_idxs2 : list nat)
    (cams_from_rig : list Rigid3d) : Prop :=
  IsPanoramicRig camera_idxs1 cams_from_rig = Returned true /\
  IsPanoramicRig camera_idxs2 cams_from_rig = Returned true.

(** One pixel per view, seen by the only camera of a rig. *)
Definition one_pixel : list Vector2d := [Vec2 1 1].
Definition default_options : RANSACOptions := MkRANSACOptions 1 0.1 0.99 3 0 100.

(** Six pixels per view, seen in turn by the two cameras of a rig whose
    centers are one unit apart; and four pixels for four points of which the
    first two are the same point, seen by the two cameras. *)
Definition two_cameras : list Camera :=
  [MkCamera 0 [10; 0; 0]%float; MkCamera 0 [10; 0; 0]%float].
Definition apart : list Rigid3d :=
  [AcceptAll.identity; MkRigid3d (Quat 1 0 0 0) (Vec3 (-1) 0 0)].
Definition six_pixels : list Vector2d :=
  [Vec2 1 1; Vec2 2 1; Vec2 3 1; Vec2 1 2; Vec2 2 2; Vec2 3 2].
Definition four_pixels : list Vector2d := [Vec2 1 1; Vec2 2 1; Vec2 3 1; Vec2 1 2].
Definition four_points : list Vector3d :=
  [Vec3 1 0 5; Vec3 1 0 5; Vec3 2 0 5; Vec3 3 0 5].

(** What the loop over the observations keeps true of the blocks of the
    problem: a camera's parameters are there only when an inlier was seen by
    that camera, which then has a positive count; the caller's
    [cams_from_rig] and [points3D] are never there; and only blocks of the
    problem have been set constant. *)
Definition block_ok (inlier_mask : list bool) (camera_idxs : list nat)
    (camera_counts : list nat) (b : Block) : Prop :=
  match b with
  | CameraParams c =>
      (exists i, inlier_mask !! i = Some true /\ camera_idxs !! i = Some c) /\
      (exists k, camera_counts !! c = Some (S k))
  | CamFromRigRotation _ | CamFromRigTranslation _ | Point3D _ => False
  | _ => True
  end.

Definition residual_invariant (inlier_mask : list bool) (camera_idxs : list nat)
    (cameras : list Camera) (st : Problem * list nat) : Prop :=
  length st.2 = length cameras /\
  constant_blocks st.1 ⊆ problem_blocks st.1 /\
  forall b, b ∈ problem_blocks st.1 -> block_ok inlier_mask camera_idxs st.2 b.

(** After the loop over the cameras has visited cameras [0 .. k-1]: the
    residual blocks are those of [problem0], and the parameters of a visited
    camera with a positive count are constant as a block, or on a subset
    manifold that holds [camera_params_const] constant. *)
Definition camera_fixed {Cam : CameraModel} (options : AbsolutePoseRefinementOptions)
    (problem : Problem) (i : nat) (camera : Camera) : Prop :=
  CameraParams i ∈ constant_blocks problem \/
  (refine_focal_length options || refine_extra_params options = true /\
   exists size,
     manifold_of problem (CameraParams i) =
     Some (SubsetManifold size (camera_params_const options camera))).

Definition camera_invariant {Cam : CameraModel} (options : AbsolutePoseRefinementOptions)
    (cameras : list Camera) (camera_counts : list nat) (problem0 : Problem)
    (k : nat) (problem : Problem) : Prop :=
  residual_blocks problem = residual_blocks problem0 /\
  forall i camera c,
    i < k -> camera_counts !! i = Some (S c) -> cameras !! i = Some camera ->
    camera_fixed options problem i camera.

(** A refinement of the focal length alone, over four observations of which
    the third, the only one of the second camera, is not an inlier. *)
Definition focal_only : AbsolutePoseRefinementOptions :=
  MkRefinementOptions 1 100 1 true false false.
Definition fixed_intrinsics : AbsolutePoseRefinementOptions :=
  MkRefinementOptions 1 100 1 false false false.
Definition third_out : list bool := [true; true; false; true].
Definition third_on_second : list nat := [0; 0; 1; 0].

Definition refined_or_default (r : outcome Refined) : Refined :=
  match r with
  | Returned r => r
  | _ => MkRefined false (fun _ => []) None
  end.

(** Three points one unit apart. *)
Definition three_apart : list Vector3d := [Vec3 3 0 0; Vec3 1 0 0; Vec3 2 0 0].

(** A rig that agrees with [two_close_cameras] on its first camera only. *)
Definition close_then_origin : list Rigid3d :=
  [MkRigid3d (Quat 1 0 0 0) (Vec3 (-1) 0 0); MkRigid3d (Quat 1 0 0 0) (Vec3 0 0 0)].

(** Four correspondences, the second seen by the second camera. *)
Definition second_on_second : list nat := [0; 1; 0; 0].

(** Two pixels per view. *)
Definition two_pixels : list Vector2d := [Vec2 1 1; Vec2 2 1].

(** The place of a binary64 value in the order of [<] and [==]: NaN has
    none; the others are ordered by sign class, then exponent, then
    mantissa, and the two zeros share one place. *)
Definition sf_key (f : SpecFloat.spec_float) : option (Z * Z * Z) :=
  match f with
  | SpecFloat.S754_nan => None
  | SpecFloat.S754_zero _ => Some (0, 0, 0)%Z
  | SpecFloat.S754_infinity s => Some (if s then (-2) else 2, 0, 0)%Z
  | SpecFloat.S754_finite s m e =>
      Some (if s then (-1, - e, - Z.pos m) else (1, e, Z.pos m))%Z
  end.

Definition float_key (a : float) : option (Z * Z * Z) :=
  sf_key (FloatOps.Prim2SF a).

Definition key_lt (k1 k2 : Z * Z * Z) : Prop :=
  (k1.1.1 < k2.1.1 \/
   (k1.1.1 = k2.1.1 /\
    (k1.1.2 < k2.1.2 \/ (k1.1.2 = k2.1.2 /\ k1.2 < k2.2))))%Z.

(** No coordinate is a NaN: a NaN is the one value that [==] does not hold
    equal to itself. *)
Definition no_nan (v : Vector3d) : bool :=
  (x v =? x v)%float && (y v =? y v)%float && (z v =? z v)%float.

(** Neither is lower than the other: what [std::sort] takes for
    equivalent. *)
Definition incomparable (v1 v2 : Vector3d) : bool :=
  negb (LowerVector3d v1 v2) && negb (LowerVector3d v2 v1).

(** The residual block that observation [i] adds to the problem when it is
    an inlier. *)
Definition inlier_residual_block (options : AbsolutePoseRefinementOptions)
    (inlier_mask : list bool) (points2D : list Vector2d)
    (camera_idxs : list nat) (cameras : list Camera) (i : nat)
    : option ResidualBlock :=
  match inlier_mask !! i with
  | Some true =>
      camera_idx ← camera_idxs !! i;
      camera ← cameras !! camera_idx;
      point2D ← points2D !! i;
      Some (MkResidualBlock (model_id camera) point2D (loss_function_scale options)
              [CamFromRigCopyRotation camera_idx; CamFromRigCopyTranslation camera_idx;
               RigFromWorldRotation; RigFromWorldTranslation;
               Point3DCopy i; CameraParams camera_idx])
  | _ => None
  end.

(** Camera [c] is the camera of an inlier among the observations [0 .. k-1]. *)
Definition inlier_on (inlier_mask : list bool) (camera_idxs : list nat)
    (k c : nat) : Prop :=
  exists i, i < k /\ inlier_mask !! i = Some true /\ camera_idxs !! i = Some c.

(** After the loop over the observations has visited [0 .. k-1]: one
    residual block per inlier, in order; the constant blocks are the copies
    of the inliers' 3D points; no manifold is set; and a camera has a
    positive count exactly when an inlier refers to it. *)
Definition residual_shape (options : AbsolutePoseRefinementOptions)
    (inlier_mask : list bool) (points2D : list Vector2d)
    (camera_idxs : list nat) (cameras : list Camera)
    (k : nat) (st : Problem * list nat) : Prop :=
  length st.2 = length cameras /\
  residual_blocks st.1 =
    omap (inlier_residual_block options inlier_mask points2D camera_idxs cameras)
      (seq 0 k) /\
  (forall i, i < k -> inlier_mask !! i = Some true ->
     is_Some (inlier_residual_block options inlier_mask points2D camera_idxs cameras i)) /\
  (forall b, b ∈ constant_blocks st.1 <->
     exists i, i < k /\ inlier_mask !! i = Some true /\ b = Point3DCopy i) /\
  manifolds st.1 = [] /\
  (forall c, (exists n, st.2 !! c = Some (S n)) <-> inlier_on inlier_mask camera_idxs k c).

(** After the loop over the cameras has visited [0 .. k-1]: the residual
    blocks are those of [problem0]; the constant blocks are those of
    [problem0], the extrinsic copies of every visited camera with a positive
    count, and parameter blocks of such cameras; and only camera parameter
    blocks have got a manifold. *)
Definition camera_shape (camera_counts : list nat) (problem0 : Problem)
    (k : nat) (problem : Problem) : Prop :=
  residual_blocks problem = residual_blocks problem0 /\
  (forall b, b ∈ constant_blocks problem0 -> b ∈ constant_blocks problem) /\
  (forall b, b ∈ constant_blocks problem ->
     b ∈ constant_blocks problem0 \/
     exists c n, c < k /\ camera_counts !! c = Some (S n) /\
       (b = CamFromRigCopyRotation c \/ b = CamFromRigCopyTranslation c \/
        b = CameraParams c)) /\
  (forall c n, c < k -> camera_counts !! c = Some (S n) ->
     CamFromRigCopyRotation c ∈ constant_blocks problem /\
     CamFromRigCopyTranslation c ∈ constant_blocks problem) /\
  (forall b, (forall c, b <> CameraParams c) ->
     manifold_of problem b = manifold_of problem0 b).

(** Four observations without an inlier. *)
Definition none_in : list bool := [false; false; false; false].

(** Two cameras whose centers are one unit apart, ten million units from
    the rig origin; two cameras whose centers are [1e-9] apart, the first at
    the rig origin; and six correspondences seen by two cameras in turn. *)
Definition far_apart : list Rigid3d :=
  [MkRigid3d (Quat 1 0 0 0) (Vec3 (-10000000) 0 0);
   MkRigid3d (Quat 1 0 0 0) (Vec3 (-10000001) 0 0)].
Definition near_origin : list Rigid3d :=
  [MkRigid3d (Quat 1 0 0 0) (Vec3 0 0 0);
   MkRigid3d (Quat 1 0 0 0) (Vec3 (-1e-9) 0 0)].
Definition in_turn : list nat := [0; 1; 0; 1; 0; 1].

(** * Properties *)

(** ** The outcome monad *)

Lemma bind_Returned_inv {A B} (m : outcome A) (f : A -> outcome B) (r : B) :
  m ≫= f = Returned r -> exists a, m = Returned a /\ f a = Returned r.
Proof. destruct m as [a| |]; simpl; intros Hm; try discriminate. by exists a. Qed.

Lemma index_Returned_inv {A} (l : list A) (i : nat) (a : A) :
  index l i = Returned a -> l !! i = Some a.
Proof. unfold index. destruct (l !! i); intros Hi; by inversion Hi. Qed.

Lemma index_lookup {A} (l : list A) (i : nat) (a : A) :
  l !! i = Some a -> index l i = Returned a.
Proof. unfold index. by intros ->. Qed.

Lemma at_lookup {A} (l : list A) (i : nat) (a : A) :
  l !! i = Some a -> at_ l i = Returned a.
Proof. unfold at_. by intros ->. Qed.

(** ** [std::sort] returns a permutation *)

Lemma sort_insert_Permutation lt i l : sort_insert lt i l ≡ₚ i :: l.
Proof.
  induction l as [|j l IH]; simpl; [done|].
  destruct (lt i j); [done|]. rewrite IH. apply Permutation_swap.
Qed.

Lemma std_sort_acc_Permutation lt l acc :
  fold_left (fun acc i => sort_insert lt i acc) l acc ≡ₚ l ++ acc.
Proof.
  revert acc. induction l as [|i l IH]; intros acc; simpl; [done|].
  rewrite IH, sort_insert_Permutation. by rewrite Permutation_middle.
Qed.

Lemma std_sort_Permutation lt l : std_sort lt l ≡ₚ l.
Proof. unfold std_sort. by rewrite std_sort_acc_Permutation, app_nil_r. Qed.

Section UniquePointIds.
Context {Eigen : EigenOps}.

Lemma sorted_point3D_ids_Permutation points3D :
  sorted_point3D_ids points3D ≡ₚ seq 0 (length points3D).
Proof. apply std_sort_Permutation. Qed.

Lemma sorted_point3D_ids_NoDup points3D : NoDup (sorted_point3D_ids points3D).
Proof. rewrite sorted_point3D_ids_Permutation. apply NoDup_seq. Qed.

Lemma sorted_point3D_ids_lt points3D b i :
  sorted_point3D_ids points3D !! b = Some i -> i < length points3D.
Proof.
  intros Hb. apply list_elem_of_lookup_2 in Hb.
  rewrite sorted_point3D_ids_Permutation in Hb. apply elem_of_seq in Hb. lia.
Qed.

(** *** The representative of the specification, and the loop *)

Lemma representative_le points3D ids b : representative points3D ids b <= b.
Proof.
  induction b as [|b IH]; simpl; [done|].
  destruct (isApprox _ _ _); lia.
Qed.

Lemma representative_idemp points3D ids b :
  representative points3D ids (representative points3D ids b) =
  representative points3D ids b.
Proof.
  induction b as [|b IH]; [done|]. simpl.
  destruct (isApprox (points3D !!! (ids !!! representative points3D ids b)) _ _) eqn:Happrox;
    [exact IH|].
  simpl. by rewrite Happrox.
Qed.

Lemma representative_anchor points3D ids b :
  representative points3D ids b = b \/
  isApprox (points3D !!! (ids !!! representative points3D ids b))
           (points3D !!! (ids !!! b)) 1e-5%float = true.
Proof.
  destruct b as [|b]; [by left|]. simpl.
  destruct (isApprox (points3D !!! (ids !!! representative points3D ids b)) _ _) eqn:Happrox;
    [by right|by left].
Qed.

Lemma unique_walk_representative points3D ids :
  NoDup ids ->
  forall rest visited out,
    ids = visited ++ rest ->
    (forall i, i ∈ ids -> i < length out) ->
    (forall b i, b < length visited -> ids !! b = Some i ->
                 out !! i = Some (representative points3D ids b)) ->
    forall b i, ids !! b = Some i ->
      unique_walk points3D ids rest
        (representative_before points3D ids (length visited))
        (length visited) out !! i
      = Some (representative points3D ids b).
Proof.
  intros Hnodup rest.
  induction rest as [|current rest IH]; intros visited out Hids Hlen Hout b i Hb.
  - simpl. apply Hout; [|done].
    apply lookup_lt_Some in Hb. rewrite Hids, app_nil_r in Hb. done.
  - simpl.
    assert (Hcur : ids !! length visited = Some current).
    { rewrite Hids. by rewrite list_lookup_middle. }
    assert (Hstep :
      (if negb (isApprox
                  (points3D !!! (ids !!! representative_before points3D ids (length visited)))
                  (points3D !!! current) 1e-5%float)
       then length visited
       else representative_before points3D ids (length visited))
      = representative points3D ids (length visited)).
    { rewrite <- (list_lookup_total_correct ids (length visited) current Hcur).
      destruct (length visited) as [|c]; simpl; by destruct (isApprox _ _ _). }
    rewrite Hstep.
    specialize (IH (visited ++ [current])
                   (<[current:=representative points3D ids (length visited)]> out)).
    rewrite length_app in IH. simpl in IH.
    replace (length visited + 1) with (S (length visited)) in IH by lia.
    simpl in IH. apply IH; [by rewrite <- app_assoc| |  |done].
    + intros k Hk. rewrite length_insert. by apply Hlen.
    + intros b' i' Hb' Hi'.
      destruct (decide (b' = length visited)) as [->|Hne].
      * rewrite Hcur in Hi'. injection Hi' as <-.
        apply list_lookup_insert_eq. apply Hlen.
        by eapply list_elem_of_lookup_2.
      * rewrite list_lookup_insert_ne; [apply Hout; [lia|done]|].
        intros <-. apply Hne. by eapply NoDup_lookup.
Qed.

Lemma ComputeUniquePointIds_representative points3D b i :
  sorted_point3D_ids points3D !! b = Some i ->
  ComputeUniquePointIds points3D !! i
  = Some (representative points3D (sorted_point3D_ids points3D) b).
Proof.
  intros Hb. unfold ComputeUniquePointIds.
  apply (unique_walk_representative points3D (sorted_point3D_ids points3D)
           (sorted_point3D_ids_NoDup points3D) _ [] _); try done.
  - intros k Hk. rewrite length_replicate.
    apply list_elem_of_lookup_1 in Hk as [c Hc].
    by eapply sorted_point3D_ids_lt.
  - simpl. lia.
Qed.

End UniquePointIds.

(** C1 (as amended): the walk over the sorted points assigns the point at
    sorted position [b] the sorted position [r] of its representative, where
    the representative advances to the current point exactly when the current
    point is not within the tolerance of the representative
    ([representative]); the representative carries the id [r] itself, comes
    no later than [b] in the sorted order, and the point is its own
    representative or directly within the tolerance of it.  Merging is
    anchored at the first point of a run, not chained. *)
Theorem ComputeUniquePointIds_anchored {Eigen : EigenOps}
    (points3D : list Vector3d) (b i : nat) :
  sorted_point3D_ids points3D !! b = Some i ->
  exists r k,
    r = representative points3D (sorted_point3D_ids points3D) b /\
    sorted_point3D_ids points3D !! r = Some k /\
    ComputeUniquePointIds points3D !! i = Some r /\
    ComputeUniquePointIds points3D !! k = Some r /\
    r <= b /\
    (r = b \/ isApprox (points3D !!! k) (points3D !!! i) 1e-5%float = true).
Proof.
  intros Hb.
  pose proof (representative_le points3D (sorted_point3D_ids points3D) b) as Hle.
  destruct (lookup_lt_is_Some_2 (sorted_point3D_ids points3D)
              (representative points3D (sorted_point3D_ids points3D) b)) as [k Hk].
  { apply lookup_lt_Some in Hb. lia. }
  exists (representative points3D (sorted_point3D_ids points3D) b), k.
  split; [done|]. split; [done|].
  split; [by apply ComputeUniquePointIds_representative|].
  split.
  { rewrite (ComputeUniquePointIds_representative points3D _ k Hk).
    by rewrite representative_idemp. }
  split; [done|].
  destruct (representative_anchor points3D (sorted_point3D_ids points3D) b)
    as [Hself|Happrox]; [by left|right].
  by rewrite (list_lookup_total_correct _ _ _ Hk),
             (list_lookup_total_correct _ _ _ Hb) in Happrox.
Qed.

Lemma ComputeUniquePointIds_anchored_witness :
  exists r k,
    r = representative (Eigen:=Binary64.eigen) three_on_a_line
          (sorted_point3D_ids three_on_a_line) 2 /\
    sorted_point3D_ids three_on_a_line !! r = Some k /\
    ComputeUniquePointIds (Eigen:=Binary64.eigen) three_on_a_line !! 0 = Some r /\
    ComputeUniquePointIds (Eigen:=Binary64.eigen) three_on_a_line !! k = Some r /\
    r <= 2 /\
    (r = 2 \/
     Binary64.isApprox (three_on_a_line !!! k) (three_on_a_line !!! 0) 1e-5%float = true).
Proof.
  apply (ComputeUniquePointIds_anchored (Eigen:=Binary64.eigen) three_on_a_line 2 0).
  vm_compute. reflexivity.
Defined.

(** C1 (as stated) fails: whatever the tolerance test and the points, no run
    collapses to one id with its first point and a later one not within the
    tolerance of each other. *)
Lemma no_chained_collapse :
  ~ (exists (E : EigenOps) (points3D : list Vector3d), chained_collapse points3D).
Proof.
  intros (E & points3D & a & b & i & j & Hab & Ha & Hb & Hid & Hfirst & Hfar).
  rewrite (ComputeUniquePointIds_representative points3D a i Ha) in Hid, Hfirst.
  rewrite (ComputeUniquePointIds_representative points3D b j Hb) in Hid.
  injection Hid as Hid.
  pose proof (representative_le points3D (sorted_point3D_ids points3D) a) as Hle.
  assert (Hra : representative points3D (sorted_point3D_ids points3D) a = a).
  { destruct (decide (representative points3D (sorted_point3D_ids points3D) a = a))
      as [|Hne]; [done|exfalso].
    destruct (lookup_lt_is_Some_2 (sorted_point3D_ids points3D)
                (representative points3D (sorted_point3D_ids points3D) a)) as [k Hk].
    { apply lookup_lt_Some in Ha. lia. }
    apply (Hfirst (representative points3D (sorted_point3D_ids points3D) a) k);
      [lia|done|].
    rewrite (ComputeUniquePointIds_representative points3D _ k Hk).
    by rewrite representative_idemp. }
  destruct (representative_anchor points3D (sorted_point3D_ids points3D) b)
    as [Hself|Happrox]; [lia|].
  rewrite <- Hid, Hra in Happrox.
  rewrite (list_lookup_total_correct _ _ _ Ha),
          (list_lookup_total_correct _ _ _ Hb) in Happrox.
  congruence.
Qed.

(** On binary64 with Eigen's comparison: the third point of
    [three_on_a_line] is within the tolerance of the second, which was merged
    with the first, and still gets an id of its own. *)
Example three_on_a_line_ids :
  sorted_point3D_ids three_on_a_line = [1; 2; 0] /\
  ComputeUniquePointIds (Eigen:=Binary64.eigen) three_on_a_line = [2; 0; 0] /\
  Binary64.isApprox (Vec3 1 0 0) (Vec3 1.000008 0 0) 1e-5%float = true /\
  Binary64.isApprox (Vec3 1.000008 0 0) (Vec3 1.000016 0 0) 1e-5%float = true /\
  Binary64.isApprox (Vec3 1 0 0) (Vec3 1.000016 0 0) 1e-5%float = false.
Proof. vm_compute. repeat split. Qed.

(** ** [std::set] *)

Lemma set_insert_elem_of k s c : c ∈ set_insert k s <-> c = k \/ c ∈ s.
Proof.
  induction s as [|j s IH]; simpl.
  - rewrite list_elem_of_singleton, elem_of_nil. tauto.
  - destruct (Nat.ltb_spec k j); [apply elem_of_cons|].
    destruct (Nat.eqb_spec k j) as [->|]; [rewrite elem_of_cons; tauto|].
    rewrite !elem_of_cons, IH. tauto.
Qed.

Lemma set_insert_sorted k s :
  StronglySorted lt s -> StronglySorted lt (set_insert k s).
Proof.
  induction 1 as [|j s Hs IH Hj]; simpl.
  - repeat constructor.
  - destruct (Nat.ltb_spec k j).
    + constructor; [by constructor|].
      constructor; [done|]. eapply Forall_impl; [exact Hj|]. simpl. lia.
    + destruct (Nat.eqb_spec k j); [by constructor|].
      constructor; [done|].
      apply Forall_forall. intros c Hc.
      apply set_insert_elem_of in Hc as [->|Hc]; [lia|].
      by eapply Forall_forall in Hj.
Qed.

Lemma std_set_acc_elem_of l acc c :
  c ∈ fold_left (fun s k => set_insert k s) l acc <-> c ∈ l \/ c ∈ acc.
Proof.
  revert acc. induction l as [|k l IH]; intros acc; simpl.
  - rewrite elem_of_nil. tauto.
  - rewrite IH, set_insert_elem_of, elem_of_cons. tauto.
Qed.

Lemma std_set_acc_sorted l acc :
  StronglySorted lt acc ->
  StronglySorted lt (fold_left (fun s k => set_insert k s) l acc).
Proof.
  revert acc. induction l as [|k l IH]; intros acc Hacc; simpl; [done|].
  by apply IH, set_insert_sorted.
Qed.

Lemma std_set_elem_of l c : c ∈ std_set l <-> c ∈ l.
Proof. unfold std_set. rewrite std_set_acc_elem_of, elem_of_nil. tauto. Qed.

Lemma std_set_sorted l : StronglySorted lt (std_set l).
Proof. apply std_set_acc_sorted. constructor. Qed.

Lemma StronglySorted_lt_NoDup (s : list nat) : StronglySorted lt s -> NoDup s.
Proof.
  induction 1 as [|j s Hs IH Hj]; constructor; [|done].
  intros Hin. eapply Forall_forall in Hj; [|exact Hin]. lia.
Qed.

(** A set is determined by its elements. *)
Lemma std_set_ext l1 l2 :
  (forall c, c ∈ l1 <-> c ∈ l2) -> std_set l1 = std_set l2.
Proof.
  intros Hl.
  apply (StronglySorted_unique_strong lt); try apply std_set_sorted.
  - intros; lia.
  - apply NoDup_Permutation;
      try (apply StronglySorted_lt_NoDup, std_set_sorted).
    intros c. by rewrite !std_set_elem_of.
Qed.

(** The first element of a set is its least. *)
Lemma std_set_head l :
  l <> [] ->
  exists first others,
    std_set l = first :: others /\ first ∈ l /\
    (forall c, c ∈ l -> first <= c) /\
    (forall c, c ∈ others <-> c ∈ l /\ c <> first).
Proof.
  intros Hl.
  pose proof (std_set_sorted l) as Hsorted.
  pose proof (std_set_elem_of l) as Helem.
  destruct (std_set l) as [|first others].
  - destruct l as [|c l]; [done|]. exfalso.
    apply (elem_of_nil c), Helem, elem_of_cons. by left.
  - exists first, others. inversion Hsorted as [|? ? Hs Hfirst]; subst.
    split; [done|]. split; [apply Helem, elem_of_cons; by left|]. split.
    + intros c Hc. apply Helem in Hc. apply elem_of_cons in Hc as [->|Hc]; [done|].
      eapply Forall_forall in Hfirst; [|exact Hc]. lia.
    + intros c. rewrite <- Helem, elem_of_cons. split.
      * intros Hc. split; [by right|].
        eapply Forall_forall in Hfirst; [|exact Hc]. lia.
      * intros [[->|Hc] Hne]; done.
Qed.

(** ** [IsPanoramicRig] *)

Section PanoramicRig.
Context {Eigen : EigenOps}.

Lemma IsPanoramicRig_loop_forallb first_origin_in_rig others cams_from_rig :
  Forall (fun c => c < length cams_from_rig) others ->
  IsPanoramicRig_loop first_origin_in_rig others cams_from_rig =
  Returned (forallb (fun c =>
              isApprox first_origin_in_rig
                       (origin_in_rig (cams_from_rig !!! c)) 1e-6%float) others).
Proof.
  induction 1 as [|c others Hc Hothers IH]; simpl; [done|].
  destruct (lookup_lt_is_Some_2 cams_from_rig c Hc) as [cam Hcam].
  rewrite (index_lookup _ _ _ Hcam). simpl.
  rewrite (list_lookup_total_correct _ _ _ Hcam).
  destruct (isApprox _ _ _); simpl; [exact IH|done].
Qed.

(** The result in terms of the referenced cameras alone. *)
Lemma IsPanoramicRig_Returned camera_idxs cams_from_rig :
  camera_idxs <> [] ->
  Forall (fun c => c < length cams_from_rig) camera_idxs ->
  exists first_camera_idx others,
    std_set camera_idxs = first_camera_idx :: others /\
    IsPanoramicRig camera_idxs cams_from_rig =
    Returned (forallb (fun c =>
                isApprox (origin_in_rig (cams_from_rig !!! first_camera_idx))
                         (origin_in_rig (cams_from_rig !!! c)) 1e-6%float) others).
Proof.
  intros Hne Hrange.
  destruct (std_set_head camera_idxs Hne)
    as (first & others & Hset & Hfirst & Hleast & Hothers).
  exists first, others. split; [done|].
  unfold IsPanoramicRig. rewrite Hset. simpl.
  assert (Hlt : first < length cams_from_rig).
  { by eapply Forall_forall in Hrange. }
  destruct (lookup_lt_is_Some_2 cams_from_rig first Hlt) as [cam Hcam].
  rewrite (index_lookup _ _ _ Hcam). simpl.
  rewrite (list_lookup_total_correct _ _ _ Hcam).
  apply IsPanoramicRig_loop_forallb.
  apply Forall_forall. intros c Hc. apply Hothers in Hc as [Hc _].
  by eapply Forall_forall in Hrange.
Qed.

Lemma IsPanoramicRig_ext camera_idxs1 camera_idxs2 cams_from_rig :
  (forall c, c ∈ camera_idxs1 <-> c ∈ camera_idxs2) ->
  IsPanoramicRig camera_idxs1 cams_from_rig =
  IsPanoramicRig camera_idxs2 cams_from_rig.
Proof. intros Hext. unfold IsPanoramicRig. by rewrite (std_set_ext _ _ Hext). Qed.

End PanoramicRig.

(** C4 (as amended): with [first_camera_idx] the least referenced camera
    index, [IsPanoramicRig] returns true exactly when the center of every
    referenced camera passes Eigen's [isApprox] test, with precision [1e-6],
    against the center of camera [first_camera_idx]; the result is the same
    for every index array with the same referenced cameras, whatever their
    order or repetition.  So a referenced camera whose center fails the test
    against the reference makes the result false, and a single referenced
    camera always gives true. *)
Theorem IsPanoramicRig_reference {Eigen : EigenOps}
    (camera_idxs : list nat) (cams_from_rig : list Rigid3d) :
  camera_idxs <> [] ->
  Forall (fun c => c < length cams_from_rig) camera_idxs ->
  exists first_camera_idx b,
    first_camera_idx ∈ camera_idxs /\
    (forall c, c ∈ camera_idxs -> first_camera_idx <= c) /\
    IsPanoramicRig camera_idxs cams_from_rig = Returned b /\
    (b = true <->
     forall c, c ∈ camera_idxs ->
       c = first_camera_idx \/
       isApprox (origin_in_rig (cams_from_rig !!! first_camera_idx))
                (origin_in_rig (cams_from_rig !!! c)) 1e-6%float = true) /\
    (forall camera_idxs',
       (forall c, c ∈ camera_idxs' <-> c ∈ camera_idxs) ->
       IsPanoramicRig camera_idxs' cams_from_rig = Returned b).
Proof.
  intros Hne Hrange.
  destruct (std_set_head camera_idxs Hne)
    as (first & others & Hset & Hfirst & Hleast & Hothers).
  destruct (IsPanoramicRig_Returned camera_idxs cams_from_rig Hne Hrange)
    as (first' & others' & Hset' & Hres).
  rewrite Hset in Hset'. injection Hset' as <- <-.
  eexists first, _. split; [done|]. split; [done|]. split; [exact Hres|]. split.
  - rewrite forallb_forall. split.
    + intros Hall c Hc. destruct (decide (c = first)) as [|Hcf]; [by left|right].
      apply Hall, list_elem_of_In, Hothers. done.
    + intros Hall c Hc. apply list_elem_of_In, Hothers in Hc as [Hc Hcf].
      by destruct (Hall c Hc).
  - intros camera_idxs' Hext.
    by rewrite (IsPanoramicRig_ext camera_idxs' camera_idxs cams_from_rig Hext).
Qed.

Lemma IsPanoramicRig_reference_witness :
  exists first_camera_idx b,
    first_camera_idx ∈ [1; 0; 1] /\
    (forall c, c ∈ [1; 0; 1] -> first_camera_idx <= c) /\
    IsPanoramicRig (Eigen:=Binary64.eigen) [1; 0; 1] two_close_cameras = Returned b /\
    (b = true <->
     forall c, c ∈ [1; 0; 1] ->
       c = first_camera_idx \/
       Binary64.isApprox
         (origin_in_rig (Eigen:=Binary64.eigen) (two_close_cameras !!! first_camera_idx))
         (origin_in_rig (Eigen:=Binary64.eigen) (two_close_cameras !!! c))
         1e-6%float = true) /\
    (forall camera_idxs',
       (forall c, c ∈ camera_idxs' <-> c ∈ [1; 0; 1]) ->
       IsPanoramicRig (Eigen:=Binary64.eigen) camera_idxs' two_close_cameras = Returned b).
Proof.
  apply (IsPanoramicRig_reference (Eigen:=Binary64.eigen) [1; 0; 1] two_close_cameras).
  - discriminate.
  - repeat constructor.
Defined.

(** C4 (as stated) fails: the centers of both cameras of
    [two_close_cameras] are within [1e-6] of [halfway_point], by distance and
    by Eigen's test, and the rig is not found panoramic. *)
Lemma IsPanoramicRig_common_point_counterexample :
  Forall (fun cam =>
            Binary64.within halfway_point
              (origin_in_rig (Eigen:=Binary64.eigen) cam) 1e-6%float = true /\
            Binary64.isApprox halfway_point
              (origin_in_rig (Eigen:=Binary64.eigen) cam) 1e-6%float = true)
         two_close_cameras /\
  IsPanoramicRig (Eigen:=Binary64.eigen) [0; 1] two_close_cameras = Returned false.
Proof.
  split; [|vm_compute; reflexivity].
  repeat constructor; vm_compute; reflexivity.
Qed.

(** Eigen's test is relative to the length of the vectors compared: two
    centers [5e-4] apart at distance 1000 from the rig origin pass it, and a
    center at the rig origin passes it with no other center, however close. *)
Example IsPanoramicRig_relative_tolerance :
  IsPanoramicRig (Eigen:=Binary64.eigen) [0; 1]
    [MkRigid3d (Quat 1 0 0 0) (Vec3 (-1000) 0 0);
     MkRigid3d (Quat 1 0 0 0) (Vec3 (-1000.0005) 0 0)] = Returned true /\
  Binary64.within (Vec3 1000 0 0) (Vec3 1000.0005 0 0) 1e-6%float = false /\
  IsPanoramicRig (Eigen:=Binary64.eigen) [0; 1]
    [MkRigid3d (Quat 1 0 0 0) (Vec3 0 0 0);
     MkRigid3d (Quat 1 0 0 0) (Vec3 (-1e-9) 0 0)] = Returned false /\
  Binary64.within (Vec3 0 0 0) (Vec3 1e-9 0 0) 1e-6%float = true.
Proof. vm_compute. repeat split. Qed.

(** With one referenced camera the result is true wherever its center is. *)
Example IsPanoramicRig_single_camera {Eigen : EigenOps} (cam : Rigid3d) (n : nat) :
  IsPanoramicRig (replicate (S n) 0) [cam] = Returned true.
Proof.
  rewrite (IsPanoramicRig_ext (replicate (S n) 0) [0] [cam]); [done|].
  intros c. rewrite elem_of_replicate, list_elem_of_singleton. split.
  - by intros [-> _].
  - intros ->. split; [done|lia].
Qed.

(** ** [EstimateGeneralizedAbsolutePose] on a call that returns *)

Section AbsolutePose.
Context {Eigen : EigenOps} {Cam : CameraModel} {Engine : Consensus}.

Lemma EstimateGeneralizedAbsolutePose_Returned_inv
    options points2D points3D camera_idxs cams_from_rig cameras ok out :
  EstimateGeneralizedAbsolutePose options points2D points3D camera_idxs
    cams_from_rig cameras = Returned (ok, out) ->
  (ok = false /\ out = no_output) \/
  exists rig_points2D max_error_cam,
    ComputeMaxErrorInCamera camera_idxs cameras (max_error options)
      = Returned max_error_cam /\
    let report :=
      RANSAC_GP3P_Estimate (set_max_error max_error_cam options)
        (ComputeUniquePointIds points3D) rig_points2D points3D in
    ok = true /\ success report = true /\
    out = MkOutputs (Some (model report)) None None
            (Some (num_unique_inliers (support report)))
            (Some (report_inlier_mask report)).
Proof.
  unfold EstimateGeneralizedAbsolutePose. intros Hcall.
  apply bind_Returned_inv in Hcall as ([] & _ & Hcall).
  apply bind_Returned_inv in Hcall as ([] & _ & Hcall).
  apply bind_Returned_inv in Hcall as ([] & _ & Hcall).
  apply bind_Returned_inv in Hcall as ([] & _ & Hcall).
  destruct (length points2D =? 0); [left; by injection Hcall as <- <-|].
  apply bind_Returned_inv in Hcall as (rig_points2D & _ & Hcall).
  apply bind_Returned_inv in Hcall as (max_error_cam & Hmax & Hcall).
  destruct (success (RANSAC_GP3P_Estimate _ _ _ _)) eqn:Hsuccess; simpl in Hcall.
  - right. exists rig_points2D, max_error_cam. split; [done|]. simpl.
    by injection Hcall as <- <-.
  - left. by injection Hcall as <- <-.
Qed.

End AbsolutePose.

(** ** [ComputeMaxErrorInCamera] *)

Section MaxError.
Context {Cam : CameraModel}.

Lemma sum_thresholds_fold camera_idxs cameras max_error_px acc :
  Forall (fun c => c < length cameras) camera_idxs ->
  sum_thresholds camera_idxs cameras max_error_px acc =
  Returned (fold_left PrimFloat.add
              ((fun c => CamFromImgThreshold (cameras !!! c) max_error_px)
                 <$> camera_idxs) acc).
Proof.
  intros Hrange. revert acc.
  induction Hrange as [|c camera_idxs Hc Hrange IH]; intros acc; simpl; [done|].
  destruct (lookup_lt_is_Some_2 cameras c Hc) as [camera Hcamera].
  rewrite (index_lookup _ _ _ Hcamera). simpl.
  rewrite (list_lookup_total_correct _ _ _ Hcamera). apply IH.
Qed.


End MaxError.




(** ** The precondition checks *)

Lemma fold_left_max_spec l a :
  a <= fold_left Nat.max l a /\ Forall (fun c => c <= fold_left Nat.max l a) l.
Proof.
  revert a. induction l as [|c l IH]; intros a; simpl; [by split|].
  destruct (IH (a `max` c)) as [Ha Hl]. split; [lia|].
  constructor; [lia|done].
Qed.

Lemma fold_left_max_elem_of l a :
  fold_left Nat.max l a = a \/ fold_left Nat.max l a ∈ l.
Proof.
  revert a. induction l as [|c l IH]; intros a; simpl; [by left|].
  destruct (IH (a `max` c)) as [->|Hin].
  - destruct (Nat.max_spec a c) as [[_ ->]|[_ ->]]; [right; apply elem_of_cons|]; by left.
  - right. apply elem_of_cons. by right.
Qed.

Lemma max_element_lt camera_idxs n :
  camera_idxs <> [] ->
  exists hi, max_element camera_idxs = Some hi /\
             ((hi <? n) = true <-> Forall (fun c => c < n) camera_idxs).
Proof.
  destruct camera_idxs as [|a l]; [done|]. intros _.
  exists (fold_left Nat.max l a). split; [done|].
  destruct (fold_left_max_spec l a) as [Ha Hl].
  rewrite Nat.ltb_lt. split.
  - intros Hlt. constructor; [lia|].
    eapply Forall_impl; [exact Hl|]. simpl. lia.
  - intros Hall. destruct (fold_left_max_elem_of l a) as [->|Hin].
    + by inversion Hall.
    + eapply Forall_forall in Hall; [exact Hall|]. apply elem_of_cons. by right.
Qed.

Lemma min_element_is_Some camera_idxs :
  camera_idxs <> [] -> exists lo, min_element camera_idxs = Some lo.
Proof. destruct camera_idxs; [done|]. intros _. by eexists. Qed.

Section CheckCameras.
Context {Eigen : EigenOps} {Cam : CameraModel}.

Lemma ThrowCheckCameras_Returned camera_idxs cams_from_rig cameras :
  ThrowCheckCameras camera_idxs cams_from_rig cameras = Returned tt <->
  cameras <> [] /\ length cams_from_rig = length cameras /\
  camera_idxs <> [] /\ Forall (fun c => c < length cameras) camera_idxs.
Proof.
  unfold ThrowCheckCameras.
  destruct (decide (cameras = [])) as [Hc|Hc].
  { rewrite bool_decide_eq_true_2 by done. simpl. split; [done|]. by intros [? _]. }
  rewrite bool_decide_eq_false_2 by done. simpl.
  destruct (Nat.eqb_spec (length cams_from_rig) (length cameras)) as [Hlen|Hlen]; simpl;
    [|split; [done|tauto]].
  destruct (decide (camera_idxs = [])) as [->|Hi]; [simpl; split; [done|tauto]|].
  destruct (max_element_lt camera_idxs (length cameras) Hi) as (hi & Hhi & Hlt).
  destruct (min_element_is_Some camera_idxs Hi) as [lo Hlo].
  unfold max_element, min_element in Hhi, Hlo.
  destruct (minmax_element camera_idxs) as [mn mx]. simpl in Hhi, Hlo. subst. simpl.
  destruct (hi <? length cameras) eqn:Hcmp; simpl.
  - split; [intros _|done]. repeat split; try done. by apply Hlt.
  - split; [done|]. intros (_ & _ & _ & Hall). apply Hlt in Hall. done.
Qed.

End CheckCameras.

(** ** [EstimateGeneralizedAbsolutePose] without correspondences *)

(** C2: with no correspondences and a well-formed camera list the call
    should return failure; in the code [ThrowCheckCameras] dereferences the
    end iterators that [std::minmax_element] returns on the empty index
    array, before the early return is reached. *)
Theorem EstimateGeneralizedAbsolutePose_no_correspondences
    {Eigen : EigenOps} {Cam : CameraModel} {Engine : Consensus}
    (options : RANSACOptions) (cams_from_rig : list Rigid3d)
    (cameras : list Camera) :
  EstimateGeneralizedAbsolutePose options [] [] [] cams_from_rig cameras =
  if bool_decide (cameras = []) then Thrown
  else if length cams_from_rig =? length cameras then Undefined
  else Thrown.
Proof.
  unfold EstimateGeneralizedAbsolutePose, ThrowCheckCameras. simpl.
  destruct (bool_decide (cameras = [])); simpl; [done|].
  by destruct (length cams_from_rig =? length cameras).
Qed.

Example EstimateGeneralizedAbsolutePose_empty_one_camera :
  EstimateGeneralizedAbsolutePose
    (Eigen:=Binary64.eigen) (Cam:=SimplePinhole.camera_model)
    (Engine:=AcceptAll.consensus)
    (MkRANSACOptions 1 0.1 0.99 3 0 100) [] [] []
    [AcceptAll.identity] focal10 = Undefined.
Proof. vm_compute. reflexivity. Qed.

(** ** [EstimateGeneralizedRelativePose] *)

Lemma mapM_Returned {A B} (f : A -> outcome B) (l : list A) :
  Forall (fun a => exists b, f a = Returned b) l ->
  exists bs, mapM f l = Returned bs.
Proof.
  induction 1 as [|a l [b Hb] Hl [bs IH]]; simpl; [by eexists|].
  rewrite Hb. simpl. rewrite IH. simpl. by eexists.
Qed.

Section RelativePose.
Context {Eigen : EigenOps} {Cam : CameraModel} {Engine : Consensus}.

Lemma rig_observation_Returned points2D camera_idxs cams_from_rig cameras i :
  i < length points2D -> i < length camera_idxs ->
  Forall (fun c => c < length cameras) camera_idxs ->
  length cams_from_rig = length cameras ->
  exists o, rig_observation points2D camera_idxs cams_from_rig cameras i = Returned o.
Proof.
  intros Hi Hi' Hrange Hlen. unfold rig_observation.
  destruct (lookup_lt_is_Some_2 camera_idxs i Hi') as [c Hc].
  assert (Hlt : c < length cameras) by (by eapply Forall_lookup_1 in Hrange).
  destruct (lookup_lt_is_Some_2 cameras c Hlt) as [camera Hcamera].
  destruct (lookup_lt_is_Some_2 points2D i Hi) as [p Hp].
  destruct (lookup_lt_is_Some_2 cams_from_rig c) as [cam Hcam]; [lia|].
  rewrite (index_lookup _ _ _ Hc). simpl.
  rewrite (index_lookup _ _ _ Hcamera). simpl.
  rewrite (index_lookup _ _ _ Hp). simpl.
  rewrite (index_lookup _ _ _ Hcam). simpl. by eexists.
Qed.

Lemma pano_ray_Returned points2D camera_idxs cams_from_rig cameras i :
  i < length points2D -> i < length camera_idxs ->
  Forall (fun c => c < length cameras) camera_idxs ->
  length cams_from_rig = length cameras ->
  exists r, pano_ray points2D camera_idxs cams_from_rig cameras i = Returned r.
Proof.
  intros Hi Hi' Hrange Hlen. unfold pano_ray.
  destruct (lookup_lt_is_Some_2 camera_idxs i Hi') as [c Hc].
  assert (Hlt : c < length cameras) by (by eapply Forall_lookup_1 in Hrange).
  destruct (lookup_lt_is_Some_2 cameras c Hlt) as [camera Hcamera].
  destruct (lookup_lt_is_Some_2 points2D i Hi) as [p Hp].
  destruct (lookup_lt_is_Some_2 cams_from_rig c) as [cam Hcam]; [lia|].
  rewrite (index_lookup _ _ _ Hc). simpl.
  rewrite (index_lookup _ _ _ Hcamera). simpl.
  rewrite (index_lookup _ _ _ Hp). simpl.
  destruct (CamFromImg camera p); [|by eexists].
  rewrite (index_lookup _ _ _ Hcam). simpl. by eexists.
Qed.

(** The outputs of a call that returns, by the branch taken. *)
Lemma EstimateGeneralizedRelativePose_Returned_inv
    ransac_options points2D1 points2D2 camera_idxs1 camera_idxs2
    cams_from_rig cameras ok out :
  EstimateGeneralizedRelativePose ransac_options points2D1 points2D2
    camera_idxs1 camera_idxs2 cams_from_rig cameras = Returned (ok, out) ->
  (ok = false /\ out = no_output) \/
  (both_panoramic camera_idxs1 camera_idxs2 cams_from_rig /\
   exists cam_rays1 cam_rays2,
     let '(ok', cam2_from_cam1, n, mask) :=
       EstimateRelativePose ransac_options cam_rays1 cam_rays2 in
     ok = ok' /\
     out = MkOutputs None None (if ok' then Some cam2_from_cam1 else None) n mask) \/
  (~ both_panoramic camera_idxs1 camera_idxs2 cams_from_rig /\
   exists points1 points2,
     let report := LORANSAC_GR6P_GR8P_Estimate ransac_options points1 points2 in
     ok = true /\ success report = true /\
     out = MkOutputs None (Some (model report)) None
             (Some (num_inliers (support report)))
             (Some (report_inlier_mask report))).
Proof.
  unfold EstimateGeneralizedRelativePose. intros Hcall.
  apply bind_Returned_inv in Hcall as ([] & _ & Hcall).
  apply bind_Returned_inv in Hcall as ([] & _ & Hcall).
  apply bind_Returned_inv in Hcall as ([] & _ & Hcall).
  apply bind_Returned_inv in Hcall as ([] & _ & Hcall).
  destruct (length points2D1 =? 0); [left; by injection Hcall as <- <-|].
  apply bind_Returned_inv in Hcall as (pano1 & Hpano1 & Hcall).
  apply bind_Returned_inv in Hcall as (pano2 & Hpano2 & Hcall).
  destruct (pano1 && pano2) eqn:Hboth.
  - right; left. apply andb_true_iff in Hboth as [-> ->].
    split; [by split|].
    apply bind_Returned_inv in Hcall as (cam_rays & _ & Hcall).
    exists (cam_rays.*1), (cam_rays.*2).
    destruct (EstimateRelativePose _ _ _) as [[[ok' c] n] mask].
    destruct ok'; by injection Hcall as <- <-.
  - apply bind_Returned_inv in Hcall as (points & _ & Hcall).
    destruct (success (LORANSAC_GR6P_GR8P_Estimate _ _ _)) eqn:Hsuccess; simpl in Hcall.
    + right; right. split.
      * intros [H1 H2]. rewrite H1 in Hpano1. injection Hpano1 as <-.
        rewrite H2 in Hpano2. injection Hpano2 as <-. done.
      * exists (points.*1), (points.*2). simpl.
        by injection Hcall as <- <-.
    + left. by injection Hcall as <- <-.
Qed.

End RelativePose.

(** C5 (as amended): a call that returns true has stored [pano2_from_pano1]
    and nothing in [rig2_from_rig1] when [IsPanoramicRig] returns true for
    both views, and [rig2_from_rig1] and nothing in [pano2_from_pano1]
    otherwise; a call that returns false has stored nothing in either.  The
    branch is taken by the verdict of [IsPanoramicRig], Eigen's relative
    test against the center of the referenced camera of least index, and not
    by whether the centers coincide. *)
Theorem EstimateGeneralizedRelativePose_pose_outputs
    {Eigen : EigenOps} {Cam : CameraModel} {Engine : Consensus}
    (ransac_options : RANSACOptions) (points2D1 points2D2 : list Vector2d)
    (camera_idxs1 camera_idxs2 : list nat) (cams_from_rig : list Rigid3d)
    (cameras : list Camera) (ok : bool) (out : Outputs) :
  EstimateGeneralizedRelativePose ransac_options points2D1 points2D2
    camera_idxs1 camera_idxs2 cams_from_rig cameras = Returned (ok, out) ->
  (ok = true ->
   (both_panoramic camera_idxs1 camera_idxs2 cams_from_rig ->
    is_Some (pano2_from_pano1 out) /\ rig2_from_rig1 out = None) /\
   (~ both_panoramic camera_idxs1 camera_idxs2 cams_from_rig ->
    is_Some (rig2_from_rig1 out) /\ pano2_from_pano1 out = None)) /\
  (ok = false -> rig2_from_rig1 out = None /\ pano2_from_pano1 out = None).
Proof.
  intros Hcall.
  apply EstimateGeneralizedRelativePose_Returned_inv in Hcall
    as [[-> ->]|[[Hboth (rays1 & rays2 & Hpano)]|[Hnot (points1 & points2 & Hfull)]]].
  - split; [done|]. by intros _.
  - destruct (EstimateRelativePose _ _ _) as [[[ok' c] n] mask].
    destruct Hpano as [-> ->]. destruct ok'; simpl.
    + split; [|done]. intros _. split; [by intros _|]. by intros [].
    + split; [done|]. by intros _.
  - simpl in Hfull. destruct Hfull as (-> & _ & ->). simpl.
    split; [|done]. intros _. split; [by intros ?|]. by intros _.
Qed.

Lemma EstimateGeneralizedRelativePose_pose_outputs_witness :
  let out := MkOutputs None None (Some AcceptAll.identity) (Some 1) (Some [true]) in
  (true = true ->
   (both_panoramic (Eigen:=Binary64.eigen) [0] [0] [AcceptAll.identity] ->
    is_Some (pano2_from_pano1 out) /\ rig2_from_rig1 out = None) /\
   (~ both_panoramic (Eigen:=Binary64.eigen) [0] [0] [AcceptAll.identity] ->
    is_Some (rig2_from_rig1 out) /\ pano2_from_pano1 out = None)) /\
  (true = false -> rig2_from_rig1 out = None /\ pano2_from_pano1 out = None).
Proof.
  apply (EstimateGeneralizedRelativePose_pose_outputs
           (Eigen:=Binary64.eigen) (Cam:=SimplePinhole.camera_model)
           (Engine:=AcceptAll.consensus)
           default_options one_pixel one_pixel [0] [0] [AcceptAll.identity] focal10).
  vm_compute. reflexivity.
Defined.

(** C5 (as stated) fails both ways.  The centers of [far_apart] are one unit
    apart, so the referenced cameras are not panoramic whichever of them is
    the reference, and the successful call stores [pano2_from_pano1] and
    leaves [rig2_from_rig1] unset.  The centers of [near_origin] are [1e-9]
    apart, so the referenced cameras are panoramic whichever is the
    reference, and the successful call stores [rig2_from_rig1] and leaves
    [pano2_from_pano1] unset. *)
Lemma EstimateGeneralizedRelativePose_centers_counterexample :
  panoramic_by_centers (Eigen:=Binary64.eigen) in_turn far_apart 0 = false /\
  panoramic_by_centers (Eigen:=Binary64.eigen) in_turn far_apart 1 = false /\
  EstimateGeneralizedRelativePose
    (Eigen:=Binary64.eigen) (Cam:=SimplePinhole.camera_model)
    (Engine:=AcceptAll.consensus)
    default_options six_pixels six_pixels in_turn in_turn far_apart two_cameras
  = Returned (true, MkOutputs None None (Some AcceptAll.identity) (Some 6)
                      (Some (replicate 6 true))) /\
  panoramic_by_centers (Eigen:=Binary64.eigen) in_turn near_origin 0 = true /\
  panoramic_by_centers (Eigen:=Binary64.eigen) in_turn near_origin 1 = true /\
  EstimateGeneralizedRelativePose
    (Eigen:=Binary64.eigen) (Cam:=SimplePinhole.camera_model)
    (Engine:=AcceptAll.consensus)
    default_options six_pixels six_pixels in_turn in_turn near_origin two_cameras
  = Returned (true, MkOutputs None (Some AcceptAll.identity) None (Some 6)
                      (Some (replicate 6 true))).
Proof. vm_compute. repeat split. Qed.

(** C3: the call should raise when a view's camera-index array and 2D-point
    array differ in length, as the absolute estimator does; the code makes no
    such check, and a call whose index arrays are longer than its point
    arrays, in any way, returns. *)
Theorem EstimateGeneralizedRelativePose_lengths_unchecked
    {Eigen : EigenOps} {Cam : CameraModel} {Engine : Consensus}
    (ransac_options : RANSACOptions) (points2D1 points2D2 : list Vector2d)
    (camera_idxs1 camera_idxs2 : list nat) (cams_from_rig : list Rigid3d)
    (cameras : list Camera) :
  length points2D1 = length points2D2 ->
  length points2D1 <= length camera_idxs1 ->
  length points2D2 <= length camera_idxs2 ->
  camera_idxs1 <> [] -> camera_idxs2 <> [] ->
  Forall (fun c => c < length cameras) camera_idxs1 ->
  Forall (fun c => c < length cameras) camera_idxs2 ->
  length cams_from_rig = length cameras ->
  RANSACOptions_Check ransac_options = true ->
  exists r,
    EstimateGeneralizedRelativePose ransac_options points2D1 points2D2
      camera_idxs1 camera_idxs2 cams_from_rig cameras = Returned r.
Proof.
  intros Hpoints Hlen1 Hlen2 Hne1 Hne2 Hrange1 Hrange2 Hcams Hcheck.
  assert (Hcameras : cameras <> []).
  { intros ->. destruct camera_idxs1 as [|c ?]; [done|].
    inversion Hrange1; subst. simpl in *. lia. }
  unfold EstimateGeneralizedRelativePose.
  rewrite Hpoints, Nat.eqb_refl. simpl.
  rewrite (proj2 (ThrowCheckCameras_Returned camera_idxs1 cams_from_rig cameras)) by done.
  simpl.
  rewrite (proj2 (ThrowCheckCameras_Returned camera_idxs2 cams_from_rig cameras)) by done.
  simpl. rewrite Hcheck. simpl.
  destruct (length points2D2 =? 0); [by eexists|].
  rewrite <- Hcams in Hrange1, Hrange2.
  destruct (IsPanoramicRig_Returned camera_idxs1 cams_from_rig Hne1 Hrange1)
    as (f1 & o1 & _ & ->).
  destruct (IsPanoramicRig_Returned camera_idxs2 cams_from_rig Hne2 Hrange2)
    as (f2 & o2 & _ & Hpano2).
  rewrite Hcams in Hrange1, Hrange2. simpl.
  set (pano1 := forallb _ o1).
  assert (Hp2 : exists pano2,
    (if pano1 then IsPanoramicRig camera_idxs2 cams_from_rig else Returned false)
    = Returned pano2).
  { destruct pano1; [rewrite Hpano2|]; by eexists. }
  destruct Hp2 as [pano2 ->]. simpl.
  destruct (pano1 && pano2).
  - edestruct (mapM_Returned
      (fun i =>
         r1 ← pano_ray points2D1 camera_idxs1 cams_from_rig cameras i;
         r2 ← pano_ray points2D2 camera_idxs2 cams_from_rig cameras i;
         Returned (r1, r2)) (seq 0 (length points2D2))) as [rays ->].
    { apply Forall_forall. intros i Hi. apply elem_of_seq in Hi.
      destruct (pano_ray_Returned points2D1 camera_idxs1 cams_from_rig cameras i)
        as [r1 ->]; try done; try lia.
      destruct (pano_ray_Returned points2D2 camera_idxs2 cams_from_rig cameras i)
        as [r2 ->]; try done; try lia.
      by eexists. }
    simpl. destruct (EstimateRelativePose _ _ _) as [[[ok c] n] mask].
    destruct ok; by eexists.
  - edestruct (mapM_Returned
      (fun i =>
         p1 ← rig_observation points2D1 camera_idxs1 cams_from_rig cameras i;
         p2 ← rig_observation points2D2 camera_idxs2 cams_from_rig cameras i;
         Returned (p1, p2)) (seq 0 (length points2D2))) as [points ->].
    { apply Forall_forall. intros i Hi. apply elem_of_seq in Hi.
      destruct (rig_observation_Returned points2D1 camera_idxs1 cams_from_rig cameras i)
        as [r1 ->]; try done; try lia.
      destruct (rig_observation_Returned points2D2 camera_idxs2 cams_from_rig cameras i)
        as [r2 ->]; try done; try lia.
      by eexists. }
    simpl. destruct (negb _); by eexists.
Qed.

Lemma EstimateGeneralizedRelativePose_lengths_unchecked_witness :
  exists r,
    EstimateGeneralizedRelativePose
      (Eigen:=Binary64.eigen) (Cam:=SimplePinhole.camera_model)
      (Engine:=AcceptAll.consensus)
      default_options one_pixel one_pixel [0; 0] [0] [AcceptAll.identity] focal10
    = Returned r.
Proof.
  apply (EstimateGeneralizedRelativePose_lengths_unchecked
           (Eigen:=Binary64.eigen) (Cam:=SimplePinhole.camera_model)
           (Engine:=AcceptAll.consensus)
           default_options one_pixel one_pixel [0; 0] [0] [AcceptAll.identity] focal10);
    try done; try (simpl; lia); try (repeat constructor).
Defined.

(** The call with two camera indices for one point in the first view. *)
Example EstimateGeneralizedRelativePose_two_indices_one_point :
  EstimateGeneralizedRelativePose
    (Eigen:=Binary64.eigen) (Cam:=SimplePinhole.camera_model)
    (Engine:=AcceptAll.consensus)
    default_options one_pixel one_pixel [0; 0] [0] [AcceptAll.identity] focal10
  = Returned (true, MkOutputs None None (Some AcceptAll.identity) (Some 1) (Some [true])).
Proof. vm_compute. reflexivity. Qed.

(** ** The inlier counts the two estimators report *)


#[export] Instance AcceptAll_support : ConsensusSupport (Engine:=AcceptAll.consensus).
Proof. split; intros; reflexivity. Qed.

(** C10: on a successful call that is not panoramic, the relative estimator
    reports the support of the engine's plain inlier measurer, the number of
    inliers of the mask it returns; the absolute estimator reports the
    support of the unique measurer built from [ComputeUniquePointIds], the
    number of distinct ids among the inliers of the mask it returns.  No id
    enters the relative estimate. *)
Theorem num_inliers_plain_and_unique
    {Eigen : EigenOps} {Cam : CameraModel} {Engine : Consensus}
    {Laws : ConsensusSupport} :
  (forall ransac_options points2D1 points2D2 camera_idxs1 camera_idxs2
          cams_from_rig cameras out,
     EstimateGeneralizedRelativePose ransac_options points2D1 points2D2
       camera_idxs1 camera_idxs2 cams_from_rig cameras = Returned (true, out) ->
     ~ both_panoramic camera_idxs1 camera_idxs2 cams_from_rig ->
     exists points1 points2,
       let report := LORANSAC_GR6P_GR8P_Estimate ransac_options points1 points2 in
       out_num_inliers out = Some (num_inliers (support report)) /\
       out_inlier_mask out = Some (report_inlier_mask report) /\
       num_inliers (support report) = count_inliers (report_inlier_mask report)) /\
  (forall options points2D points3D camera_idxs cams_from_rig cameras out,
     EstimateGeneralizedAbsolutePose options points2D points3D camera_idxs
       cams_from_rig cameras = Returned (true, out) ->
     exists options_copy rig_points2D,
       let report :=
         RANSAC_GP3P_Estimate options_copy (ComputeUniquePointIds points3D)
           rig_points2D points3D in
       out_num_inliers out = Some (num_unique_inliers (support report)) /\
       out_inlier_mask out = Some (report_inlier_mask report) /\
       num_unique_inliers (support report) =
       count_unique_inliers (ComputeUniquePointIds points3D)
         (report_inlier_mask report)).
Proof.
  split.
  - intros ransac_options points2D1 points2D2 camera_idxs1 camera_idxs2
           cams_from_rig cameras out Hcall Hnot.
    apply EstimateGeneralizedRelativePose_Returned_inv in Hcall
      as [[? _]|[[Hboth _]|[_ (points1 & points2 & Hfull)]]]; [done|done|].
    exists points1, points2. simpl in *. destruct Hfull as (_ & Hsuccess & ->).
    simpl. repeat split. by apply GR6P_support.
  - intros options points2D points3D camera_idxs cams_from_rig cameras out Hcall.
    apply EstimateGeneralizedAbsolutePose_Returned_inv in Hcall
      as [[? _]|(rig_points2D & max_error_cam & _ & Hfull)]; [done|].
    exists (set_max_error max_error_cam options), rig_points2D.
    simpl in *. destruct Hfull as (_ & Hsuccess & ->).
    simpl. repeat split. by apply GP3P_support.
Qed.

Lemma num_inliers_plain_and_unique_witness :
  (exists points1 points2,
     let report :=
       LORANSAC_GR6P_GR8P_Estimate (Consensus:=AcceptAll.consensus)
         default_options points1 points2 in
     Some 6 = Some (num_inliers (support report)) /\
     Some (replicate 6 true) = Some (report_inlier_mask report) /\
     num_inliers (support report) = count_inliers (report_inlier_mask report)) /\
  (exists options_copy rig_points2D,
     let report :=
       RANSAC_GP3P_Estimate (Consensus:=AcceptAll.consensus) options_copy
         (ComputeUniquePointIds (Eigen:=Binary64.eigen) four_points)
         rig_points2D four_points in
     Some 3 = Some (num_unique_inliers (support report)) /\
     Some (replicate 4 true) = Some (report_inlier_mask report) /\
     num_unique_inliers (support report) =
     count_unique_inliers (ComputeUniquePointIds (Eigen:=Binary64.eigen) four_points)
       (report_inlier_mask report)).
Proof.
  destruct (num_inliers_plain_and_unique
              (Eigen:=Binary64.eigen) (Cam:=SimplePinhole.camera_model)
              (Engine:=AcceptAll.consensus) (Laws:=AcceptAll_support))
    as [Hrelative Habsolute].
  split.
  - apply (Hrelative default_options six_pixels six_pixels
             [0; 1; 0; 1; 0; 1] [0; 1; 0; 1; 0; 1] apart two_cameras
             (MkOutputs None (Some AcceptAll.identity) None (Some 6)
                (Some (replicate 6 true)))).
    + vm_compute. reflexivity.
    + intros [Hpano _]. vm_compute in Hpano. discriminate.
  - apply (Habsolute default_options four_pixels four_points
             [0; 1; 0; 0] apart two_cameras
             (MkOutputs (Some AcceptAll.identity) None None (Some 3)
                (Some (replicate 4 true)))).
    vm_compute. reflexivity.
Defined.

(** ** [RefineGeneralizedAbsolutePose] *)

Lemma at_Returned_inv {A} (l : list A) (i : nat) (a : A) :
  at_ l i = Returned a -> l !! i = Some a.
Proof. unfold at_. destruct (l !! i); intros Hi; by inversion Hi. Qed.

(** A loop over [a .. a+n-1] keeps an invariant its body keeps. *)
Lemma for_loop_seq_invariant {St} (body : St -> nat -> outcome St)
    (P : nat -> St -> Prop) (n : nat) :
  forall a s0 s,
    P a s0 ->
    (forall k s1 s2, a <= k < a + n -> P k s1 -> body s1 k = Returned s2 -> P (S k) s2) ->
    for_loop body (seq a n) s0 = Returned s -> P (a + n) s.
Proof.
  induction n as [|n IH]; intros a s0 s H0 Hstep Hloop; simpl in Hloop.
  - injection Hloop as <-. by rewrite Nat.add_0_r.
  - apply bind_Returned_inv in Hloop as (s1 & Hbody & Hloop).
    replace (a + S n) with (S a + n) by lia.
    apply (IH (S a) s1 s); [|  |exact Hloop].
    + apply (Hstep a s0 s1); [lia|done|done].
    + intros k s2 s3 Hk. apply Hstep. lia.
Qed.

(** A loop returns when its body does, under an invariant. *)
Lemma for_loop_seq_Returned {St} (body : St -> nat -> outcome St)
    (P : St -> Prop) (n : nat) :
  forall a s0,
    P s0 ->
    (forall k s1, a <= k < a + n -> P s1 -> exists s2, body s1 k = Returned s2 /\ P s2) ->
    exists s, for_loop body (seq a n) s0 = Returned s /\ P s.
Proof.
  induction n as [|n IH]; intros a s0 H0 Hstep; simpl.
  - by exists s0.
  - destruct (Hstep a s0) as (s1 & -> & H1); [lia|done|]. simpl.
    apply IH; [done|]. intros k s2 Hk. apply Hstep. lia.
Qed.

Lemma problem_blocks_AddResidualBlock r p :
  problem_blocks (AddResidualBlock r p) = problem_blocks p ++ parameter_blocks r.
Proof.
  unfold problem_blocks, AddResidualBlock. simpl.
  by rewrite fmap_app, concat_app; simpl; rewrite app_nil_r.
Qed.

Lemma problem_blocks_NumResiduals p b :
  b ∈ problem_blocks p -> 0 < NumResiduals p.
Proof.
  unfold problem_blocks, NumResiduals.
  destruct (residual_blocks p); simpl; [|lia].
  intros Hb. by apply elem_of_nil in Hb.
Qed.

Section Refinement.
Context {Cam : CameraModel} {Solver : Ceres}.

Lemma residual_step_invariant options inlier_mask points2D camera_idxs cameras st i st' :
  residual_invariant inlier_mask camera_idxs cameras st ->
  residual_step options inlier_mask points2D camera_idxs cameras st i = Returned st' ->
  residual_invariant inlier_mask camera_idxs cameras st'.
Proof.
  destruct st as [problem counts]. intros (Hlen & Hconst & Hblocks) Hstep.
  unfold residual_step in Hstep.
  apply bind_Returned_inv in Hstep as (inlier & Hinlier & Hstep).
  apply index_Returned_inv in Hinlier.
  destruct inlier; simpl in Hstep; [|by injection Hstep as <-].
  apply bind_Returned_inv in Hstep as (c & Hc & Hstep).
  apply index_Returned_inv in Hc.
  apply bind_Returned_inv in Hstep as (count & Hcount & Hstep).
  apply index_Returned_inv in Hcount.
  apply bind_Returned_inv in Hstep as (camera & Hcamera & Hstep).
  apply bind_Returned_inv in Hstep as (point2D & Hpoint2D & Hstep).
  injection Hstep as <-. unfold residual_invariant. simpl in *.
  split; [by rewrite length_insert|].
  change (problem_blocks (SetParameterBlockConstant ?b ?p))
    with (problem_blocks p).
  rewrite problem_blocks_AddResidualBlock. simpl. split.
  { intros b Hb. apply elem_of_cons in Hb as [->|Hb].
    - apply elem_of_app. right. do 4 (apply elem_of_cons; right).
      apply elem_of_cons. by left.
    - apply elem_of_app. left. by apply Hconst. }
  assert (Hcounted : forall c',
    (exists k, counts !! c' = Some (S k)) \/ c' = c ->
    exists k, <[c:=count + 1]> counts !! c' = Some (S k)).
  { intros c' Hc'. destruct (decide (c' = c)) as [->|Hne].
    - exists count. rewrite list_lookup_insert_eq by (by eapply lookup_lt_Some).
      f_equal. lia.
    - destruct Hc' as [Hc'|]; [|done]. by rewrite list_lookup_insert_ne. }
  intros b Hb. apply elem_of_app in Hb as [Hb|Hb].
  - specialize (Hblocks b Hb). destruct b; simpl in *; try done.
    destruct Hblocks as [Hseen Hpos]. split; [done|]. apply Hcounted. by left.
  - repeat (apply elem_of_cons in Hb as [->|Hb]; [simpl; try done|]).
    + split; [by exists i|]. apply Hcounted. by right.
    + by apply elem_of_nil in Hb.
Qed.

Lemma camera_fixed_mono options problem problem' i camera :
  constant_blocks problem ⊆ constant_blocks problem' ->
  manifold_of problem' (CameraParams i) = manifold_of problem (CameraParams i) ->
  camera_fixed options problem i camera ->
  camera_fixed options problem' i camera.
Proof.
  intros Hconst Hmanifold [Hin|[Hflags [size Hsubset]]].
  - left. by apply Hconst.
  - right. split; [done|]. exists size. by rewrite Hmanifold.
Qed.

Lemma camera_step_invariant options cameras counts problem0 k problem problem' :
  camera_invariant options cameras counts problem0 k problem ->
  camera_step options cameras counts problem k = Returned problem' ->
  camera_invariant options cameras counts problem0 (S k) problem'.
Proof.
  intros [Hres Hfixed] Hstep. unfold camera_step in Hstep.
  apply bind_Returned_inv in Hstep as (count & Hcount & Hstep).
  apply index_Returned_inv in Hcount.
  destruct (Nat.eqb_spec count 0) as [->|Hpos].
  { injection Hstep as <-. split; [done|]. intros i camera c Hi Hc Hcamera.
    destruct (decide (i = k)) as [->|Hne]; [congruence|].
    apply (Hfixed i camera c); [lia|done|done]. }
  apply bind_Returned_inv in Hstep as (camera_k & Hcamera_k & Hstep).
  apply at_Returned_inv in Hcamera_k.
  split.
  { destruct (negb (refine_focal_length options) && negb (refine_extra_params options));
      [|destruct (length _ =? length _)]; by injection Hstep as <-. }
  intros i camera c Hi Hc Hcamera.
  destruct (decide (i = k)) as [->|Hne].
  - rewrite Hcamera_k in Hcamera. injection Hcamera as <-.
    destruct (negb (refine_focal_length options) && negb (refine_extra_params options))
      eqn:Hflags; [|destruct (length _ =? length _)]; injection Hstep as <-.
    + left. simpl. apply elem_of_cons. by left.
    + left. simpl. apply elem_of_cons. by left.
    + right. split.
      { destruct (refine_focal_length options), (refine_extra_params options); done. }
      exists (length (params camera_k)).
      unfold manifold_of. simpl. by rewrite decide_True.
  - assert (Hbefore : camera_fixed options problem i camera).
    { apply (Hfixed i camera c); [lia|done|done]. }
    destruct (negb (refine_focal_length options) && negb (refine_extra_params options));
      [|destruct (length _ =? length _)]; injection Hstep as <-;
      (eapply camera_fixed_mono; [| |exact Hbefore]); simpl;
      try (intros d Hd; repeat (apply elem_of_cons; right); exact Hd);
      try reflexivity.
    unfold manifold_of. simpl. rewrite decide_False; [done|congruence].
Qed.

End Refinement.

Section RefinementFrame.
Context {Cam : CameraModel} {Solver : Ceres}.

Lemma build_problem_inv options inlier_mask points2D camera_idxs cameras problem :
  build_problem options inlier_mask points2D camera_idxs cameras = Returned problem ->
  exists problem1 counts,
    residual_invariant inlier_mask camera_idxs cameras (problem1, counts) /\
    problem_blocks problem = problem_blocks problem1 /\
    (forall i camera c,
       counts !! i = Some (S c) -> cameras !! i = Some camera ->
       0 < NumResiduals problem1 -> camera_fixed options problem i camera).
Proof.
  unfold build_problem. intros Hbuild.
  apply bind_Returned_inv in Hbuild as ([problem1 counts] & Hloop & Hbuild).
  exists problem1, counts.
  assert (Hinv : residual_invariant inlier_mask camera_idxs cameras (problem1, counts)).
  { apply (for_loop_seq_invariant _
             (fun _ => residual_invariant inlier_mask camera_idxs cameras)
             (length points2D) 0 _ _) in Hloop; [done| |].
    - split; [simpl; by rewrite length_replicate|]. split; [done|].
      intros b Hb. by apply elem_of_nil in Hb.
    - intros k st st' _. apply residual_step_invariant. }
  split; [done|].
  destruct (Nat.ltb_spec 0 (NumResiduals problem1)) as [Hpos|Hzero].
  - apply (for_loop_seq_invariant _
             (camera_invariant options cameras counts
                (SetQuaternionManifold RigFromWorldRotation problem1))
             (length cameras) 0 _ _) in Hbuild.
    + destruct Hbuild as [Hres Hfixed]. split.
      { unfold problem_blocks. by rewrite Hres. }
      intros i camera c Hc Hcamera _. apply (Hfixed i camera c); [|done|done].
      simpl. by eapply lookup_lt_Some.
    + split; [done|]. intros i camera c Hi. lia.
    + intros k p p' _. apply camera_step_invariant.
  - injection Hbuild as <-. split; [done|]. intros i camera c _ _ Hpos. lia.
Qed.

Lemma RefineGeneralizedAbsolutePose_Returned_inv options inlier_mask points2D
    points3D camera_idxs cams_from_rig rig_from_world0 cameras rig_from_world_cov r :
  RefineGeneralizedAbsolutePose options inlier_mask points2D points3D camera_idxs
    cams_from_rig rig_from_world0 cameras rig_from_world_cov = Returned r ->
  exists problem,
    build_problem options inlier_mask points2D camera_idxs cameras = Returned problem /\
    r = solve_and_report options problem
          (initial_memory rig_from_world0 cameras cams_from_rig points3D)
          rig_from_world_cov.
Proof.
  unfold RefineGeneralizedAbsolutePose. intros Hcall.
  do 4 (apply bind_Returned_inv in Hcall as ([] & _ & Hcall)).
  apply bind_Returned_inv in Hcall as (lo & _ & Hcall).
  apply bind_Returned_inv in Hcall as ([] & _ & Hcall).
  apply bind_Returned_inv in Hcall as (hi & _ & Hcall).
  do 2 (apply bind_Returned_inv in Hcall as ([] & _ & Hcall)).
  apply bind_Returned_inv in Hcall as (problem & Hbuild & Hcall).
  exists problem. split; [done|]. by injection Hcall as <-.
Qed.

Lemma solve_and_report_memory options problem memory rig_from_world_cov :
  refined_memory (solve_and_report options problem memory rig_from_world_cov) =
  (Solve (solver_options_of options) problem memory).1.
Proof.
  unfold solve_and_report.
  destruct (Solve _ _ _) as [memory' summary]. simpl.
  destruct (_ && _); [destruct (negb _)|]; done.
Qed.

Lemma camera_params_const_elem_of options camera j :
  j ∈ PrincipalPointIdxs camera \/
  (refine_focal_length options = false /\ j ∈ FocalLengthIdxs camera) \/
  (refine_extra_params options = false /\ j ∈ ExtraParamsIdxs camera) ->
  j ∈ camera_params_const options camera.
Proof.
  unfold camera_params_const.
  destruct (refine_focal_length options), (refine_extra_params options); simpl;
    rewrite ?elem_of_app; intros [?|[[? ?]|[? ?]]]; auto; discriminate.
Qed.

(** The blocks of the problem, for a call that returns: how each camera's
    parameters are held, and that the caller's buffers are not among them. *)
Lemma build_problem_blocks options inlier_mask points2D camera_idxs cameras problem :
  build_problem options inlier_mask points2D camera_idxs cameras = Returned problem ->
  (forall i, CameraParams i ∈ problem_blocks problem ->
     (exists k, inlier_mask !! k = Some true /\ camera_idxs !! k = Some i) /\
     exists camera, cameras !! i = Some camera /\
                    camera_fixed options problem i camera) /\
  (forall i, (CamFromRigRotation i ∉ problem_blocks problem) /\
             (CamFromRigTranslation i ∉ problem_blocks problem) /\
             (Point3D i ∉ problem_blocks problem)).
Proof.
  intros Hbuild.
  destruct (build_problem_inv _ _ _ _ _ _ Hbuild)
    as (problem1 & counts & (Hlen & _ & Hblocks) & -> & Hfixed).
  simpl in Hlen, Hblocks. split.
  - intros i Hi. pose proof (Hblocks _ Hi) as [Hseen [k Hk]]. split; [done|].
    destruct (lookup_lt_is_Some_2 cameras i) as [camera Hcamera].
    { rewrite <- Hlen. by eapply lookup_lt_Some. }
    exists camera. split; [done|].
    apply (Hfixed i camera k Hk Hcamera). by eapply problem_blocks_NumResiduals.
  - intros i. repeat split; intros Hi; exact (Hblocks _ Hi).
Qed.

End RefinementFrame.

#[export] Instance Nudge_frame : CeresFrame (Solver:=Nudge.ceres).
Proof.
  split; simpl; unfold Nudge.nudge.
  - intros o p m b Hb. by rewrite bool_decide_eq_false_2.
  - intros o p m b Hb.
    rewrite (bool_decide_eq_true_2 (b ∈ constant_blocks p)) by done.
    by rewrite andb_false_r.
  - intros o p m b size idxs j Hmanifold Hj.
    destruct (_ && _); [|done]. rewrite Hmanifold.
    rewrite list_lookup_imap. destruct (m b !! j); simpl; [|done].
    by rewrite bool_decide_eq_true_2.
Qed.

(** C8: with both flags off every camera's parameter vector is after the
    call what it was before; in every case the principal-point entries of
    every camera are, and so are the focal-length entries unless
    [refine_focal_length] and the extra entries unless
    [refine_extra_params]. *)
Theorem RefineGeneralizedAbsolutePose_intrinsics_fixed
    {Cam : CameraModel} {Solver : Ceres} {Frame : CeresFrame}
    (options : AbsolutePoseRefinementOptions) (inlier_mask : list bool)
    (points2D : list Vector2d) (points3D : list Vector3d)
    (camera_idxs : list nat) (cams_from_rig : list Rigid3d)
    (rig_from_world0 : Rigid3d) (cameras : list Camera)
    (rig_from_world_cov : bool) (r : Refined) :
  RefineGeneralizedAbsolutePose options inlier_mask points2D points3D camera_idxs
    cams_from_rig rig_from_world0 cameras rig_from_world_cov = Returned r ->
  (refine_focal_length options = false -> refine_extra_params options = false ->
   cameras_after (refined_memory r) cameras = cameras) /\
  (forall i camera j,
     cameras !! i = Some camera ->
     j ∈ PrincipalPointIdxs camera \/
     (refine_focal_length options = false /\ j ∈ FocalLengthIdxs camera) \/
     (refine_extra_params options = false /\ j ∈ ExtraParamsIdxs camera) ->
     refined_memory r (CameraParams i) !! j = params camera !! j).
Proof.
  intros Hcall.
  apply RefineGeneralizedAbsolutePose_Returned_inv in Hcall as (problem & Hbuild & ->).
  rewrite solve_and_report_memory.
  destruct (build_problem_blocks _ _ _ _ _ _ Hbuild) as [Hcams _].
  set (memory0 := initial_memory rig_from_world0 cameras cams_from_rig points3D).
  assert (Hinit : forall i camera,
    cameras !! i = Some camera -> memory0 (CameraParams i) = params camera).
  { intros i camera Hcamera. unfold memory0. simpl. by rewrite Hcamera. }
  split.
  - intros Hfocal Hextra. unfold cameras_after.
    apply list_eq. intros i. rewrite list_lookup_imap.
    destruct (cameras !! i) as [camera|] eqn:Hcamera; simpl; [|done].
    pose proof (Hinit i _ Hcamera) as Hparams.
    f_equal. destruct camera as [id ps]. simpl in *. f_equal.
    rewrite <- Hparams.
    destruct (decide (CameraParams i ∈ problem_blocks problem)) as [Hin|Hout];
      [|by apply Solve_outside].
    destruct (Hcams i Hin) as (_ & camera & Hcamera' & [Hconst|[Hflags _]]).
    + by apply Solve_constant.
    + by rewrite Hfocal, Hextra in Hflags.
  - intros i camera j Hcamera Hj.
    rewrite <- (Hinit i _ Hcamera).
    destruct (decide (CameraParams i ∈ problem_blocks problem)) as [Hin|Hout];
      [|by rewrite Solve_outside].
    destruct (Hcams i Hin) as (_ & camera' & Hcamera' & [Hconst|[_ [size Hsubset]]]).
    + by rewrite Solve_constant.
    + rewrite Hcamera in Hcamera'. injection Hcamera' as <-.
      apply (Solve_subset _ _ _ _ size (camera_params_const options camera)); [done|].
      by apply camera_params_const_elem_of.
Qed.

Lemma RefineGeneralizedAbsolutePose_intrinsics_fixed_witness :
  let r :=
    refined_or_default
      (RefineGeneralizedAbsolutePose
         (Cam:=SimplePinhole.camera_model) (Solver:=Nudge.ceres)
         focal_only third_out four_pixels four_points third_on_second apart
         AcceptAll.identity two_cameras true) in
  (refine_focal_length focal_only = false -> refine_extra_params focal_only = false ->
   cameras_after (refined_memory r) two_cameras = two_cameras) /\
  (forall i camera j,
     two_cameras !! i = Some camera ->
     j ∈ PrincipalPointIdxs (CameraModel:=SimplePinhole.camera_model) camera \/
     (refine_focal_length focal_only = false /\
      j ∈ FocalLengthIdxs (CameraModel:=SimplePinhole.camera_model) camera) \/
     (refine_extra_params focal_only = false /\
      j ∈ ExtraParamsIdxs (CameraModel:=SimplePinhole.camera_model) camera) ->
     refined_memory r (CameraParams i) !! j = params camera !! j).
Proof.
  apply (RefineGeneralizedAbsolutePose_intrinsics_fixed
           (Cam:=SimplePinhole.camera_model) (Solver:=Nudge.ceres) (Frame:=Nudge_frame)
           focal_only third_out four_pixels four_points third_on_second apart
           AcceptAll.identity two_cameras true).
  vm_compute. reflexivity.
Defined.

(** The solver of [Nudge] moves the focal length of the first camera, which
    saw inliers, and nothing of the second, which saw none. *)
Example RefineGeneralizedAbsolutePose_focal_only :
  cameras_after
    (refined_memory
       (refined_or_default
          (RefineGeneralizedAbsolutePose
             (Cam:=SimplePinhole.camera_model) (Solver:=Nudge.ceres)
             focal_only third_out four_pixels four_points third_on_second apart
             AcceptAll.identity two_cameras true)))
    two_cameras
  = [MkCamera 0 [11; 0; 0]%float; MkCamera 0 [10; 0; 0]%float].
Proof. vm_compute. reflexivity. Qed.

(** With both flags off it moves no parameter of either camera, while it
    moves the pose. *)
Example RefineGeneralizedAbsolutePose_fixed_intrinsics :
  let r :=
    refined_or_default
      (RefineGeneralizedAbsolutePose
         (Cam:=SimplePinhole.camera_model) (Solver:=Nudge.ceres)
         fixed_intrinsics third_out four_pixels four_points third_on_second apart
         AcceptAll.identity two_cameras true) in
  cameras_after (refined_memory r) two_cameras = two_cameras /\
  refined_memory r RigFromWorldTranslation = [1; 1; 1]%float.
Proof. vm_compute. split; reflexivity. Qed.

(** C9: the caller's [cams_from_rig] and [points3D] are after the call what
    they were before (the problem holds only the copies), and a camera that
    no inlier correspondence refers to has its parameters neither in the
    problem nor changed. *)
Theorem RefineGeneralizedAbsolutePose_frame
    {Cam : CameraModel} {Solver : Ceres} {Frame : CeresFrame}
    (options : AbsolutePoseRefinementOptions) (inlier_mask : list bool)
    (points2D : list Vector2d) (points3D : list Vector3d)
    (camera_idxs : list nat) (cams_from_rig : list Rigid3d)
    (rig_from_world0 : Rigid3d) (cameras : list Camera)
    (rig_from_world_cov : bool) (r : Refined) :
  RefineGeneralizedAbsolutePose options inlier_mask points2D points3D camera_idxs
    cams_from_rig rig_from_world0 cameras rig_from_world_cov = Returned r ->
  let memory0 := initial_memory rig_from_world0 cameras cams_from_rig points3D in
  (forall i,
     refined_memory r (CamFromRigRotation i) = memory0 (CamFromRigRotation i) /\
     refined_memory r (CamFromRigTranslation i) = memory0 (CamFromRigTranslation i) /\
     refined_memory r (Point3D i) = memory0 (Point3D i)) /\
  exists problem,
    build_problem options inlier_mask points2D camera_idxs cameras = Returned problem /\
    (forall i, (CamFromRigRotation i ∉ problem_blocks problem) /\
               (CamFromRigTranslation i ∉ problem_blocks problem) /\
               (Point3D i ∉ problem_blocks problem)) /\
    (forall c,
       (forall k, inlier_mask !! k = Some true -> camera_idxs !! k <> Some c) ->
       (CameraParams c ∉ problem_blocks problem) /\
       refined_memory r (CameraParams c) = memory0 (CameraParams c)).
Proof.
  intros Hcall memory0.
  apply RefineGeneralizedAbsolutePose_Returned_inv in Hcall as (problem & Hbuild & ->).
  rewrite solve_and_report_memory.
  destruct (build_problem_blocks _ _ _ _ _ _ Hbuild) as [Hcams Hcaller].
  split.
  - intros i. destruct (Hcaller i) as (Hrot & Htrans & Hpoint).
    repeat split; by apply Solve_outside.
  - exists problem. split; [done|]. split; [done|].
    intros c Hnone.
    assert (Hout : CameraParams c ∉ problem_blocks problem).
    { intros Hin. destruct (Hcams c Hin) as ((k & Hk & Hc) & _).
      by apply (Hnone k). }
    split; [done|]. by apply Solve_outside.
Qed.

Lemma RefineGeneralizedAbsolutePose_frame_witness :
  let r :=
    refined_or_default
      (RefineGeneralizedAbsolutePose
         (Cam:=SimplePinhole.camera_model) (Solver:=Nudge.ceres)
         focal_only third_out four_pixels four_points third_on_second apart
         AcceptAll.identity two_cameras true) in
  let memory0 := initial_memory AcceptAll.identity two_cameras apart four_points in
  (forall i,
     refined_memory r (CamFromRigRotation i) = memory0 (CamFromRigRotation i) /\
     refined_memory r (CamFromRigTranslation i) = memory0 (CamFromRigTranslation i) /\
     refined_memory r (Point3D i) = memory0 (Point3D i)) /\
  exists problem,
    build_problem (Cam:=SimplePinhole.camera_model)
      focal_only third_out four_pixels third_on_second two_cameras = Returned problem /\
    (forall i, (CamFromRigRotation i ∉ problem_blocks problem) /\
               (CamFromRigTranslation i ∉ problem_blocks problem) /\
               (Point3D i ∉ problem_blocks problem)) /\
    (forall c,
       (forall k, third_out !! k = Some true -> third_on_second !! k <> Some c) ->
       (CameraParams c ∉ problem_blocks problem) /\
       refined_memory r (CameraParams c) = memory0 (CameraParams c)).
Proof.
  apply (RefineGeneralizedAbsolutePose_frame
           (Cam:=SimplePinhole.camera_model) (Solver:=Nudge.ceres) (Frame:=Nudge_frame)
           focal_only third_out four_pixels four_points third_on_second apart
           AcceptAll.identity two_cameras true).
  vm_compute. reflexivity.
Defined.

Section RefinementReturns.
Context {Cam : CameraModel} {Solver : Ceres}.

Lemma build_problem_Returned options inlier_mask points2D camera_idxs cameras :
  length points2D = length inlier_mask ->
  length points2D = length camera_idxs ->
  Forall (fun c => c < length cameras) camera_idxs ->
  exists problem,
    build_problem options inlier_mask points2D camera_idxs cameras = Returned problem.
Proof.
  intros Hmask Hidxs Hrange. unfold build_problem.
  destruct (for_loop_seq_Returned
              (residual_step options inlier_mask points2D camera_idxs cameras)
              (fun st => length st.2 = length cameras)
              (length points2D) 0
              (empty_problem, replicate (length cameras) 0))
    as ([problem1 counts] & -> & Hlen).
  { simpl. by rewrite length_replicate. }
  { intros i [problem counts] Hi Hlen. simpl in Hlen. unfold residual_step.
    destruct (lookup_lt_is_Some_2 inlier_mask i) as [inlier Hinlier]; [lia|].
    rewrite (index_lookup _ _ _ Hinlier). simpl.
    destruct inlier; simpl; [|by eexists].
    destruct (lookup_lt_is_Some_2 camera_idxs i) as [c Hc]; [lia|].
    assert (Hlt : c < length cameras) by (by eapply Forall_lookup_1 in Hrange).
    destruct (lookup_lt_is_Some_2 counts c) as [count Hcount]; [lia|].
    destruct (lookup_lt_is_Some_2 cameras c Hlt) as [camera Hcamera].
    destruct (lookup_lt_is_Some_2 points2D i) as [point2D Hpoint2D]; [lia|].
    rewrite (index_lookup _ _ _ Hc). simpl.
    rewrite (index_lookup _ _ _ Hcount). simpl.
    rewrite (at_lookup _ _ _ Hcamera). simpl.
    rewrite (index_lookup _ _ _ Hpoint2D). simpl.
    eexists. split; [done|]. simpl. by rewrite length_insert. }
  simpl in Hlen. simpl.
  destruct (0 <? NumResiduals problem1); [|by eexists].
  destruct (for_loop_seq_Returned
              (camera_step options cameras counts) (fun _ => True)
              (length cameras) 0
              (SetQuaternionManifold RigFromWorldRotation problem1))
    as (problem & -> & _); [done| |by eexists].
  intros i problem Hi _. unfold camera_step.
  destruct (lookup_lt_is_Some_2 counts i) as [count Hcount]; [lia|].
  rewrite (index_lookup _ _ _ Hcount). simpl.
  destruct (count =? 0); [by eexists|].
  destruct (lookup_lt_is_Some_2 cameras i) as [camera Hcamera]; [lia|].
  rewrite (at_lookup _ _ _ Hcamera). simpl.
  destruct (_ && _); [by eexists|].
  destruct (_ =? _); by eexists.
Qed.

Lemma count_inliers_snoc mask b :
  count_inliers (mask ++ [b]) = count_inliers mask + (if b then 1 else 0).
Proof.
  unfold count_inliers. rewrite filter_app, length_app.
  by destruct b.
Qed.

(** One residual block per inlier. *)
Lemma build_problem_NumResiduals options inlier_mask points2D camera_idxs cameras problem :
  length points2D = length inlier_mask ->
  build_problem options inlier_mask points2D camera_idxs cameras = Returned problem ->
  NumResiduals problem = 2 * count_inliers inlier_mask.
Proof.
  intros Hmask Hbuild. unfold build_problem in Hbuild.
  apply bind_Returned_inv in Hbuild as ([problem1 counts] & Hloop & Hbuild).
  apply (for_loop_seq_invariant _
           (fun k st => length (residual_blocks st.1) =
                        count_inliers (take k inlier_mask))
           (length points2D) 0 _ _) in Hloop; [|done|].
  - simpl in Hloop. rewrite Hmask, firstn_all in Hloop.
    assert (Hres : residual_blocks problem = residual_blocks problem1).
    { destruct (0 <? NumResiduals problem1); [|by injection Hbuild as <-].
      apply (for_loop_seq_invariant _
               (camera_invariant options cameras counts
                  (SetQuaternionManifold RigFromWorldRotation problem1))
               (length cameras) 0 _ _) in Hbuild; [by destruct Hbuild| |].
      - split; [done|]. intros i camera c Hi. lia.
      - intros k p p' _. apply camera_step_invariant. }
    unfold NumResiduals. by rewrite Hres, Hloop.
  - intros k [p counts'] [p' counts''] Hk Hcount Hstep. simpl in *.
    unfold residual_step in Hstep.
    apply bind_Returned_inv in Hstep as (inlier & Hinlier & Hstep).
    apply index_Returned_inv in Hinlier.
    rewrite (take_S_r _ _ _ Hinlier), count_inliers_snoc.
    destruct inlier; simpl in Hstep.
    + apply bind_Returned_inv in Hstep as (c & _ & Hstep).
      apply bind_Returned_inv in Hstep as (count & _ & Hstep).
      apply bind_Returned_inv in Hstep as (camera & _ & Hstep).
      apply bind_Returned_inv in Hstep as (point2D & _ & Hstep).
      injection Hstep as <- _. simpl. rewrite length_app. simpl. lia.
    + injection Hstep as <- _. lia.
Qed.

End RefinementReturns.

(** C7: a call on well-formed arguments returns, and it returns true
    exactly when the solver's summary says the solution is usable and, in
    case a covariance is asked for and the problem has a residual (there is
    an inlier), the covariance computation succeeded. *)
Theorem RefineGeneralizedAbsolutePose_success
    {Cam : CameraModel} {Solver : Ceres}
    (options : AbsolutePoseRefinementOptions) (inlier_mask : list bool)
    (points2D : list Vector2d) (points3D : list Vector3d)
    (camera_idxs : list nat) (cams_from_rig : list Rigid3d)
    (rig_from_world0 : Rigid3d) (cameras : list Camera)
    (rig_from_world_cov : bool) :
  length points2D = length inlier_mask ->
  length points2D = length points3D ->
  length points2D = length camera_idxs ->
  length cams_from_rig = length cameras ->
  camera_idxs <> [] ->
  Forall (fun c => c < length cameras) camera_idxs ->
  RefinementOptions_Check options = true ->
  exists problem r,
    build_problem options inlier_mask points2D camera_idxs cameras = Returned problem /\
    NumResiduals problem = 2 * count_inliers inlier_mask /\
    RefineGeneralizedAbsolutePose options inlier_mask points2D points3D camera_idxs
      cams_from_rig rig_from_world0 cameras rig_from_world_cov = Returned r /\
    let solved :=
      Solve (solver_options_of options) problem
        (initial_memory rig_from_world0 cameras cams_from_rig points3D) in
    (refined_ok r = true <->
     IsSolutionUsable solved.2 = true /\
     (rig_from_world_cov = true -> 0 < NumResiduals problem ->
      Covariance_Compute [RigFromWorldRotation; RigFromWorldTranslation]
        problem solved.1 = true)).
Proof.
  intros Hmask Hpoints Hidxs Hcams Hne Hrange Hcheck.
  destruct (build_problem_Returned options inlier_mask points2D camera_idxs cameras)
    as [problem Hbuild]; [done|done|done|].
  exists problem.
  exists (solve_and_report options problem
            (initial_memory rig_from_world0 cameras cams_from_rig points3D)
            rig_from_world_cov).
  split; [done|].
  split; [by eapply build_problem_NumResiduals|]. split.
  - unfold RefineGeneralizedAbsolutePose.
    rewrite <- Hmask, <- Hpoints, <- Hidxs, Hcams, !Nat.eqb_refl. simpl.
    destruct (min_element_is_Some camera_idxs Hne) as [lo ->]. simpl.
    destruct (max_element_lt camera_idxs (length cameras) Hne) as (hi & -> & Hlt).
    simpl. rewrite (proj2 Hlt Hrange). simpl. rewrite Hcheck. simpl.
    by rewrite Hbuild.
  - unfold solve_and_report. simpl.
    destruct (Solve _ _ _) as [memory summary]. simpl.
    destruct (Nat.ltb_spec 0 (NumResiduals problem)) as [Hpos|Hzero];
      destruct rig_from_world_cov; simpl;
      try (split; [intros Husable; split; [done|]; intros; (done || lia)|by intros [? _]]).
    destruct (Covariance_Compute _ _ _) eqn:Hcov; simpl.
    + split; [by intros ?|by intros [? _]].
    + split; [done|]. intros [_ Hcompute]. by specialize (Hcompute eq_refl Hpos).
Qed.

Lemma RefineGeneralizedAbsolutePose_success_witness :
  exists problem r,
    build_problem (Cam:=SimplePinhole.camera_model)
      focal_only third_out four_pixels third_on_second two_cameras = Returned problem /\
    NumResiduals problem = 2 * count_inliers third_out /\
    RefineGeneralizedAbsolutePose
      (Cam:=SimplePinhole.camera_model) (Solver:=Nudge.ceres)
      focal_only third_out four_pixels four_points third_on_second apart
      AcceptAll.identity two_cameras true = Returned r /\
    let solved :=
      Solve (Ceres:=Nudge.ceres) (solver_options_of focal_only) problem
        (initial_memory AcceptAll.identity two_cameras apart four_points) in
    (refined_ok r = true <->
     IsSolutionUsable (Ceres:=Nudge.ceres) solved.2 = true /\
     (true = true -> 0 < NumResiduals problem ->
      Covariance_Compute (Ceres:=Nudge.ceres)
        [RigFromWorldRotation; RigFromWorldTranslation] problem solved.1 = true)).
Proof.
  apply (RefineGeneralizedAbsolutePose_success
           (Cam:=SimplePinhole.camera_model) (Solver:=Nudge.ceres)
           focal_only third_out four_pixels four_points third_on_second apart
           AcceptAll.identity two_cameras true);
    try done; repeat constructor.
Defined.

(** With the solver of [Nudge], whose covariance computation needs three
    residual blocks: the call with three inliers returns true, the call with
    two returns false although the summary says the solution is usable, and
    the call with two that asks for no covariance returns true. *)
Example RefineGeneralizedAbsolutePose_covariance :
  refined_ok (refined_or_default
    (RefineGeneralizedAbsolutePose
       (Cam:=SimplePinhole.camera_model) (Solver:=Nudge.ceres)
       focal_only third_out four_pixels four_points third_on_second apart
       AcceptAll.identity two_cameras true)) = true /\
  refined_ok (refined_or_default
    (RefineGeneralizedAbsolutePose
       (Cam:=SimplePinhole.camera_model) (Solver:=Nudge.ceres)
       focal_only [true; true; false; false] four_pixels four_points
       third_on_second apart AcceptAll.identity two_cameras true)) = false /\
  refined_ok (refined_or_default
    (RefineGeneralizedAbsolutePose
       (Cam:=SimplePinhole.camera_model) (Solver:=Nudge.ceres)
       focal_only [true; true; false; false] four_pixels four_points
       third_on_second apart AcceptAll.identity two_cameras false)) = true.
Proof. vm_compute. repeat split. Qed.

(** * Further properties *)

(** ** Outcomes, once more *)

Lemma THROW_CHECK_inv (b : bool) (t : unit) : THROW_CHECK b = Returned t -> b = true.
Proof. by destruct b. Qed.

Lemma deref_Returned_inv {A} (it : option A) (a : A) :
  deref it = Returned a -> it = Some a.
Proof. destruct it; intros Hit; by inversion Hit. Qed.

Lemma index_Undefined {A} (l : list A) (i : nat) :
  length l <= i -> index l i = Undefined.
Proof. intros Hi. unfold index. by rewrite lookup_ge_None_2. Qed.

Lemma mapM_Returned_inv {A B} (f : A -> outcome B) (xs : list A) (l : list B) :
  mapM f xs = Returned l -> Forall2 (fun a b => f a = Returned b) xs l.
Proof.
  revert l. induction xs as [|a xs IH]; intros l Hl; simpl in Hl.
  - injection Hl as <-. constructor.
  - apply bind_Returned_inv in Hl as (b & Hb & Hl).
    apply bind_Returned_inv in Hl as (bs & Hbs & Hl).
    injection Hl as <-. constructor; [done|]. by apply IH.
Qed.

Lemma forallb_lt_Forall (l : list nat) (n : nat) :
  forallb (fun c => c <? n) l = true <-> Forall (fun c => c < n) l.
Proof.
  rewrite forallb_forall, Forall_forall. split; intros Hl c Hc.
  - apply Nat.ltb_lt, Hl. by apply list_elem_of_In.
  - apply Nat.ltb_lt, Hl. by apply list_elem_of_In.
Qed.

(** ** [ThrowCheckCameras], case by case *)

(** [ThrowCheckCameras] raises on an empty camera list, on an extrinsics list
    of another length and on a camera index that is not below the number of
    cameras; it returns when none of these holds and there is an index; and
    with no index at all it is not defined, the end iterators being
    dereferenced. *)
Theorem ThrowCheckCameras_outcome (camera_idxs : list nat)
    (cams_from_rig : list Rigid3d) (cameras : list Camera) :
  ThrowCheckCameras camera_idxs cams_from_rig cameras =
  if bool_decide (cameras = []) then Thrown
  else if negb (length cams_from_rig =? length cameras) then Thrown
  else if bool_decide (camera_idxs = []) then Undefined
  else if forallb (fun c => c <? length cameras) camera_idxs then Returned tt
  else Thrown.
Proof.
  unfold ThrowCheckCameras.
  case_bool_decide as Hc; simpl; [done|].
  destruct (Nat.eqb_spec (length cams_from_rig) (length cameras)); simpl; [|done].
  case_bool_decide as Hi; [by subst|].
  destruct (max_element_lt camera_idxs (length cameras) Hi) as (hi & Hhi & Hlt).
  destruct (min_element_is_Some camera_idxs Hi) as [lo Hlo].
  unfold max_element, min_element in Hhi, Hlo.
  destruct (minmax_element camera_idxs) as [mn mx]. simpl in Hhi, Hlo. subst. simpl.
  rewrite <- forallb_lt_Forall in Hlt.
  destruct (hi <? length cameras), (forallb _ camera_idxs); simpl; try done.
  - discriminate (proj1 Hlt eq_refl).
  - discriminate (proj2 Hlt eq_refl).
Qed.

(** ** [ComputeMaxErrorInCamera], case by case *)

Lemma sum_thresholds_outcome {Cam : CameraModel} camera_idxs cameras max_error_px acc :
  sum_thresholds camera_idxs cameras max_error_px acc =
  if forallb (fun c => c <? length cameras) camera_idxs
  then Returned (fold_left PrimFloat.add
                   ((fun c => CamFromImgThreshold (cameras !!! c) max_error_px)
                      <$> camera_idxs) acc)
  else Undefined.
Proof.
  revert acc. induction camera_idxs as [|c camera_idxs IH]; intros acc; simpl; [done|].
  destruct (Nat.ltb_spec c (length cameras)) as [Hc|Hc]; simpl.
  - destruct (lookup_lt_is_Some_2 cameras c Hc) as [camera Hcamera].
    rewrite (index_lookup _ _ _ Hcamera). simpl.
    rewrite (list_lookup_total_correct _ _ _ Hcamera). apply IH.
  - by rewrite index_Undefined.
Qed.

(** [ComputeMaxErrorInCamera] raises on a threshold that is not above zero
    (a NaN is not); it is not defined when a camera index is out of range;
    otherwise it returns the mean.  With no correspondence the mean is
    [0.0 / 0], a NaN, and no error. *)
Theorem ComputeMaxErrorInCamera_outcome {Cam : CameraModel}
    (camera_idxs : list nat) (cameras : list Camera) (max_error_px : float) :
  ComputeMaxErrorInCamera camera_idxs cameras max_error_px =
    (if negb (0 <? max_error_px)%float then Thrown
     else if forallb (fun c => c <? length cameras) camera_idxs
     then Returned (mean ((fun c => CamFromImgThreshold (cameras !!! c) max_error_px)
                            <$> camera_idxs))
     else Undefined) /\
  ComputeMaxErrorInCamera [] cameras max_error_px =
    (if negb (0 <? max_error_px)%float then Thrown else Returned nan).
Proof.
  unfold ComputeMaxErrorInCamera. split.
  - destruct (0 <? max_error_px)%float; simpl; [|done].
    rewrite sum_thresholds_outcome.
    destruct (forallb _ camera_idxs); simpl; [|done].
    unfold mean, float_sum. by rewrite length_fmap.
  - by destruct (0 <? max_error_px)%float.
Qed.

(** ** The ids [ComputeUniquePointIds] gives *)

Section UniquePointIdsShape.
Context {Eigen : EigenOps}.

Lemma unique_walk_length points3D ids rest unique_it current_it out :
  length (unique_walk points3D ids rest unique_it current_it out) = length out.
Proof.
  revert unique_it current_it out.
  induction rest as [|c rest IH]; intros unique_it current_it out; simpl; [done|].
  by rewrite IH, length_insert.
Qed.

Lemma sorted_point3D_ids_position points3D i :
  i < length points3D -> exists b, sorted_point3D_ids points3D !! b = Some i.
Proof.
  intros Hi. apply list_elem_of_lookup_1.
  rewrite sorted_point3D_ids_Permutation. apply elem_of_seq. lia.
Qed.

Lemma representative_mono points3D ids a b :
  a <= b -> representative points3D ids a <= representative points3D ids b.
Proof.
  induction 1 as [|b Hab IH]; [done|].
  pose proof (representative_le points3D ids b) as Hle. simpl.
  destruct (isApprox _ _ _); lia.
Qed.

Lemma ComputeUniquePointIds_length points3D :
  length (ComputeUniquePointIds points3D) = length points3D.
Proof.
  unfold ComputeUniquePointIds. by rewrite unique_walk_length, length_replicate.
Qed.

End UniquePointIdsShape.

(** There is one id per point, and every id is below the number of points. *)
Theorem ComputeUniquePointIds_range {Eigen : EigenOps} (points3D : list Vector3d) :
  length (ComputeUniquePointIds points3D) = length points3D /\
  Forall (fun id => id < length points3D) (ComputeUniquePointIds points3D).
Proof.
  pose proof (ComputeUniquePointIds_length points3D) as Hlen.
  split; [done|].
  apply Forall_lookup. intros i id Hid.
  destruct (sorted_point3D_ids_position points3D i) as [b Hb].
  { rewrite <- Hlen. by eapply lookup_lt_Some. }
  rewrite (ComputeUniquePointIds_representative points3D b i Hb) in Hid.
  injection Hid as <-.
  pose proof (representative_le points3D (sorted_point3D_ids points3D) b).
  apply lookup_lt_Some in Hb.
  rewrite (Permutation_length (sorted_point3D_ids_Permutation points3D)),
          length_seq in Hb.
  lia.
Qed.

(** Along the sorted order the ids never decrease and never exceed the
    position, the first point has id 0, and the points of one id are
    consecutive: a point between two points of the same id has that id. *)
Theorem ComputeUniquePointIds_runs {Eigen : EigenOps}
    (points3D : list Vector3d) (a b c i j k : nat) :
  a <= b -> b <= c ->
  sorted_point3D_ids points3D !! a = Some i ->
  sorted_point3D_ids points3D !! b = Some j ->
  sorted_point3D_ids points3D !! c = Some k ->
  exists ida idb idc,
    ComputeUniquePointIds points3D !! i = Some ida /\
    ComputeUniquePointIds points3D !! j = Some idb /\
    ComputeUniquePointIds points3D !! k = Some idc /\
    ida <= idb /\ idb <= idc /\ idb <= b /\
    (a = 0 -> ida = 0) /\
    (ida = idc -> idb = ida).
Proof.
  intros Hab Hbc Ha Hb Hc.
  eexists _, _, _.
  split; [by apply ComputeUniquePointIds_representative|].
  split; [by apply ComputeUniquePointIds_representative|].
  split; [by apply ComputeUniquePointIds_representative|].
  pose proof (representative_mono points3D (sorted_point3D_ids points3D) a b Hab).
  pose proof (representative_mono points3D (sorted_point3D_ids points3D) b c Hbc).
  pose proof (representative_le points3D (sorted_point3D_ids points3D) b).
  repeat split; try done; [by intros ->|lia].
Qed.

Lemma ComputeUniquePointIds_runs_witness :
  exists ida idb idc,
    ComputeUniquePointIds (Eigen:=Binary64.eigen) three_on_a_line !! 1 = Some ida /\
    ComputeUniquePointIds (Eigen:=Binary64.eigen) three_on_a_line !! 2 = Some idb /\
    ComputeUniquePointIds (Eigen:=Binary64.eigen) three_on_a_line !! 0 = Some idc /\
    ida <= idb /\ idb <= idc /\ idb <= 1 /\
    (0 = 0 -> ida = 0) /\
    (ida = idc -> idb = ida).
Proof.
  apply (ComputeUniquePointIds_runs (Eigen:=Binary64.eigen) three_on_a_line 0 1 2 1 2 0);
    try lia; vm_compute; reflexivity.
Defined.

(** Points of which none passes the tolerance test against one before it in
    the sorted order all keep an id of their own, their sorted position. *)
Theorem ComputeUniquePointIds_separated {Eigen : EigenOps}
    (points3D : list Vector3d) :
  (forall a b i j,
     a < b ->
     sorted_point3D_ids points3D !! a = Some i ->
     sorted_point3D_ids points3D !! b = Some j ->
     isApprox (points3D !!! i) (points3D !!! j) 1e-5%float = false) ->
  (forall b i, sorted_point3D_ids points3D !! b = Some i ->
               ComputeUniquePointIds points3D !! i = Some b) /\
  (forall i j id, i <> j ->
     ComputeUniquePointIds points3D !! i = Some id ->
     ComputeUniquePointIds points3D !! j <> Some id).
Proof.
  intros Hfar.
  assert (Hrep : forall b i, sorted_point3D_ids points3D !! b = Some i ->
            representative points3D (sorted_point3D_ids points3D) b = b).
  { induction b as [|b IH]; intros i Hb; [done|]. simpl.
    destruct (lookup_lt_is_Some_2 (sorted_point3D_ids points3D) b) as [i' Hb'].
    { apply lookup_lt_Some in Hb. lia. }
    rewrite (IH i' Hb').
    rewrite (list_lookup_total_correct _ _ _ Hb'), (list_lookup_total_correct _ _ _ Hb).
    by rewrite (Hfar b (S b) i' i) by (done || lia). }
  assert (Hown : forall b i, sorted_point3D_ids points3D !! b = Some i ->
            ComputeUniquePointIds points3D !! i = Some b).
  { intros b i Hb. rewrite (ComputeUniquePointIds_representative points3D b i Hb).
    f_equal. by eapply Hrep. }
  split; [done|].
  intros i j id Hne Hi Hj.
  pose proof (ComputeUniquePointIds_length points3D) as Hlen.
  destruct (sorted_point3D_ids_position points3D i) as [b Hb].
  { rewrite <- Hlen. by eapply lookup_lt_Some. }
  destruct (sorted_point3D_ids_position points3D j) as [b' Hb'].
  { rewrite <- Hlen. by eapply lookup_lt_Some. }
  rewrite (Hown b i Hb) in Hi. rewrite (Hown b' j Hb') in Hj.
  injection Hi as <-. injection Hj as <-. congruence.
Qed.

Lemma ComputeUniquePointIds_separated_witness :
  (forall b i, sorted_point3D_ids three_apart !! b = Some i ->
               ComputeUniquePointIds (Eigen:=Binary64.eigen) three_apart !! i = Some b) /\
  (forall i j id, i <> j ->
     ComputeUniquePointIds (Eigen:=Binary64.eigen) three_apart !! i = Some id ->
     ComputeUniquePointIds (Eigen:=Binary64.eigen) three_apart !! j <> Some id).
Proof.
  apply (ComputeUniquePointIds_separated (Eigen:=Binary64.eigen) three_apart).
  intros a b i j Hab Ha Hb.
  destruct a as [|[|[|a]]], b as [|[|[|b]]];
    vm_compute in Ha, Hb; try discriminate; try lia;
    injection Ha as <-; injection Hb as <-; vm_compute; reflexivity.
Defined.

(** ** [IsPanoramicRig] reads the referenced cameras only *)

Lemma index_ext {A} (l l' : list A) (i : nat) :
  l !! i = l' !! i -> index l i = index l' i.
Proof. unfold index. by intros ->. Qed.

Lemma IsPanoramicRig_loop_ext {Eigen : EigenOps} first_origin_in_rig others
    cams_from_rig cams_from_rig' :
  (forall c, c ∈ others -> cams_from_rig !! c = cams_from_rig' !! c) ->
  IsPanoramicRig_loop first_origin_in_rig others cams_from_rig =
  IsPanoramicRig_loop first_origin_in_rig others cams_from_rig'.
Proof.
  induction others as [|c others IH]; intros Hsame; simpl; [done|].
  rewrite (index_ext cams_from_rig cams_from_rig' c)
    by (apply Hsame, elem_of_cons; by left).
  destruct (index cams_from_rig' c); simpl; try done.
  destruct (isApprox _ _ _); simpl; [|done].
  apply IH. intros c' Hc'. apply Hsame, elem_of_cons. by right.
Qed.

(** Two rigs that have the same extrinsics for the cameras the index array
    refers to get the same answer: the other cameras are not looked at. *)
Theorem IsPanoramicRig_referenced_only {Eigen : EigenOps}
    (camera_idxs : list nat) (cams_from_rig cams_from_rig' : list Rigid3d) :
  (forall c, c ∈ camera_idxs -> cams_from_rig !! c = cams_from_rig' !! c) ->
  IsPanoramicRig camera_idxs cams_from_rig = IsPanoramicRig camera_idxs cams_from_rig'.
Proof.
  intros Hsame. unfold IsPanoramicRig.
  pose proof (std_set_elem_of camera_idxs) as Helem.
  destruct (std_set camera_idxs) as [|first others]; simpl; [done|].
  rewrite (index_ext cams_from_rig cams_from_rig' first)
    by (apply Hsame, Helem, elem_of_cons; by left).
  destruct (index cams_from_rig' first); simpl; try done.
  apply IsPanoramicRig_loop_ext.
  intros c Hc. apply Hsame, Helem, elem_of_cons. by right.
Qed.

Lemma IsPanoramicRig_referenced_only_witness :
  IsPanoramicRig (Eigen:=Binary64.eigen) [0; 0] two_close_cameras =
  IsPanoramicRig (Eigen:=Binary64.eigen) [0; 0] close_then_origin.
Proof.
  apply (IsPanoramicRig_referenced_only (Eigen:=Binary64.eigen)
           [0; 0] two_close_cameras close_then_origin).
  intros c Hc. apply elem_of_cons in Hc as [->|Hc]; [reflexivity|].
  apply elem_of_cons in Hc as [->|Hc]; [reflexivity|].
  by apply elem_of_nil in Hc.
Defined.

(** ** [EstimateGeneralizedAbsolutePose]: when it returns, and with what *)

Section AbsolutePoseMore.
Context {Eigen : EigenOps} {Cam : CameraModel} {Engine : Consensus}.

Lemma ComputeMaxErrorInCamera_Returned_inv camera_idxs cameras max_error_px e :
  ComputeMaxErrorInCamera camera_idxs cameras max_error_px = Returned e ->
  (0 <? max_error_px)%float = true.
Proof.
  unfold ComputeMaxErrorInCamera. intros He.
  apply bind_Returned_inv in He as ([] & Hpos & _). by apply THROW_CHECK_inv in Hpos.
Qed.

(** A call that returns has passed every check and has gone through the
    whole body. *)
Lemma EstimateGeneralizedAbsolutePose_Returned_full
    options points2D points3D camera_idxs cams_from_rig cameras ok out :
  EstimateGeneralizedAbsolutePose options points2D points3D camera_idxs
    cams_from_rig cameras = Returned (ok, out) ->
  length points2D = length points3D /\
  length points2D = length camera_idxs /\
  ThrowCheckCameras camera_idxs cams_from_rig cameras = Returned tt /\
  RANSACOptions_Check options = true /\
  exists rig_points2D max_error_cam,
    mapM (rig_observation points2D camera_idxs cams_from_rig cameras)
         (seq 0 (length points2D)) = Returned rig_points2D /\
    ComputeMaxErrorInCamera camera_idxs cameras (max_error options)
      = Returned max_error_cam /\
    let report :=
      RANSAC_GP3P_Estimate (set_max_error max_error_cam options)
        (ComputeUniquePointIds points3D) rig_points2D points3D in
    ok = success report /\
    out = if success report
          then MkOutputs (Some (model report)) None None
                 (Some (num_unique_inliers (support report)))
                 (Some (report_inlier_mask report))
          else no_output.
Proof.
  unfold EstimateGeneralizedAbsolutePose. intros Hcall.
  apply bind_Returned_inv in Hcall as ([] & H1 & Hcall).
  apply bind_Returned_inv in Hcall as ([] & H2 & Hcall).
  apply bind_Returned_inv in Hcall as ([] & H3 & Hcall).
  apply bind_Returned_inv in Hcall as ([] & H4 & Hcall).
  apply THROW_CHECK_inv, Nat.eqb_eq in H1, H2. apply THROW_CHECK_inv in H4.
  repeat (split; [done|]).
  destruct (Nat.eqb_spec (length points2D) 0) as [Hzero|Hpos].
  { apply ThrowCheckCameras_Returned in H3 as (_ & _ & Hne & _).
    destruct camera_idxs; [done|]. simpl in H2. lia. }
  apply bind_Returned_inv in Hcall as (rig_points2D & Hrays & Hcall).
  apply bind_Returned_inv in Hcall as (max_error_cam & Hmax & Hcall).
  exists rig_points2D, max_error_cam. split; [done|]. split; [done|]. simpl.
  destruct (success (RANSAC_GP3P_Estimate _ _ _ _)); simpl in Hcall;
    by injection Hcall as <- <-.
Qed.

End AbsolutePoseMore.

(** On 3D points without a NaN coordinate, where [LowerVector3d] is the
    order [std::sort] asks for, [EstimateGeneralizedAbsolutePose] returns,
    true or false, exactly when the three arrays have one length, there is a
    camera, every camera has an extrinsic, there is a correspondence, every
    camera index is below the number of cameras, the options pass their
    check and the threshold is above zero.  In every other case it raises or
    is not defined.  (With a NaN coordinate the sort of
    [ComputeUniquePointIds] is itself not defined.) *)
Theorem EstimateGeneralizedAbsolutePose_returns_iff
    {Eigen : EigenOps} {Cam : CameraModel} {Engine : Consensus}
    (options : RANSACOptions) (points2D : list Vector2d) (points3D : list Vector3d)
    (camera_idxs : list nat) (cams_from_rig : list Rigid3d) (cameras : list Camera) :
  Forall (fun point3D => no_nan point3D = true) points3D ->
  (exists r, EstimateGeneralizedAbsolutePose options points2D points3D camera_idxs
               cams_from_rig cameras = Returned r) <->
  length points2D = length points3D /\
  length points2D = length camera_idxs /\
  cameras <> [] /\
  length cams_from_rig = length cameras /\
  camera_idxs <> [] /\
  Forall (fun c => c < length cameras) camera_idxs /\
  RANSACOptions_Check options = true /\
  (0 <? max_error options)%float = true.
Proof.
  intros _. split.
  - intros [[ok out] Hcall].
    apply EstimateGeneralizedAbsolutePose_Returned_full in Hcall
      as (H1 & H2 & H3 & H4 & rays & e & _ & Hmax & _).
    apply ThrowCheckCameras_Returned in H3 as (? & ? & ? & ?).
    apply ComputeMaxErrorInCamera_Returned_inv in Hmax. done.
  - intros (H1 & H2 & Hcameras & Hcams & Hne & Hrange & Hcheck & Hpos).
    unfold EstimateGeneralizedAbsolutePose.
    rewrite <- H1, <- H2, !Nat.eqb_refl. simpl.
    rewrite (proj2 (ThrowCheckCameras_Returned camera_idxs cams_from_rig cameras))
      by done.
    simpl. rewrite Hcheck. simpl.
    destruct (Nat.eqb_spec (length points2D) 0) as [Hzero|Hnonzero]; [by eexists|].
    edestruct (mapM_Returned
                 (rig_observation points2D camera_idxs cams_from_rig cameras)
                 (seq 0 (length points2D))) as [rays ->].
    { apply Forall_forall. intros i Hi. apply elem_of_seq in Hi.
      apply rig_observation_Returned; try done; lia. }
    simpl. unfold ComputeMaxErrorInCamera. rewrite Hpos. simpl.
    rewrite (sum_thresholds_fold _ _ _ _ Hrange). simpl.
    destruct (negb _); by eexists.
Qed.

Lemma EstimateGeneralizedAbsolutePose_returns_iff_witness :
  (exists r,
     EstimateGeneralizedAbsolutePose
       (Eigen:=Binary64.eigen) (Cam:=SimplePinhole.camera_model)
       (Engine:=AcceptAll.consensus)
       default_options four_pixels four_points second_on_second apart two_cameras
     = Returned r) <->
  length four_pixels = length four_points /\
  length four_pixels = length second_on_second /\
  two_cameras <> [] /\
  length apart = length two_cameras /\
  second_on_second <> [] /\
  Forall (fun c => c < length two_cameras) second_on_second /\
  RANSACOptions_Check (Consensus:=AcceptAll.consensus) default_options = true /\
  (0 <? max_error default_options)%float = true.
Proof.
  apply (EstimateGeneralizedAbsolutePose_returns_iff
           (Eigen:=Binary64.eigen) (Cam:=SimplePinhole.camera_model)
           (Engine:=AcceptAll.consensus)
           default_options four_pixels four_points second_on_second apart two_cameras).
  repeat constructor.
Defined.

(** A call that returns false has stored nothing; a call that returns true
    has stored the pose, the inlier count and the inlier mask; and no call
    stores a relative pose. *)
Theorem EstimateGeneralizedAbsolutePose_outputs
    {Eigen : EigenOps} {Cam : CameraModel} {Engine : Consensus}
    (options : RANSACOptions) (points2D : list Vector2d) (points3D : list Vector3d)
    (camera_idxs : list nat) (cams_from_rig : list Rigid3d) (cameras : list Camera)
    (ok : bool) (out : Outputs) :
  EstimateGeneralizedAbsolutePose options points2D points3D camera_idxs
    cams_from_rig cameras = Returned (ok, out) ->
  rig2_from_rig1 out = None /\ pano2_from_pano1 out = None /\
  (ok = false -> out = no_output) /\
  (ok = true ->
   is_Some (rig_from_world out) /\ is_Some (out_num_inliers out) /\
   is_Some (out_inlier_mask out)).
Proof.
  intros Hcall.
  apply EstimateGeneralizedAbsolutePose_Returned_full in Hcall
    as (_ & _ & _ & _ & rays & e & _ & _ & Hfull).
  simpl in Hfull. destruct Hfull as [-> ->].
  destruct (success _); simpl; repeat split; try done; by intros _.
Qed.

Lemma EstimateGeneralizedAbsolutePose_outputs_witness :
  let out := MkOutputs (Some AcceptAll.identity) None None (Some 3)
               (Some (replicate 4 true)) in
  rig2_from_rig1 out = None /\ pano2_from_pano1 out = None /\
  (true = false -> out = no_output) /\
  (true = true ->
   is_Some (rig_from_world out) /\ is_Some (out_num_inliers out) /\
   is_Some (out_inlier_mask out)).
Proof.
  apply (EstimateGeneralizedAbsolutePose_outputs
           (Eigen:=Binary64.eigen) (Cam:=SimplePinhole.camera_model)
           (Engine:=AcceptAll.consensus)
           default_options four_pixels four_points second_on_second apart two_cameras).
  vm_compute. reflexivity.
Defined.

(** On a call that returns true the engine was given one observation per
    correspondence, in order: the ray of the pixel through the
    correspondence's camera, or the zero vector when the camera gives no
    point, and in both cases the extrinsic of that camera. *)
Theorem EstimateGeneralizedAbsolutePose_observations
    {Eigen : EigenOps} {Cam : CameraModel} {Engine : Consensus}
    (options : RANSACOptions) (points2D : list Vector2d) (points3D : list Vector3d)
    (camera_idxs : list nat) (cams_from_rig : list Rigid3d) (cameras : list Camera)
    (out : Outputs) :
  EstimateGeneralizedAbsolutePose options points2D points3D camera_idxs
    cams_from_rig cameras = Returned (true, out) ->
  exists rig_points2D options_copy,
    rig_from_world out =
      Some (model (RANSAC_GP3P_Estimate options_copy
                     (ComputeUniquePointIds points3D) rig_points2D points3D)) /\
    length rig_points2D = length points2D /\
    forall i c camera point2D cam,
      camera_idxs !! i = Some c -> cameras !! c = Some camera ->
      points2D !! i = Some point2D -> cams_from_rig !! c = Some cam ->
      rig_points2D !! i =
      Some (MkRigObservation
              match CamFromImg camera point2D with
              | Some cam_point => homogeneous_normalized cam_point
              | None => Vec3 0 0 0
              end cam).
Proof.
  intros Hcall.
  apply EstimateGeneralizedAbsolutePose_Returned_full in Hcall
    as (_ & _ & _ & _ & rays & e & Hrays & _ & Hfull).
  simpl in Hfull. destruct Hfull as [Hok ->]. rewrite <- Hok.
  exists rays, (set_max_error e options). split; [done|].
  apply mapM_Returned_inv in Hrays.
  split; [by rewrite <- (Forall2_length _ _ _ Hrays), length_seq|].
  intros i c camera point2D cam Hc Hcamera Hpoint Hcam.
  destruct (Forall2_lookup_l _ _ _ i i Hrays) as (o & Ho & Hobs).
  { apply lookup_seq. split; [done|]. by eapply lookup_lt_Some. }
  rewrite Ho. unfold rig_observation in Hobs.
  rewrite (index_lookup _ _ _ Hc) in Hobs. simpl in Hobs.
  rewrite (index_lookup _ _ _ Hcamera) in Hobs. simpl in Hobs.
  rewrite (index_lookup _ _ _ Hpoint) in Hobs. simpl in Hobs.
  rewrite (index_lookup _ _ _ Hcam) in Hobs. simpl in Hobs.
  by injection Hobs as <-.
Qed.

Lemma EstimateGeneralizedAbsolutePose_observations_witness :
  let out := MkOutputs (Some AcceptAll.identity) None None (Some 3)
               (Some (replicate 4 true)) in
  exists rig_points2D options_copy,
    rig_from_world out =
      Some (model (RANSAC_GP3P_Estimate (Consensus:=AcceptAll.consensus) options_copy
                     (ComputeUniquePointIds (Eigen:=Binary64.eigen) four_points)
                     rig_points2D four_points)) /\
    length rig_points2D = length four_pixels /\
    forall i c camera point2D cam,
      second_on_second !! i = Some c -> two_cameras !! c = Some camera ->
      four_pixels !! i = Some point2D -> apart !! c = Some cam ->
      rig_points2D !! i =
      Some (MkRigObservation
              match CamFromImg (CameraModel:=SimplePinhole.camera_model)
                      camera point2D with
              | Some cam_point =>
                  homogeneous_normalized (EigenOps:=Binary64.eigen) cam_point
              | None => Vec3 0 0 0
              end cam).
Proof.
  apply (EstimateGeneralizedAbsolutePose_observations
           (Eigen:=Binary64.eigen) (Cam:=SimplePinhole.camera_model)
           (Engine:=AcceptAll.consensus)
           default_options four_pixels four_points second_on_second apart two_cameras).
  vm_compute. reflexivity.
Defined.

(** ** [EstimateGeneralizedRelativePose]: when it returns, and with what *)

Lemma mapM_Undefined {A B} (f : A -> outcome B) (xs : list A) (k : nat) (a : A) :
  xs !! k = Some a -> f a = Undefined ->
  (forall j a', j < k -> xs !! j = Some a' -> exists b, f a' = Returned b) ->
  mapM f xs = Undefined.
Proof.
  revert k. induction xs as [|a0 xs IH]; intros k Hk Hundef Hbefore; [done|].
  destruct k as [|k]; simpl in *.
  - injection Hk as ->. by rewrite Hundef.
  - destruct (Hbefore 0 a0) as [b ->]; [lia|done|]. simpl.
    rewrite (IH k); [done|done|done|].
    intros j a' Hj Ha'. apply (Hbefore (S j) a'); [lia|done].
Qed.

Section RelativePoseMore.
Context {Eigen : EigenOps} {Cam : CameraModel} {Engine : Consensus}.

Lemma rig_observation_Returned_inv points2D camera_idxs cams_from_rig cameras i o :
  rig_observation points2D camera_idxs cams_from_rig cameras i = Returned o ->
  exists c camera point2D cam,
    camera_idxs !! i = Some c /\ cameras !! c = Some camera /\
    points2D !! i = Some point2D /\ cams_from_rig !! c = Some cam /\
    o = MkRigObservation (ray_of camera point2D) cam.
Proof.
  unfold rig_observation. intros Ho.
  apply bind_Returned_inv in Ho as (c & Hc & Ho).
  apply bind_Returned_inv in Ho as (camera & Hcamera & Ho).
  apply bind_Returned_inv in Ho as (point2D & Hpoint & Ho).
  apply bind_Returned_inv in Ho as (cam & Hcam & Ho).
  apply index_Returned_inv in Hc, Hcamera, Hpoint, Hcam.
  exists c, camera, point2D, cam. by injection Ho as <-.
Qed.

Lemma pano_ray_Returned_inv points2D camera_idxs cams_from_rig cameras i r :
  pano_ray points2D camera_idxs cams_from_rig cameras i = Returned r ->
  exists c camera point2D,
    camera_idxs !! i = Some c /\ cameras !! c = Some camera /\
    points2D !! i = Some point2D /\
    match CamFromImg camera point2D with
    | Some cam_point =>
        exists cam, cams_from_rig !! c = Some cam /\
                    r = rotate (inverse (rotation cam)) (homogeneous_normalized cam_point)
    | None => r = Vec3 0 0 0
    end.
Proof.
  unfold pano_ray. intros Hr.
  apply bind_Returned_inv in Hr as (c & Hc & Hr).
  apply bind_Returned_inv in Hr as (camera & Hcamera & Hr).
  apply bind_Returned_inv in Hr as (point2D & Hpoint & Hr).
  apply index_Returned_inv in Hc, Hcamera, Hpoint.
  exists c, camera, point2D. repeat (split; [done|]).
  destruct (CamFromImg camera point2D); [|by injection Hr as <-].
  apply bind_Returned_inv in Hr as (cam & Hcam & Hr).
  apply index_Returned_inv in Hcam. exists cam. by injection Hr as <-.
Qed.

Lemma rig_observation_Undefined points2D camera_idxs cams_from_rig cameras i :
  length camera_idxs <= i ->
  rig_observation points2D camera_idxs cams_from_rig cameras i = Undefined.
Proof.
  intros Hi. unfold rig_observation. by rewrite (index_Undefined camera_idxs i Hi).
Qed.

Lemma pano_ray_Undefined points2D camera_idxs cams_from_rig cameras i :
  length camera_idxs <= i ->
  pano_ray points2D camera_idxs cams_from_rig cameras i = Undefined.
Proof.
  intros Hi. unfold pano_ray. by rewrite (index_Undefined camera_idxs i Hi).
Qed.

(** A call that returns has passed the checks and, with a point, has gone
    through one of the two branches. *)
Lemma EstimateGeneralizedRelativePose_Returned_full
    ransac_options points2D1 points2D2 camera_idxs1 camera_idxs2
    cams_from_rig cameras ok out :
  EstimateGeneralizedRelativePose ransac_options points2D1 points2D2
    camera_idxs1 camera_idxs2 cams_from_rig cameras = Returned (ok, out) ->
  length points2D1 = length points2D2 /\
  ThrowCheckCameras camera_idxs1 cams_from_rig cameras = Returned tt /\
  ThrowCheckCameras camera_idxs2 cams_from_rig cameras = Returned tt /\
  RANSACOptions_Check ransac_options = true /\
  ((length points2D1 = 0 /\ ok = false /\ out = no_output) \/
   (both_panoramic camera_idxs1 camera_idxs2 cams_from_rig /\
    exists cam_rays,
      mapM (fun i =>
              r1 ← pano_ray points2D1 camera_idxs1 cams_from_rig cameras i;
              r2 ← pano_ray points2D2 camera_idxs2 cams_from_rig cameras i;
              Returned (r1, r2))
           (seq 0 (length points2D1)) = Returned cam_rays /\
      let '(ok', cam2_from_cam1, n, mask) :=
        EstimateRelativePose ransac_options (cam_rays.*1) (cam_rays.*2) in
      ok = ok' /\
      out = MkOutputs None None (if ok' then Some cam2_from_cam1 else None) n mask) \/
   (~ both_panoramic camera_idxs1 camera_idxs2 cams_from_rig /\
    exists points,
      mapM (fun i =>
              p1 ← rig_observation points2D1 camera_idxs1 cams_from_rig cameras i;
              p2 ← rig_observation points2D2 camera_idxs2 cams_from_rig cameras i;
              Returned (p1, p2))
           (seq 0 (length points2D1)) = Returned points /\
      let report :=
        LORANSAC_GR6P_GR8P_Estimate ransac_options (points.*1) (points.*2) in
      ok = success report /\
      out = if success report
            then MkOutputs None (Some (model report)) None
                   (Some (num_inliers (support report)))
                   (Some (report_inlier_mask report))
            else no_output)).
Proof.
  unfold EstimateGeneralizedRelativePose. intros Hcall.
  apply bind_Returned_inv in Hcall as ([] & H1 & Hcall).
  apply bind_Returned_inv in Hcall as ([] & H2 & Hcall).
  apply bind_Returned_inv in Hcall as ([] & H3 & Hcall).
  apply bind_Returned_inv in Hcall as ([] & H4 & Hcall).
  apply THROW_CHECK_inv, Nat.eqb_eq in H1. apply THROW_CHECK_inv in H4.
  repeat (split; [done|]).
  destruct (Nat.eqb_spec (length points2D1) 0) as [Hzero|Hpos];
    [left; by injection Hcall as <- <-|right].
  apply bind_Returned_inv in Hcall as (pano1 & Hpano1 & Hcall).
  apply bind_Returned_inv in Hcall as (pano2 & Hpano2 & Hcall).
  destruct (pano1 && pano2) eqn:Hboth.
  - left. apply andb_true_iff in Hboth as [-> ->]. split; [by split|].
    apply bind_Returned_inv in Hcall as (cam_rays & Hrays & Hcall).
    exists cam_rays. split; [done|].
    destruct (EstimateRelativePose _ _ _) as [[[ok' c] n] mask].
    destruct ok'; by injection Hcall as <- <-.
  - right. split.
    { intros [Hp1 Hp2]. rewrite Hp1 in Hpano1. injection Hpano1 as <-.
      rewrite Hp2 in Hpano2. injection Hpano2 as <-. done. }
    apply bind_Returned_inv in Hcall as (points & Hpoints & Hcall).
    exists points. split; [done|]. simpl.
    destruct (success (LORANSAC_GR6P_GR8P_Estimate _ _ _)); simpl in Hcall;
      by injection Hcall as <- <-.
Qed.

End RelativePoseMore.

(** [EstimateGeneralizedRelativePose] returns only when the two point arrays
    have one length, there is a camera, every camera has an extrinsic, each
    view has a camera index, every camera index is below the number of
    cameras, the options pass their check, and each view has at least as
    many camera indices as points. *)
Theorem EstimateGeneralizedRelativePose_returns_only_if
    {Eigen : EigenOps} {Cam : CameraModel} {Engine : Consensus}
    (ransac_options : RANSACOptions) (points2D1 points2D2 : list Vector2d)
    (camera_idxs1 camera_idxs2 : list nat) (cams_from_rig : list Rigid3d)
    (cameras : list Camera) (r : bool * Outputs) :
  EstimateGeneralizedRelativePose ransac_options points2D1 points2D2
    camera_idxs1 camera_idxs2 cams_from_rig cameras = Returned r ->
  length points2D1 = length points2D2 /\
  cameras <> [] /\
  length cams_from_rig = length cameras /\
  camera_idxs1 <> [] /\ camera_idxs2 <> [] /\
  Forall (fun c => c < length cameras) camera_idxs1 /\
  Forall (fun c => c < length cameras) camera_idxs2 /\
  RANSACOptions_Check ransac_options = true /\
  length points2D1 <= length camera_idxs1 /\
  length points2D2 <= length camera_idxs2.
Proof.
  destruct r as [ok out]. intros Hcall.
  apply EstimateGeneralizedRelativePose_Returned_full in Hcall
    as (Hlen & H1 & H2 & Hcheck & Hbody).
  apply ThrowCheckCameras_Returned in H1 as (? & ? & ? & ?).
  apply ThrowCheckCameras_Returned in H2 as (_ & _ & ? & ?).
  repeat (split; [done|]). rewrite <- Hlen.
  destruct (decide (length points2D1 = 0)) as [->|Hpos]; [lia|].
  assert (Hlast : seq 0 (length points2D1) !! (length points2D1 - 1)
                  = Some (length points2D1 - 1)).
  { apply lookup_seq. lia. }
  destruct Hbody as [[Hzero _]|[[_ (rays & Hrays & _)]|[_ (points & Hpoints & _)]]];
    [done| |].
  - apply mapM_Returned_inv in Hrays.
    destruct (Forall2_lookup_l _ _ _ _ _ Hrays Hlast) as (rr & _ & Hrr).
    apply bind_Returned_inv in Hrr as (r1 & Hr1 & Hrr).
    apply bind_Returned_inv in Hrr as (r2 & Hr2 & _).
    apply pano_ray_Returned_inv in Hr1 as (c1 & _ & _ & Hc1 & _).
    apply pano_ray_Returned_inv in Hr2 as (c2 & _ & _ & Hc2 & _).
    apply lookup_lt_Some in Hc1, Hc2. lia.
  - apply mapM_Returned_inv in Hpoints.
    destruct (Forall2_lookup_l _ _ _ _ _ Hpoints Hlast) as (pp & _ & Hpp).
    apply bind_Returned_inv in Hpp as (p1 & Hp1 & Hpp).
    apply bind_Returned_inv in Hpp as (p2 & Hp2 & _).
    apply rig_observation_Returned_inv in Hp1 as (c1 & _ & _ & _ & Hc1 & _).
    apply rig_observation_Returned_inv in Hp2 as (c2 & _ & _ & _ & Hc2 & _).
    apply lookup_lt_Some in Hc1, Hc2. lia.
Qed.

Lemma EstimateGeneralizedRelativePose_returns_only_if_witness :
  length one_pixel = length one_pixel /\
  focal10 <> [] /\
  length [AcceptAll.identity] = length focal10 /\
  [0; 0] <> [] /\ [0] <> [] /\
  Forall (fun c => c < length focal10) [0; 0] /\
  Forall (fun c => c < length focal10) [0] /\
  RANSACOptions_Check (Consensus:=AcceptAll.consensus) default_options = true /\
  length one_pixel <= length [0; 0] /\
  length one_pixel <= length [0].
Proof.
  apply (EstimateGeneralizedRelativePose_returns_only_if
           (Eigen:=Binary64.eigen) (Cam:=SimplePinhole.camera_model)
           (Engine:=AcceptAll.consensus)
           default_options one_pixel one_pixel [0; 0] [0] [AcceptAll.identity] focal10
           (true, MkOutputs None None (Some AcceptAll.identity) (Some 1) (Some [true]))).
  vm_compute. reflexivity.
Defined.

(** A view with fewer camera indices than points passes every check; the
    loop over the points then reads the index array out of range, which is
    not defined, whichever branch is taken. *)
Theorem EstimateGeneralizedRelativePose_too_few_indices
    {Eigen : EigenOps} {Cam : CameraModel} {Engine : Consensus}
    (ransac_options : RANSACOptions) (points2D1 points2D2 : list Vector2d)
    (camera_idxs1 camera_idxs2 : list nat) (cams_from_rig : list Rigid3d)
    (cameras : list Camera) :
  length points2D1 = length points2D2 ->
  camera_idxs1 <> [] -> camera_idxs2 <> [] ->
  Forall (fun c => c < length cameras) camera_idxs1 ->
  Forall (fun c => c < length cameras) camera_idxs2 ->
  length cams_from_rig = length cameras ->
  RANSACOptions_Check ransac_options = true ->
  length camera_idxs1 < length points2D1 \/ length camera_idxs2 < length points2D2 ->
  EstimateGeneralizedRelativePose ransac_options points2D1 points2D2
    camera_idxs1 camera_idxs2 cams_from_rig cameras = Undefined.
Proof.
  intros Hpoints Hne1 Hne2 Hrange1 Hrange2 Hcams Hcheck Hfew.
  assert (Hcameras : cameras <> []).
  { intros ->. destruct camera_idxs1 as [|c ?]; [done|].
    inversion Hrange1; subst. simpl in *. lia. }
  unfold EstimateGeneralizedRelativePose.
  rewrite Hpoints, Nat.eqb_refl. simpl.
  rewrite (proj2 (ThrowCheckCameras_Returned camera_idxs1 cams_from_rig cameras)) by done.
  simpl.
  rewrite (proj2 (ThrowCheckCameras_Returned camera_idxs2 cams_from_rig cameras)) by done.
  simpl. rewrite Hcheck. simpl.
  destruct (Nat.eqb_spec (length points2D2) 0) as [Hzero|Hpos]; [lia|].
  rewrite <- Hcams in Hrange1, Hrange2.
  destruct (IsPanoramicRig_Returned camera_idxs1 cams_from_rig Hne1 Hrange1)
    as (f1 & o1 & _ & ->).
  destruct (IsPanoramicRig_Returned camera_idxs2 cams_from_rig Hne2 Hrange2)
    as (f2 & o2 & _ & Hpano2).
  rewrite Hcams in Hrange1, Hrange2. simpl.
  set (pano1 := forallb _ o1).
  assert (Hp2 : exists pano2,
    (if pano1 then IsPanoramicRig camera_idxs2 cams_from_rig else Returned false)
    = Returned pano2).
  { destruct pano1; [rewrite Hpano2|]; by eexists. }
  destruct Hp2 as [pano2 ->]. simpl.
  set (k := length camera_idxs1 `min` length camera_idxs2).
  assert (Hk : seq 0 (length points2D2) !! k = Some k).
  { apply lookup_seq. unfold k. lia. }
  assert (Hseq : forall j a, seq 0 (length points2D2) !! j = Some a -> a = j).
  { intros j a Hj. apply lookup_seq in Hj. lia. }
  destruct (pano1 && pano2).
  - rewrite (mapM_Undefined _ _ k k Hk); [done| |].
    + destruct (decide (length camera_idxs1 <= length camera_idxs2)).
      * rewrite (pano_ray_Undefined points2D1 camera_idxs1); [done|unfold k; lia].
      * destruct (pano_ray_Returned points2D1 camera_idxs1 cams_from_rig cameras k)
          as [r1 ->]; try done; try (unfold k; lia).
        simpl.
        rewrite (pano_ray_Undefined points2D2 camera_idxs2); [done|unfold k; lia].
    + intros j a Hj Ha. apply Hseq in Ha as ->.
      destruct (pano_ray_Returned points2D1 camera_idxs1 cams_from_rig cameras j)
        as [r1 ->]; try done; try (unfold k in Hj; lia).
      destruct (pano_ray_Returned points2D2 camera_idxs2 cams_from_rig cameras j)
        as [r2 ->]; try done; try (unfold k in Hj; lia).
      by eexists.
  - rewrite (mapM_Undefined _ _ k k Hk); [done| |].
    + destruct (decide (length camera_idxs1 <= length camera_idxs2)).
      * rewrite (rig_observation_Undefined points2D1 camera_idxs1);
          [done|unfold k; lia].
      * destruct (rig_observation_Returned points2D1 camera_idxs1 cams_from_rig cameras k)
          as [r1 ->]; try done; try (unfold k; lia).
        simpl.
        rewrite (rig_observation_Undefined points2D2 camera_idxs2);
          [done|unfold k; lia].
    + intros j a Hj Ha. apply Hseq in Ha as ->.
      destruct (rig_observation_Returned points2D1 camera_idxs1 cams_from_rig cameras j)
        as [r1 ->]; try done; try (unfold k in Hj; lia).
      destruct (rig_observation_Returned points2D2 camera_idxs2 cams_from_rig cameras j)
        as [r2 ->]; try done; try (unfold k in Hj; lia).
      by eexists.
Qed.

Lemma EstimateGeneralizedRelativePose_too_few_indices_witness :
  EstimateGeneralizedRelativePose
    (Eigen:=Binary64.eigen) (Cam:=SimplePinhole.camera_model)
    (Engine:=AcceptAll.consensus)
    default_options two_pixels two_pixels [0] [0; 0] [AcceptAll.identity] focal10
  = Undefined.
Proof.
  apply (EstimateGeneralizedRelativePose_too_few_indices
           (Eigen:=Binary64.eigen) (Cam:=SimplePinhole.camera_model)
           (Engine:=AcceptAll.consensus)
           default_options two_pixels two_pixels [0] [0; 0] [AcceptAll.identity] focal10);
    try done; try (repeat constructor); simpl; lia.
Defined.

(** In the panoramic branch [EstimateRelativePose] is given one ray per
    correspondence and view, in order: the ray of the pixel through the
    correspondence's camera turned by the inverse of that camera's rotation,
    or the zero vector, not turned, when the camera gives no point.  The
    value returned is the one [EstimateRelativePose] returns, and the inlier
    count and mask are what it stored, also when it fails; the function
    itself stores the pose alone, on success. *)
Theorem EstimateGeneralizedRelativePose_panoramic_rays
    {Eigen : EigenOps} {Cam : CameraModel} {Engine : Consensus}
    (ransac_options : RANSACOptions) (points2D1 points2D2 : list Vector2d)
    (camera_idxs1 camera_idxs2 : list nat) (cams_from_rig : list Rigid3d)
    (cameras : list Camera) (ok : bool) (out : Outputs) :
  EstimateGeneralizedRelativePose ransac_options points2D1 points2D2
    camera_idxs1 camera_idxs2 cams_from_rig cameras = Returned (ok, out) ->
  points2D1 <> [] ->
  both_panoramic camera_idxs1 camera_idxs2 cams_from_rig ->
  exists cam_rays1 cam_rays2,
    length cam_rays1 = length points2D1 /\ length cam_rays2 = length points2D2 /\
    (forall i c camera point2D cam,
       camera_idxs1 !! i = Some c -> cameras !! c = Some camera ->
       points2D1 !! i = Some point2D -> cams_from_rig !! c = Some cam ->
       cam_rays1 !! i =
       Some match CamFromImg camera point2D with
            | Some cam_point =>
                rotate (inverse (rotation cam)) (homogeneous_normalized cam_point)
            | None => Vec3 0 0 0
            end) /\
    (forall i c camera point2D cam,
       camera_idxs2 !! i = Some c -> cameras !! c = Some camera ->
       points2D2 !! i = Some point2D -> cams_from_rig !! c = Some cam ->
       cam_rays2 !! i =
       Some match CamFromImg camera point2D with
            | Some cam_point =>
                rotate (inverse (rotation cam)) (homogeneous_normalized cam_point)
            | None => Vec3 0 0 0
            end) /\
    let result := EstimateRelativePose ransac_options cam_rays1 cam_rays2 in
    ok = result.1.1.1 /\
    out = MkOutputs None None (if ok then Some result.1.1.2 else None)
            result.1.2 result.2.
Proof.
  intros Hcall Hne Hboth.
  apply EstimateGeneralizedRelativePose_Returned_full in Hcall
    as (Hlen & _ & _ & _ & Hbody).
  destruct Hbody as [[Hzero _]|[[_ (rays & Hrays & Hfull)]|[Hnot _]]];
    [by destruct points2D1| |done].
  exists (rays.*1), (rays.*2).
  apply mapM_Returned_inv in Hrays.
  pose proof (Forall2_length _ _ _ Hrays) as Hlength. rewrite length_seq in Hlength.
  rewrite !length_fmap, <- Hlen, <- Hlength.
  split; [done|]. split; [done|].
  assert (Hat : forall i, i < length points2D1 ->
    exists r1 r2, rays !! i = Some (r1, r2) /\
      pano_ray points2D1 camera_idxs1 cams_from_rig cameras i = Returned r1 /\
      pano_ray points2D2 camera_idxs2 cams_from_rig cameras i = Returned r2).
  { intros i Hi.
    destruct (Forall2_lookup_l _ _ _ i i Hrays) as ([r1 r2] & Hr & Hrr).
    { apply lookup_seq. lia. }
    apply bind_Returned_inv in Hrr as (r1' & Hr1 & Hrr).
    apply bind_Returned_inv in Hrr as (r2' & Hr2 & Hrr).
    injection Hrr as <- <-. by exists r1', r2'. }
  split; [|split].
  - intros i c camera point2D cam Hc Hcamera Hpoint Hcam.
    destruct (Hat i) as (r1 & r2 & Hr & Hr1 & _); [by eapply lookup_lt_Some|].
    rewrite list_lookup_fmap, Hr. simpl. f_equal.
    apply pano_ray_Returned_inv in Hr1 as (c' & camera' & p' & Hc' & Hcamera' & Hp' & Hr1).
    rewrite Hc in Hc'. injection Hc' as <-.
    rewrite Hcamera in Hcamera'. injection Hcamera' as <-.
    rewrite Hpoint in Hp'. injection Hp' as <-.
    destruct (CamFromImg camera point2D); [|done].
    destruct Hr1 as (cam' & Hcam' & ->). rewrite Hcam in Hcam'. by injection Hcam' as <-.
  - intros i c camera point2D cam Hc Hcamera Hpoint Hcam.
    destruct (Hat i) as (r1 & r2 & Hr & _ & Hr2).
    { rewrite Hlen. by eapply lookup_lt_Some. }
    rewrite list_lookup_fmap, Hr. simpl. f_equal.
    apply pano_ray_Returned_inv in Hr2 as (c' & camera' & p' & Hc' & Hcamera' & Hp' & Hr2).
    rewrite Hc in Hc'. injection Hc' as <-.
    rewrite Hcamera in Hcamera'. injection Hcamera' as <-.
    rewrite Hpoint in Hp'. injection Hp' as <-.
    destruct (CamFromImg camera point2D); [|done].
    destruct Hr2 as (cam' & Hcam' & ->). rewrite Hcam in Hcam'. by injection Hcam' as <-.
  - simpl. destruct (EstimateRelativePose _ _ _) as [[[ok' c] n] mask].
    destruct Hfull as [-> ->]. done.
Qed.

Lemma EstimateGeneralizedRelativePose_panoramic_rays_witness :
  let out := MkOutputs None None (Some AcceptAll.identity) (Some 1) (Some [true]) in
  exists cam_rays1 cam_rays2,
    length cam_rays1 = length one_pixel /\ length cam_rays2 = length one_pixel /\
    (forall i c camera point2D cam,
       [0] !! i = Some c -> focal10 !! c = Some camera ->
       one_pixel !! i = Some point2D -> [AcceptAll.identity] !! c = Some cam ->
       cam_rays1 !! i =
       Some match CamFromImg (CameraModel:=SimplePinhole.camera_model)
                    camera point2D with
            | Some cam_point =>
                rotate (EigenOps:=Binary64.eigen)
                  (inverse (EigenOps:=Binary64.eigen) (rotation cam))
                  (homogeneous_normalized (EigenOps:=Binary64.eigen) cam_point)
            | None => Vec3 0 0 0
            end) /\
    (forall i c camera point2D cam,
       [0] !! i = Some c -> focal10 !! c = Some camera ->
       one_pixel !! i = Some point2D -> [AcceptAll.identity] !! c = Some cam ->
       cam_rays2 !! i =
       Some match CamFromImg (CameraModel:=SimplePinhole.camera_model)
                    camera point2D with
            | Some cam_point =>
                rotate (EigenOps:=Binary64.eigen)
                  (inverse (EigenOps:=Binary64.eigen) (rotation cam))
                  (homogeneous_normalized (EigenOps:=Binary64.eigen) cam_point)
            | None => Vec3 0 0 0
            end) /\
    let result :=
      EstimateRelativePose (Consensus:=AcceptAll.consensus)
        default_options cam_rays1 cam_rays2 in
    true = result.1.1.1 /\
    out = MkOutputs None None (if true then Some result.1.1.2 else None)
            result.1.2 result.2.
Proof.
  apply (EstimateGeneralizedRelativePose_panoramic_rays
           (Eigen:=Binary64.eigen) (Cam:=SimplePinhole.camera_model)
           (Engine:=AcceptAll.consensus)
           default_options one_pixel one_pixel [0] [0] [AcceptAll.identity] focal10).
  - vm_compute. reflexivity.
  - discriminate.
  - split; vm_compute; reflexivity.
Defined.

(** Outside the panoramic branch the engine is given, for each view, one
    observation per correspondence, in order: the ray of the pixel through
    the correspondence's camera, or the zero vector when the camera gives no
    point, with the extrinsic of that camera. *)
Theorem EstimateGeneralizedRelativePose_observations
    {Eigen : EigenOps} {Cam : CameraModel} {Engine : Consensus}
    (ransac_options : RANSACOptions) (points2D1 points2D2 : list Vector2d)
    (camera_idxs1 camera_idxs2 : list nat) (cams_from_rig : list Rigid3d)
    (cameras : list Camera) (ok : bool) (out : Outputs) :
  EstimateGeneralizedRelativePose ransac_options points2D1 points2D2
    camera_idxs1 camera_idxs2 cams_from_rig cameras = Returned (ok, out) ->
  points2D1 <> [] ->
  ~ both_panoramic camera_idxs1 camera_idxs2 cams_from_rig ->
  exists points1 points2,
    length points1 = length points2D1 /\ length points2 = length points2D2 /\
    (forall i c camera point2D cam,
       camera_idxs1 !! i = Some c -> cameras !! c = Some camera ->
       points2D1 !! i = Some point2D -> cams_from_rig !! c = Some cam ->
       points1 !! i =
       Some (MkRigObservation
               match CamFromImg camera point2D with
               | Some cam_point => homogeneous_normalized cam_point
               | None => Vec3 0 0 0
               end cam)) /\
    (forall i c camera point2D cam,
       camera_idxs2 !! i = Some c -> cameras !! c = Some camera ->
       points2D2 !! i = Some point2D -> cams_from_rig !! c = Some cam ->
       points2 !! i =
       Some (MkRigObservation
               match CamFromImg camera point2D with
               | Some cam_point => homogeneous_normalized cam_point
               | None => Vec3 0 0 0
               end cam)) /\
    ok = success (LORANSAC_GR6P_GR8P_Estimate ransac_options points1 points2) /\
    (ok = false -> out = no_output).
Proof.
  intros Hcall Hne Hnot.
  apply EstimateGeneralizedRelativePose_Returned_full in Hcall
    as (Hlen & _ & _ & _ & Hbody).
  destruct Hbody as [[Hzero _]|[[Hboth _]|[_ (points & Hpoints & Hfull)]]];
    [by destruct points2D1|done|].
  exists (points.*1), (points.*2).
  apply mapM_Returned_inv in Hpoints.
  pose proof (Forall2_length _ _ _ Hpoints) as Hlength. rewrite length_seq in Hlength.
  rewrite !length_fmap, <- Hlen, <- Hlength.
  split; [done|]. split; [done|].
  assert (Hat : forall i, i < length points2D1 ->
    exists p1 p2, points !! i = Some (p1, p2) /\
      rig_observation points2D1 camera_idxs1 cams_from_rig cameras i = Returned p1 /\
      rig_observation points2D2 camera_idxs2 cams_from_rig cameras i = Returned p2).
  { intros i Hi.
    destruct (Forall2_lookup_l _ _ _ i i Hpoints) as ([p1 p2] & Hp & Hpp).
    { apply lookup_seq. lia. }
    apply bind_Returned_inv in Hpp as (p1' & Hp1 & Hpp).
    apply bind_Returned_inv in Hpp as (p2' & Hp2 & Hpp).
    injection Hpp as <- <-. by exists p1', p2'. }
  split; [|split].
  - intros i c camera point2D cam Hc Hcamera Hpoint Hcam.
    destruct (Hat i) as (p1 & p2 & Hp & Hp1 & _); [by eapply lookup_lt_Some|].
    rewrite list_lookup_fmap, Hp. simpl. f_equal.
    apply rig_observation_Returned_inv in Hp1
      as (c' & camera' & p' & cam' & Hc' & Hcamera' & Hp' & Hcam' & ->).
    rewrite Hc in Hc'. injection Hc' as <-.
    rewrite Hcamera in Hcamera'. injection Hcamera' as <-.
    rewrite Hpoint in Hp'. injection Hp' as <-.
    rewrite Hcam in Hcam'. by injection Hcam' as <-.
  - intros i c camera point2D cam Hc Hcamera Hpoint Hcam.
    destruct (Hat i) as (p1 & p2 & Hp & _ & Hp2).
    { rewrite Hlen. by eapply lookup_lt_Some. }
    rewrite list_lookup_fmap, Hp. simpl. f_equal.
    apply rig_observation_Returned_inv in Hp2
      as (c' & camera' & p' & cam' & Hc' & Hcamera' & Hp' & Hcam' & ->).
    rewrite Hc in Hc'. injection Hc' as <-.
    rewrite Hcamera in Hcamera'. injection Hcamera' as <-.
    rewrite Hpoint in Hp'. injection Hp' as <-.
    rewrite Hcam in Hcam'. by injection Hcam' as <-.
  - simpl in Hfull. destruct Hfull as [-> ->]. split; [done|]. by intros ->.
Qed.

Lemma EstimateGeneralizedRelativePose_observations_witness :
  let out := MkOutputs None (Some AcceptAll.identity) None (Some 6)
               (Some (replicate 6 true)) in
  exists points1 points2,
    length points1 = length six_pixels /\ length points2 = length six_pixels /\
    (forall i c camera point2D cam,
       [0; 1; 0; 1; 0; 1] !! i = Some c -> two_cameras !! c = Some camera ->
       six_pixels !! i = Some point2D -> apart !! c = Some cam ->
       points1 !! i =
       Some (MkRigObservation
               match CamFromImg (CameraModel:=SimplePinhole.camera_model)
                       camera point2D with
               | Some cam_point =>
                   homogeneous_normalized (EigenOps:=Binary64.eigen) cam_point
               | None => Vec3 0 0 0
               end cam)) /\
    (forall i c camera point2D cam,
       [0; 1; 0; 1; 0; 1] !! i = Some c -> two_cameras !! c = Some camera ->
       six_pixels !! i = Some point2D -> apart !! c = Some cam ->
       points2 !! i =
       Some (MkRigObservation
               match CamFromImg (CameraModel:=SimplePinhole.camera_model)
                       camera point2D with
               | Some cam_point =>
                   homogeneous_normalized (EigenOps:=Binary64.eigen) cam_point
               | None => Vec3 0 0 0
               end cam)) /\
    true = success (LORANSAC_GR6P_GR8P_Estimate (Consensus:=AcceptAll.consensus)
                      default_options points1 points2) /\
    (true = false -> out = no_output).
Proof.
  apply (EstimateGeneralizedRelativePose_observations
           (Eigen:=Binary64.eigen) (Cam:=SimplePinhole.camera_model)
           (Engine:=AcceptAll.consensus)
           default_options six_pixels six_pixels
           [0; 1; 0; 1; 0; 1] [0; 1; 0; 1; 0; 1] apart two_cameras).
  - vm_compute. reflexivity.
  - discriminate.
  - intros [Hpano _]. vm_compute in Hpano. discriminate.
Defined.

(** ** [LowerVector3d] and the order of binary64 *)

Lemma SFcompare_key f1 f2 :
  match SpecFloat.SFcompare f1 f2 with
  | Some Lt => exists k1 k2, sf_key f1 = Some k1 /\ sf_key f2 = Some k2 /\ key_lt k1 k2
  | Some Eq => exists k, sf_key f1 = Some k /\ sf_key f2 = Some k
  | Some Gt => exists k1 k2, sf_key f1 = Some k1 /\ sf_key f2 = Some k2 /\ key_lt k2 k1
  | None => sf_key f1 = None \/ sf_key f2 = None
  end.
Proof.
  destruct f1 as [s1|s1| |s1 m1 e1], f2 as [s2|s2| |s2 m2 e2]; simpl;
    try (by left); try (by right);
    try (by eexists; split);
    try (destruct s1); try (destruct s2); simpl;
    try (by eexists; split);
    try (by eexists _, _; split; [done|]; split; [done|]; unfold key_lt; simpl; lia).
  - destruct (Z.compare_spec e1 e2) as [->|Hlt|Hlt].
    + rewrite Pos.compare_cont_spec. simpl.
      destruct (Pos.compare_spec m1 m2) as [->|Hm|Hm]; simpl.
      * by eexists.
      * eexists _, _; split; [done|]; split; [done|]; unfold key_lt; simpl; lia.
      * eexists _, _; split; [done|]; split; [done|]; unfold key_lt; simpl; lia.
    + eexists _, _; split; [done|]; split; [done|]; unfold key_lt; simpl; lia.
    + eexists _, _; split; [done|]; split; [done|]; unfold key_lt; simpl; lia.
  - destruct (Z.compare_spec e1 e2) as [->|Hlt|Hlt].
    + rewrite Pos.compare_cont_spec. simpl.
      destruct (Pos.compare_spec m1 m2) as [->|Hm|Hm]; simpl.
      * by eexists.
      * eexists _, _; split; [done|]; split; [done|]; unfold key_lt; simpl; lia.
      * eexists _, _; split; [done|]; split; [done|]; unfold key_lt; simpl; lia.
    + eexists _, _; split; [done|]; split; [done|]; unfold key_lt; simpl; lia.
    + eexists _, _; split; [done|]; split; [done|]; unfold key_lt; simpl; lia.
Qed.

Lemma key_lt_irrefl k : ~ key_lt k k.
Proof. unfold key_lt. lia. Qed.

Lemma key_lt_trans k1 k2 k3 : key_lt k1 k2 -> key_lt k2 k3 -> key_lt k1 k3.
Proof. unfold key_lt. lia. Qed.

Lemma key_lt_total k1 k2 : key_lt k1 k2 \/ k1 = k2 \/ key_lt k2 k1.
Proof.
  destruct k1 as [[t1 a1] b1], k2 as [[t2 a2] b2]. unfold key_lt. simpl.
  destruct (Z.lt_trichotomy t1 t2) as [?|[->|?]]; [lia| |lia].
  destruct (Z.lt_trichotomy a1 a2) as [?|[->|?]]; [lia| |lia].
  destruct (Z.lt_trichotomy b1 b2) as [?|[->|?]]; [lia| |lia].
  right. by left.
Qed.

Lemma float_ltb_key (a b : float) :
  (a <? b)%float = true <->
  exists k1 k2, float_key a = Some k1 /\ float_key b = Some k2 /\ key_lt k1 k2.
Proof.
  rewrite FloatAxioms.ltb_spec. unfold SpecFloat.SFltb, float_key.
  pose proof (SFcompare_key (FloatOps.Prim2SF a) (FloatOps.Prim2SF b)) as Hkey.
  destruct (SpecFloat.SFcompare _ _) as [[| |]|]; split; try done.
  - intros (k1 & k2 & H1 & H2 & Hlt). destruct Hkey as (k & H1' & H2').
    simplify_eq. by apply key_lt_irrefl in Hlt.
  - intros (k1 & k2 & H1 & H2 & Hlt). destruct Hkey as (k1' & k2' & H1' & H2' & Hgt).
    simplify_eq. destruct (key_lt_irrefl _ (key_lt_trans _ _ _ Hlt Hgt)).
  - intros (k1 & k2 & H1 & H2 & Hlt). destruct Hkey as [Hkey|Hkey]; congruence.
Qed.

Lemma float_eqb_key (a b : float) :
  (a =? b)%float = true <-> exists k, float_key a = Some k /\ float_key b = Some k.
Proof.
  rewrite FloatAxioms.eqb_spec. unfold SpecFloat.SFeqb, float_key.
  pose proof (SFcompare_key (FloatOps.Prim2SF a) (FloatOps.Prim2SF b)) as Hkey.
  destruct (SpecFloat.SFcompare _ _) as [[| |]|]; split; try done.
  - intros (k & H1 & H2). destruct Hkey as (k1 & k2 & H1' & H2' & Hlt).
    simplify_eq. by apply key_lt_irrefl in Hlt.
  - intros (k & H1 & H2). destruct Hkey as (k1 & k2 & H1' & H2' & Hlt).
    simplify_eq. by apply key_lt_irrefl in Hlt.
  - intros (k & H1 & H2). destruct Hkey as [Hkey|Hkey]; congruence.
Qed.

Lemma float_ltb_irrefl a : (a <? a)%float = false.
Proof.
  apply not_true_is_false. rewrite float_ltb_key.
  intros (k1 & k2 & H1 & H2 & Hlt). simplify_eq. by apply key_lt_irrefl in Hlt.
Qed.

Lemma float_ltb_trans a b c :
  (a <? b)%float = true -> (b <? c)%float = true -> (a <? c)%float = true.
Proof.
  rewrite !float_ltb_key.
  intros (k1 & k2 & H1 & H2 & Hlt) (k2' & k3 & H2' & H3 & Hlt'). simplify_eq.
  eauto 8 using key_lt_trans.
Qed.

Lemma float_ltb_eqb a b c :
  (a <? b)%float = true -> (b =? c)%float = true -> (a <? c)%float = true.
Proof.
  rewrite !float_ltb_key, float_eqb_key.
  intros (k1 & k2 & H1 & H2 & Hlt) (k & H2' & H3). simplify_eq. eauto 8.
Qed.

Lemma float_eqb_ltb a b c :
  (a =? b)%float = true -> (b <? c)%float = true -> (a <? c)%float = true.
Proof.
  rewrite !float_ltb_key, float_eqb_key.
  intros (k & H1 & H2) (k2 & k3 & H2' & H3 & Hlt). simplify_eq. eauto 8.
Qed.

Lemma float_eqb_trans a b c :
  (a =? b)%float = true -> (b =? c)%float = true -> (a =? c)%float = true.
Proof.
  rewrite !float_eqb_key.
  intros (k & H1 & H2) (k' & H2' & H3). simplify_eq. eauto.
Qed.

Lemma float_eqb_sym a b : (a =? b)%float = true -> (b =? a)%float = true.
Proof. rewrite !float_eqb_key. intros (k & H1 & H2). by exists k. Qed.

Lemma float_trichotomy a b :
  (a =? a)%float = true -> (b =? b)%float = true ->
  (a <? b)%float = true \/ (a =? b)%float = true \/ (b <? a)%float = true.
Proof.
  rewrite !float_ltb_key, !float_eqb_key.
  intros (ka & Ha & _) (kb & Hb & _).
  destruct (key_lt_total ka kb) as [Hlt|[->|Hlt]].
  - left. by exists ka, kb.
  - right. left. by exists kb.
  - right. right. by exists kb, ka.
Qed.

Lemma LowerVector3d_true v1 v2 :
  LowerVector3d v1 v2 = true <->
  (x v1 <? x v2)%float = true \/
  ((x v1 =? x v2)%float = true /\
   ((y v1 <? y v2)%float = true \/
    ((y v1 =? y v2)%float = true /\ (z v1 <? z v2)%float = true))).
Proof.
  unfold LowerVector3d.
  destruct (x v1 <? x v2)%float eqn:Hx; [by split; [left|]|].
  destruct (x v1 =? x v2)%float eqn:Ex; [|by split; [|intros [|[]]]].
  destruct (y v1 <? y v2)%float eqn:Hy; [by split; [right; split; [|left]|]|].
  destruct (y v1 =? y v2)%float eqn:Ey.
  - split; [by right; split; [|right]|]. by intros [|[_ [|[_ ?]]]].
  - split; [done|]. by intros [|[_ [|[]]]].
Qed.

Lemma LowerVector3d_irrefl v : LowerVector3d v v = false.
Proof.
  apply not_true_is_false. rewrite LowerVector3d_true, !float_ltb_irrefl.
  by intros [|[_ [|[_ ?]]]].
Qed.

Lemma LowerVector3d_trans v1 v2 v3 :
  LowerVector3d v1 v2 = true -> LowerVector3d v2 v3 = true ->
  LowerVector3d v1 v3 = true.
Proof.
  rewrite !LowerVector3d_true.
  intros [H1|[E1 [H1|[E1' H1]]]] [H2|[E2 [H2|[E2' H2]]]];
    eauto 8 using float_ltb_trans, float_ltb_eqb, float_eqb_ltb, float_eqb_trans.
Qed.

Lemma LowerVector3d_asym v1 v2 :
  LowerVector3d v1 v2 = true -> LowerVector3d v2 v1 = false.
Proof.
  intros H12. apply not_true_is_false. intros H21.
  pose proof (LowerVector3d_trans _ _ _ H12 H21) as Hrefl.
  by rewrite LowerVector3d_irrefl in Hrefl.
Qed.

(** [LowerVector3d] is a strict partial order on all vectors, NaN
    coordinates included: no vector is lower than itself, of two vectors at
    most one is lower than the other, and lower is transitive. *)
Theorem LowerVector3d_strict_order :
  (forall v, LowerVector3d v v = false) /\
  (forall v1 v2, LowerVector3d v1 v2 = true -> LowerVector3d v2 v1 = false) /\
  (forall v1 v2 v3,
     LowerVector3d v1 v2 = true -> LowerVector3d v2 v3 = true ->
     LowerVector3d v1 v3 = true).
Proof.
  split; [exact LowerVector3d_irrefl|].
  split; [exact LowerVector3d_asym|exact LowerVector3d_trans].
Qed.

(** On vectors without a NaN coordinate [LowerVector3d] is the lexicographic
    order of the coordinates: two vectors are incomparable exactly when
    their coordinates are equal under [==], so that being incomparable is
    transitive there and the comparator is the strict weak order that
    [std::sort] asks for. *)
Theorem LowerVector3d_lexicographic (v1 v2 : Vector3d) :
  no_nan v1 = true -> no_nan v2 = true ->
  (incomparable v1 v2 = true <->
   (x v1 =? x v2)%float = true /\ (y v1 =? y v2)%float = true /\
   (z v1 =? z v2)%float = true) /\
  (forall v3, no_nan v3 = true ->
     incomparable v1 v2 = true -> incomparable v2 v3 = true ->
     incomparable v1 v3 = true).
Proof.
  assert (Hinc : forall a b, no_nan a = true -> no_nan b = true ->
    (incomparable a b = true <->
     (x a =? x b)%float = true /\ (y a =? y b)%float = true /\
     (z a =? z b)%float = true)).
  { intros a b Ha Hb. unfold no_nan in Ha, Hb.
    apply andb_true_iff in Ha as [Ha Haz]. apply andb_true_iff in Ha as [Hax Hay].
    apply andb_true_iff in Hb as [Hb Hbz]. apply andb_true_iff in Hb as [Hbx Hby].
    unfold incomparable. rewrite andb_true_iff, !negb_true_iff. split.
    - intros [Hab Hba].
      apply not_true_iff_false in Hab, Hba. rewrite LowerVector3d_true in Hab, Hba.
      destruct (float_trichotomy _ _ Hax Hbx) as [?|[Ex|?]]; [tauto| |tauto].
      pose proof (float_eqb_sym _ _ Ex) as Ex'.
      destruct (float_trichotomy _ _ Hay Hby) as [?|[Ey|?]]; [tauto| |tauto].
      pose proof (float_eqb_sym _ _ Ey) as Ey'.
      destruct (float_trichotomy _ _ Haz Hbz) as [?|[Ez|?]]; tauto.
    - intros (Ex & Ey & Ez).
      assert (Hlt : forall p q : float, (p =? q)%float = true -> (p <? q)%float = false).
      { intros p q E. apply not_true_is_false. intros Hlt.
        pose proof (float_ltb_eqb _ _ _ Hlt (float_eqb_sym _ _ E)) as Hpp.
        by rewrite float_ltb_irrefl in Hpp. }
      split; apply not_true_is_false; rewrite LowerVector3d_true.
      + rewrite (Hlt _ _ Ex), (Hlt _ _ Ey), (Hlt _ _ Ez). by intros [|[_ [|[_ ?]]]].
      + rewrite (Hlt _ _ (float_eqb_sym _ _ Ex)), (Hlt _ _ (float_eqb_sym _ _ Ey)),
          (Hlt _ _ (float_eqb_sym _ _ Ez)). by intros [|[_ [|[_ ?]]]]. }
  intros H1 H2. split; [by apply Hinc|].
  intros v3 H3. rewrite !Hinc by done.
  intros (Ex & Ey & Ez) (Ex' & Ey' & Ez').
  repeat split; by eapply float_eqb_trans.
Qed.

Lemma LowerVector3d_lexicographic_witness :
  (incomparable (Vec3 0 1 2) (Vec3 (-0) 1 2) = true <->
   (0 =? -0)%float = true /\ (1 =? 1)%float = true /\ (2 =? 2)%float = true) /\
  (forall v3, no_nan v3 = true ->
     incomparable (Vec3 0 1 2) (Vec3 (-0) 1 2) = true ->
     incomparable (Vec3 (-0) 1 2) v3 = true ->
     incomparable (Vec3 0 1 2) v3 = true).
Proof.
  apply (LowerVector3d_lexicographic (Vec3 0 1 2) (Vec3 (-0) 1 2));
    vm_compute; reflexivity.
Defined.

(** With a NaN coordinate being incomparable is not transitive: a vector
    with a NaN first coordinate is incomparable with every vector, also with
    two of which one is lower than the other.  [LowerVector3d] is then not
    the strict weak order that [std::sort] asks for. *)
Theorem LowerVector3d_nan_incomparable (v v1 v2 : Vector3d) :
  (x v =? x v)%float = false ->
  incomparable v1 v = true /\ incomparable v v2 = true.
Proof.
  intros Hnan.
  assert (Hlt : forall a, (x v <? a)%float = false /\ (a <? x v)%float = false /\
                          (x v =? a)%float = false /\ (a =? x v)%float = false).
  { intros a. repeat split; apply not_true_is_false.
    - rewrite float_ltb_key. intros (k1 & k2 & H1 & _).
      apply not_true_iff_false in Hnan. apply Hnan. apply float_eqb_key. by exists k1.
    - rewrite float_ltb_key. intros (k1 & k2 & _ & H2 & _).
      apply not_true_iff_false in Hnan. apply Hnan. apply float_eqb_key. by exists k2.
    - rewrite float_eqb_key. intros (k & H1 & _).
      apply not_true_iff_false in Hnan. apply Hnan. apply float_eqb_key. by exists k.
    - rewrite float_eqb_key. intros (k & _ & H2).
      apply not_true_iff_false in Hnan. apply Hnan. apply float_eqb_key. by exists k. }
  unfold incomparable, LowerVector3d.
  destruct (Hlt (x v1)) as (-> & -> & -> & ->).
  destruct (Hlt (x v2)) as (-> & -> & -> & ->). done.
Qed.

Lemma LowerVector3d_nan_incomparable_witness :
  incomparable (Vec3 0 0 0) (Vec3 nan 0 0) = true /\
  incomparable (Vec3 nan 0 0) (Vec3 1 0 0) = true.
Proof.
  apply (LowerVector3d_nan_incomparable (Vec3 nan 0 0) (Vec3 0 0 0) (Vec3 1 0 0)).
  vm_compute. reflexivity.
Defined.

(** ** [std::sort] by a strict partial order leaves no inversion *)

Lemma sort_insert_elem_of lt i l k : k ∈ sort_insert lt i l <-> k = i \/ k ∈ l.
Proof. by rewrite sort_insert_Permutation, elem_of_cons. Qed.

Lemma sort_insert_StronglySorted (lt : nat -> nat -> bool) i l :
  (forall a b, lt a b = true -> lt b a = false) ->
  (forall a b c, lt a b = true -> lt b c = true -> lt a c = true) ->
  StronglySorted (fun a b => lt b a = false) l ->
  StronglySorted (fun a b => lt b a = false) (sort_insert lt i l).
Proof.
  intros Hasym Htrans. induction 1 as [|j l Hsorted IH Hj]; simpl.
  - repeat constructor.
  - destruct (lt i j) eqn:Hij.
    + constructor; [by constructor|].
      constructor; [by apply Hasym|].
      eapply Forall_impl; [exact Hj|]. intros k Hk. simpl in Hk.
      apply not_true_is_false. intros Hki.
      by rewrite (Htrans _ _ _ Hki Hij) in Hk.
    + constructor; [done|].
      apply Forall_forall. intros k Hk. apply sort_insert_elem_of in Hk as [->|Hk]; [done|].
      by eapply Forall_forall in Hj.
Qed.

Lemma std_sort_StronglySorted (lt : nat -> nat -> bool) l :
  (forall a b, lt a b = true -> lt b a = false) ->
  (forall a b c, lt a b = true -> lt b c = true -> lt a c = true) ->
  StronglySorted (fun a b => lt b a = false) (std_sort lt l).
Proof.
  intros Hasym Htrans. unfold std_sort.
  assert (Hacc : forall acc,
    StronglySorted (fun a b => lt b a = false) acc ->
    StronglySorted (fun a b => lt b a = false)
      (fold_left (fun acc i => sort_insert lt i acc) l acc)).
  { induction l as [|i l IH]; intros acc Hsorted; simpl; [done|].
    apply IH. by apply sort_insert_StronglySorted. }
  apply Hacc. constructor.
Qed.

Lemma StronglySorted_lookup_lt {A} (R : A -> A -> Prop) (l : list A) :
  StronglySorted R l ->
  forall a b i j, a < b -> l !! a = Some i -> l !! b = Some j -> R i j.
Proof.
  induction 1 as [|k l Hsorted IH Hk]; intros a b i j Hab Ha Hb; [done|].
  destruct b as [|b]; [lia|]. simpl in Hb.
  destruct a as [|a]; simpl in Ha.
  - injection Ha as ->. eapply Forall_forall in Hk; [done|].
    by eapply list_elem_of_lookup_2.
  - apply (IH a b); [lia|done|done].
Qed.

Lemma sorted_point3D_ids_no_inversion points3D a b i j :
  a < b ->
  sorted_point3D_ids points3D !! a = Some i ->
  sorted_point3D_ids points3D !! b = Some j ->
  LowerVector3d (points3D !!! j) (points3D !!! i) = false.
Proof.
  intros Hab Ha Hb.
  pose proof (std_sort_StronglySorted
    (fun i j => LowerVector3d (points3D !!! i) (points3D !!! j))
    (seq 0 (length points3D))
    (fun a b => LowerVector3d_asym _ _)
    (fun a b c => LowerVector3d_trans _ _ _)) as Hsorted.
  by apply (StronglySorted_lookup_lt _ _ Hsorted a b i j).
Qed.

(** For points without a NaN coordinate, where [LowerVector3d] is the order
    [std::sort] asks for: in [point3D_ids] after the sort no later point is
    lower than an earlier one, and the ids follow the order of the points: a
    point lower than another never has the greater id. *)
Theorem ComputeUniquePointIds_order {Eigen : EigenOps} (points3D : list Vector3d) :
  Forall (fun v => no_nan v = true) points3D ->
  (forall a b i j,
     a < b ->
     sorted_point3D_ids points3D !! a = Some i ->
     sorted_point3D_ids points3D !! b = Some j ->
     LowerVector3d (points3D !!! j) (points3D !!! i) = false) /\
  (forall i j,
     i < length points3D -> j < length points3D ->
     LowerVector3d (points3D !!! i) (points3D !!! j) = true ->
     exists id_i id_j,
       ComputeUniquePointIds points3D !! i = Some id_i /\
       ComputeUniquePointIds points3D !! j = Some id_j /\
       id_i <= id_j).
Proof.
  intros _. split; [apply sorted_point3D_ids_no_inversion|].
  intros i j Hi Hj Hlower.
  destruct (sorted_point3D_ids_position points3D i Hi) as [a Ha].
  destruct (sorted_point3D_ids_position points3D j Hj) as [b Hb].
  eexists _, _.
  split; [by apply ComputeUniquePointIds_representative|].
  split; [by apply ComputeUniquePointIds_representative|].
  apply representative_mono.
  destruct (decide (a <= b)) as [|Hba]; [done|].
  rewrite (sorted_point3D_ids_no_inversion points3D b a j i) in Hlower; [done|lia|done|done].
Qed.

Lemma ComputeUniquePointIds_order_witness :
  (forall a b i j,
     a < b ->
     sorted_point3D_ids three_apart !! a = Some i ->
     sorted_point3D_ids three_apart !! b = Some j ->
     LowerVector3d (three_apart !!! j) (three_apart !!! i) = false) /\
  (forall i j,
     i < length three_apart -> j < length three_apart ->
     LowerVector3d (three_apart !!! i) (three_apart !!! j) = true ->
     exists id_i id_j,
       ComputeUniquePointIds (Eigen:=Binary64.eigen) three_apart !! i = Some id_i /\
       ComputeUniquePointIds (Eigen:=Binary64.eigen) three_apart !! j = Some id_j /\
       id_i <= id_j).
Proof.
  apply (ComputeUniquePointIds_order (Eigen:=Binary64.eigen) three_apart).
  repeat constructor.
Defined.

(** ** [RefineGeneralizedAbsolutePose]: the problem that is solved *)

Section RefinementShape.
Context {Cam : CameraModel} {Solver : Ceres}.

Lemma residual_step_shape options inlier_mask points2D camera_idxs cameras k st st' :
  residual_shape options inlier_mask points2D camera_idxs cameras k st ->
  residual_step options inlier_mask points2D camera_idxs cameras st k = Returned st' ->
  residual_shape options inlier_mask points2D camera_idxs cameras (S k) st'.
Proof.
  destruct st as [problem counts].
  intros (Hlen & Hres & Hsome & Hconst & Hman & Hcounts) Hstep.
  unfold residual_step in Hstep.
  apply bind_Returned_inv in Hstep as (inlier & Hinlier & Hstep).
  apply index_Returned_inv in Hinlier.
  destruct inlier; simpl in Hstep.
  - apply bind_Returned_inv in Hstep as (c & Hc & Hstep).
    apply index_Returned_inv in Hc.
    apply bind_Returned_inv in Hstep as (count & Hcount & Hstep).
    apply index_Returned_inv in Hcount.
    apply bind_Returned_inv in Hstep as (camera & Hcamera & Hstep).
    apply at_Returned_inv in Hcamera.
    apply bind_Returned_inv in Hstep as (point2D & Hpoint2D & Hstep).
    apply index_Returned_inv in Hpoint2D.
    injection Hstep as <-. unfold residual_shape. cbn -[seq] in *.
    assert (Hblock :
      inlier_residual_block options inlier_mask points2D camera_idxs cameras k =
      Some (MkResidualBlock (model_id camera) point2D (loss_function_scale options)
              [CamFromRigCopyRotation c; CamFromRigCopyTranslation c;
               RigFromWorldRotation; RigFromWorldTranslation;
               Point3DCopy k; CameraParams c])).
    { unfold inlier_residual_block. rewrite Hinlier, Hc. simpl.
      rewrite Hcamera. simpl. by rewrite Hpoint2D. }
    split; [by rewrite length_insert|].
    split; [by rewrite seq_S, omap_app, Hres; simpl; rewrite Hblock|].
    split.
    { intros i Hi Hin. destruct (decide (i = k)) as [->|Hne]; [by rewrite Hblock|].
      apply Hsome; [lia|done]. }
    split.
    { intros b. rewrite elem_of_cons, Hconst. split.
      - intros [->|(i & Hi & Hin & ->)]; [exists k|exists i]; repeat split; (done || lia).
      - intros (i & Hi & Hin & ->). destruct (decide (i = k)) as [->|Hne]; [by left|].
        right. exists i. repeat split; (done || lia). }
    split; [done|].
    intros c'. destruct (decide (c' = c)) as [->|Hne].
    + rewrite list_lookup_insert_eq by (by eapply lookup_lt_Some). split.
      * intros _. exists k. repeat split; (done || lia).
      * intros _. exists count. f_equal. lia.
    + rewrite list_lookup_insert_ne by done. rewrite Hcounts. split.
      * intros (i & Hi & Hin & Hci). exists i. repeat split; (done || lia).
      * intros (i & Hi & Hin & Hci). exists i.
        destruct (decide (i = k)) as [->|Hik]; [congruence|].
        repeat split; (done || lia).
  - injection Hstep as <-. unfold residual_shape. cbn -[seq] in *.
    assert (Hblock :
      inlier_residual_block options inlier_mask points2D camera_idxs cameras k = None).
    { unfold inlier_residual_block. by rewrite Hinlier. }
    split; [done|].
    split; [by rewrite seq_S, omap_app, Hres; simpl; rewrite Hblock, app_nil_r|].
    split.
    { intros i Hi Hin. destruct (decide (i = k)) as [->|Hne]; [congruence|].
      apply Hsome; [lia|done]. }
    split.
    { intros b. rewrite Hconst. split.
      - intros (i & Hi & Hin & ->). exists i. repeat split; (done || lia).
      - intros (i & Hi & Hin & ->). exists i.
        destruct (decide (i = k)) as [->|Hik]; [congruence|].
        repeat split; (done || lia). }
    split; [done|].
    intros c. rewrite Hcounts. split.
    + intros (i & Hi & Hin & Hci). exists i. repeat split; (done || lia).
    + intros (i & Hi & Hin & Hci). exists i.
      destruct (decide (i = k)) as [->|Hik]; [congruence|].
      repeat split; (done || lia).
Qed.

Lemma camera_step_shape options cameras counts problem0 k problem problem' :
  camera_shape counts problem0 k problem ->
  camera_step options cameras counts problem k = Returned problem' ->
  camera_shape counts problem0 (S k) problem'.
Proof.
  intros (Hres & Hmono & Hconst & Hcopies & Hman) Hstep. unfold camera_step in Hstep.
  apply bind_Returned_inv in Hstep as (count & Hcount & Hstep).
  apply index_Returned_inv in Hcount.
  destruct (Nat.eqb_spec count 0) as [->|Hpos].
  { injection Hstep as <-. unfold camera_shape.
    split; [done|]. split; [done|]. split.
    { intros b Hb. destruct (Hconst b Hb) as [?|(c & n & Hc & Hn & Hbc)]; [by left|].
      right. exists c, n. repeat split; (done || lia). }
    split; [|done].
    intros c n Hc Hn. destruct (decide (c = k)) as [->|Hne]; [congruence|].
    apply (Hcopies c n); [lia|done]. }
  apply bind_Returned_inv in Hstep as (camera & Hcamera & Hstep).
  destruct count as [|n]; [done|].
  assert (Hshape : exists tail manifold',
    constant_blocks problem' =
      tail ++ [CamFromRigCopyTranslation k; CamFromRigCopyRotation k] ++
      constant_blocks problem /\
    (tail = [] \/ tail = [CameraParams k]) /\
    residual_blocks problem' = residual_blocks problem /\
    (manifolds problem' = manifolds problem \/
     manifolds problem' = (CameraParams k, manifold') :: manifolds problem)).
  { destruct (negb (refine_focal_length options) && negb (refine_extra_params options));
      [|destruct (length _ =? length _)]; injection Hstep as <-; simpl.
    - exists [CameraParams k], QuaternionManifold. repeat split; auto.
    - exists [CameraParams k], QuaternionManifold. repeat split; auto.
    - eexists [], _. repeat split; auto. }
  destruct Hshape as (tail & manifold' & Hconst' & Htail & Hres' & Hman').
  unfold camera_shape. split; [congruence|]. rewrite Hconst'. split.
  { intros b Hb. apply elem_of_app. right. do 2 (apply elem_of_cons; right).
    by apply Hmono. }
  split.
  { intros b Hb. apply elem_of_app in Hb as [Hb|Hb].
    - right. exists k, n. split; [lia|]. split; [done|]. right. right.
      destruct Htail as [->| ->]; [by apply elem_of_nil in Hb|].
      apply elem_of_cons in Hb as [->|Hb]; [done|by apply elem_of_nil in Hb].
    - apply elem_of_cons in Hb as [->|Hb].
      { right. exists k, n. split; [lia|]. split; [done|]. right. by left. }
      apply elem_of_cons in Hb as [->|Hb].
      { right. exists k, n. split; [lia|]. split; [done|]. by left. }
      destruct (Hconst b Hb) as [?|(c & n' & Hc & Hn & Hbc)]; [by left|].
      right. exists c, n'. repeat split; (done || lia). }
  split.
  { intros c n' Hc Hn. destruct (decide (c = k)) as [->|Hne].
    - split; apply elem_of_app; right.
      + apply elem_of_cons. right. apply elem_of_cons. by left.
      + apply elem_of_cons. by left.
    - destruct (Hcopies c n') as [Hrot Htrans]; [lia|done|].
      split; apply elem_of_app; right; by do 2 (apply elem_of_cons; right). }
  intros b Hb. rewrite <- (Hman b Hb). unfold manifold_of.
  destruct Hman' as [->| ->]; [done|]. simpl.
  rewrite decide_False; [done|apply Hb].
Qed.

(** The problem that [ceres::Solve] is given, read off both loops. *)
Lemma build_problem_shape options inlier_mask points2D camera_idxs cameras problem :
  build_problem options inlier_mask points2D camera_idxs cameras = Returned problem ->
  let n := length points2D in
  residual_blocks problem =
    omap (inlier_residual_block options inlier_mask points2D camera_idxs cameras)
      (seq 0 n) /\
  (forall i, i < n -> inlier_mask !! i = Some true ->
     is_Some (inlier_residual_block options inlier_mask points2D camera_idxs cameras i)) /\
  (forall b, b ∈ constant_blocks problem ->
     (exists i, i < n /\ inlier_mask !! i = Some true /\ b = Point3DCopy i) \/
     exists c, inlier_on inlier_mask camera_idxs n c /\
       (b = CamFromRigCopyRotation c \/ b = CamFromRigCopyTranslation c \/
        b = CameraParams c)) /\
  (forall i, i < n -> inlier_mask !! i = Some true ->
     Point3DCopy i ∈ constant_blocks problem) /\
  (forall c, inlier_on inlier_mask camera_idxs n c ->
     CamFromRigCopyRotation c ∈ constant_blocks problem /\
     CamFromRigCopyTranslation c ∈ constant_blocks problem) /\
  (forall b, (forall c, b <> CameraParams c) ->
     manifold_of problem b =
     if decide (b = RigFromWorldRotation /\ residual_blocks problem <> [])
     then Some QuaternionManifold else None).
Proof.
  intros Hbuild n. unfold build_problem in Hbuild.
  apply bind_Returned_inv in Hbuild as ([problem1 counts] & Hloop & Hbuild).
  apply (for_loop_seq_invariant _
           (residual_shape options inlier_mask points2D camera_idxs cameras)
           (length points2D) 0 _ _) in Hloop.
  2:{ unfold residual_shape. simpl. rewrite length_replicate.
      split; [done|]. split; [done|]. split; [intros i Hi; lia|].
      split.
      { intros b. split; [by intros Hb%elem_of_nil|]. intros (i & Hi & _). lia. }
      split; [done|]. intros c. split.
      - intros (k & Hk). apply lookup_replicate in Hk as [Hk _]. done.
      - intros (i & Hi & _). lia. }
  2:{ intros k st st' _. apply residual_step_shape. }
  destruct Hloop as (Hlen & Hres & Hsome & Hconst & Hman & Hcounts). simpl in *.
  fold n in Hres, Hsome, Hconst, Hcounts.
  assert (Hinlier : forall c, inlier_on inlier_mask camera_idxs n c ->
                              residual_blocks problem1 <> []).
  { intros c (i & Hi & Hin & _). destruct (Hsome i Hi Hin) as [r Hr].
    assert (Hr' : r ∈ residual_blocks problem1).
    { rewrite Hres. apply list_elem_of_omap. exists i. split; [|done].
      apply elem_of_seq. lia. }
    intros Hnil. rewrite Hnil in Hr'. by apply elem_of_nil in Hr'. }
  destruct (Nat.ltb_spec 0 (NumResiduals problem1)) as [Hpos|Hzero].
  - apply (for_loop_seq_invariant _
             (camera_shape counts (SetQuaternionManifold RigFromWorldRotation problem1))
             (length cameras) 0 _ _) in Hbuild.
    2:{ unfold camera_shape. split; [done|]. split; [done|].
        split; [by left|]. split; [intros c k Hc; lia|done]. }
    2:{ intros k p p' _. apply camera_step_shape. }
    destruct Hbuild as (Hres' & Hmono & Hconst' & Hcopies & Hman'). simpl in *.
    split; [congruence|]. split; [done|]. split.
    { intros b Hb. destruct (Hconst' b Hb) as [Hb0|(c & k & Hc & Hk & Hbc)].
      - left. by apply Hconst.
      - right. exists c. split; [|done]. apply Hcounts. by exists k. }
    split.
    { intros i Hi Hin. apply Hmono, Hconst. by exists i. }
    split.
    { intros c Hc. apply Hcounts in Hc as [k Hk]. apply (Hcopies c k); [|done].
      rewrite <- Hlen. by eapply lookup_lt_Some. }
    intros b Hb. rewrite (Hman' b Hb). unfold manifold_of. simpl. rewrite Hman. simpl.
    rewrite Hres'. simpl.
    assert (Hne : residual_blocks problem1 <> []).
    { unfold NumResiduals in Hpos. destruct (residual_blocks problem1); [simpl in Hpos; lia|done]. }
    destruct (decide (b = RigFromWorldRotation)) as [->|Hb'].
    + by rewrite decide_True.
    + rewrite decide_False; [done|tauto].
  - injection Hbuild as <-.
    assert (Hnil : residual_blocks problem1 = []).
    { unfold NumResiduals in Hzero. destruct (residual_blocks problem1); [done|simpl in Hzero; lia]. }
    split; [done|]. split; [done|]. split.
    { intros b Hb. left. by apply Hconst. }
    split.
    { intros i Hi Hin. apply Hconst. by exists i. }
    split.
    { intros c Hc. by destruct (Hinlier c Hc). }
    intros b Hb. unfold manifold_of. rewrite Hman. simpl.
    rewrite decide_False; [done|]. intros [_ Hne]. done.
Qed.

End RefinementShape.

Lemma elem_of_concat {A} (b : A) (ls : list (list A)) :
  b ∈ concat ls <-> exists l, l ∈ ls /\ b ∈ l.
Proof.
  rewrite list_elem_of_In, in_concat. split.
  - intros (l & Hl & Hb). exists l. by rewrite !list_elem_of_In.
  - intros (l & Hl & Hb). exists l. by rewrite <- !list_elem_of_In.
Qed.

Lemma inlier_residual_block_Some options inlier_mask points2D camera_idxs cameras i r :
  inlier_residual_block options inlier_mask points2D camera_idxs cameras i = Some r <->
  exists c camera point2D,
    inlier_mask !! i = Some true /\ camera_idxs !! i = Some c /\
    cameras !! c = Some camera /\ points2D !! i = Some point2D /\
    r = MkResidualBlock (model_id camera) point2D (loss_function_scale options)
          [CamFromRigCopyRotation c; CamFromRigCopyTranslation c;
           RigFromWorldRotation; RigFromWorldTranslation;
           Point3DCopy i; CameraParams c].
Proof.
  unfold inlier_residual_block. split.
  - destruct (inlier_mask !! i) as [[|]|]; try done. intros Hr.
    apply bind_Some in Hr as (c & Hc & Hr).
    apply bind_Some in Hr as (camera & Hcamera & Hr).
    apply bind_Some in Hr as (point2D & Hpoint2D & Hr).
    injection Hr as <-. by exists c, camera, point2D.
  - intros (c & camera & point2D & -> & -> & Hcamera & Hpoint2D & ->). simpl.
    rewrite Hcamera. simpl. by rewrite Hpoint2D.
Qed.

Section RefinementMore.
Context {Cam : CameraModel} {Solver : Ceres}.

Lemma RefineGeneralizedAbsolutePose_Returned_checks options inlier_mask points2D
    points3D camera_idxs cams_from_rig rig_from_world0 cameras rig_from_world_cov r :
  RefineGeneralizedAbsolutePose options inlier_mask points2D points3D camera_idxs
    cams_from_rig rig_from_world0 cameras rig_from_world_cov = Returned r ->
  length points2D = length inlier_mask /\ length points2D = length points3D /\
  length points2D = length camera_idxs /\ length cams_from_rig = length cameras /\
  camera_idxs <> [] /\ Forall (fun c => c < length cameras) camera_idxs /\
  RefinementOptions_Check options = true.
Proof.
  unfold RefineGeneralizedAbsolutePose. intros Hcall.
  apply bind_Returned_inv in Hcall as (? & Hmask%THROW_CHECK_inv & Hcall).
  apply bind_Returned_inv in Hcall as (? & Hpoints%THROW_CHECK_inv & Hcall).
  apply bind_Returned_inv in Hcall as (? & Hidxs%THROW_CHECK_inv & Hcall).
  apply bind_Returned_inv in Hcall as (? & Hcams%THROW_CHECK_inv & Hcall).
  apply bind_Returned_inv in Hcall as (lo & Hlo%deref_Returned_inv & Hcall).
  apply bind_Returned_inv in Hcall as (? & _ & Hcall).
  apply bind_Returned_inv in Hcall as (hi & Hhi%deref_Returned_inv & Hcall).
  apply bind_Returned_inv in Hcall as (? & Hlt%THROW_CHECK_inv & Hcall).
  apply bind_Returned_inv in Hcall as (? & Hcheck%THROW_CHECK_inv & Hcall).
  apply Nat.eqb_eq in Hmask, Hpoints, Hidxs, Hcams.
  assert (Hne : camera_idxs <> []) by (by intros ->).
  destruct (max_element_lt camera_idxs (length cameras) Hne) as (hi' & Hhi' & Hiff).
  rewrite Hhi in Hhi'. injection Hhi' as <-.
  repeat split; try done. by apply Hiff.
Qed.

Lemma build_problem_problem_blocks options inlier_mask points2D camera_idxs cameras
    problem b :
  build_problem options inlier_mask points2D camera_idxs cameras = Returned problem ->
  b ∈ problem_blocks problem <->
  exists i c,
    i < length points2D /\ inlier_mask !! i = Some true /\ camera_idxs !! i = Some c /\
    b ∈ [CamFromRigCopyRotation c; CamFromRigCopyTranslation c;
         RigFromWorldRotation; RigFromWorldTranslation;
         Point3DCopy i; CameraParams c].
Proof.
  intros Hbuild.
  destruct (build_problem_shape _ _ _ _ _ _ Hbuild) as (Hres & Hsome & _).
  unfold problem_blocks. rewrite Hres, elem_of_concat. split.
  - intros (l & Hl & Hb).
    apply list_elem_of_fmap in Hl as (r & -> & Hr).
    apply list_elem_of_omap in Hr as (i & Hi & Hr).
    apply elem_of_seq in Hi.
    apply inlier_residual_block_Some in Hr as (c & camera & p & Hin & Hc & _ & _ & ->).
    exists i, c. repeat split; (done || lia).
  - intros (i & c & Hi & Hin & Hc & Hb).
    destruct (Hsome i Hi Hin) as [r Hr].
    exists (parameter_blocks r). split.
    + apply list_elem_of_fmap. exists r. split; [done|].
      apply list_elem_of_omap. exists i. split; [|done]. apply elem_of_seq. lia.
    + apply inlier_residual_block_Some in Hr as (c' & camera & p & _ & Hc' & _ & _ & ->).
      rewrite Hc in Hc'. by injection Hc' as <-.
Qed.

(** A block of the problem that is not constant is the rig rotation, the
    rig translation, or the parameters of a camera while a refine flag is
    on. *)
Lemma build_problem_free_blocks options inlier_mask points2D camera_idxs cameras
    problem b :
  build_problem options inlier_mask points2D camera_idxs cameras = Returned problem ->
  b ∈ problem_blocks problem ->
  b ∈ constant_blocks problem \/
  b = RigFromWorldRotation \/ b = RigFromWorldTranslation \/
  exists c, b = CameraParams c /\
            inlier_on inlier_mask camera_idxs (length points2D) c /\
            refine_focal_length options || refine_extra_params options = true.
Proof.
  intros Hbuild Hb.
  destruct (build_problem_shape _ _ _ _ _ _ Hbuild)
    as (_ & _ & _ & Hpoints & Hcopies & _).
  pose proof (proj1 (build_problem_blocks _ _ _ _ _ _ Hbuild)) as Hcams.
  pose proof Hb as Hb'.
  apply (build_problem_problem_blocks _ _ _ _ _ _ _ Hbuild) in Hb'
    as (i & c & Hi & Hin & Hc & Hkind).
  assert (Hon : inlier_on inlier_mask camera_idxs (length points2D) c) by (by exists i).
  repeat (apply elem_of_cons in Hkind as [->|Hkind]).
  - left. by apply Hcopies.
  - left. by apply Hcopies.
  - right. by left.
  - right. right. by left.
  - left. by apply Hpoints.
  - destruct (Hcams c Hb) as (_ & camera & _ & [Hconst|[Hflags _]]); [by left|].
    right. right. right. by exists c.
  - by apply elem_of_nil in Hkind.
Qed.

Lemma build_problem_no_inliers options inlier_mask points2D camera_idxs cameras :
  length points2D = length inlier_mask ->
  Forall (fun inlier => inlier = false) inlier_mask ->
  build_problem options inlier_mask points2D camera_idxs cameras = Returned empty_problem.
Proof.
  intros Hlen Hnone. unfold build_problem.
  assert (Hloop : forall n a st, a + n <= length inlier_mask ->
    for_loop (residual_step options inlier_mask points2D camera_idxs cameras)
      (seq a n) st = Returned st).
  { induction n as [|n IH]; intros a [problem counts] Han; simpl; [done|].
    destruct (lookup_lt_is_Some_2 inlier_mask a) as [inlier Hinlier]; [lia|].
    rewrite (index_lookup _ _ _ Hinlier). simpl.
    assert (inlier = false) as ->.
    { eapply Forall_forall in Hnone; [exact Hnone|]. by eapply list_elem_of_lookup_2. }
    simpl. apply IH. lia. }
  rewrite Hloop by lia. done.
Qed.

End RefinementMore.

(** The problem has one residual block per inlier, in the order of the
    observations, each with the model of the inlier's camera, its pixel, the
    loss scale of the options, and the six parameter blocks in the order
    extrinsic copy, rig pose, point copy, camera parameters; an observation
    that is no inlier adds nothing, and a camera's parameters are in the
    problem exactly when an inlier refers to the camera. *)
Theorem build_problem_residual_blocks {Cam : CameraModel}
    (options : AbsolutePoseRefinementOptions) (inlier_mask : list bool)
    (points2D : list Vector2d) (camera_idxs : list nat) (cameras : list Camera)
    (problem : Problem) :
  build_problem options inlier_mask points2D camera_idxs cameras = Returned problem ->
  residual_blocks problem =
    omap (inlier_residual_block options inlier_mask points2D camera_idxs cameras)
      (seq 0 (length points2D)) /\
  (forall i, i < length points2D -> inlier_mask !! i = Some true ->
     exists c camera point2D,
       camera_idxs !! i = Some c /\ cameras !! c = Some camera /\
       points2D !! i = Some point2D /\
       inlier_residual_block options inlier_mask points2D camera_idxs cameras i =
       Some (MkResidualBlock (model_id camera) point2D (loss_function_scale options)
               [CamFromRigCopyRotation c; CamFromRigCopyTranslation c;
                RigFromWorldRotation; RigFromWorldTranslation;
                Point3DCopy i; CameraParams c])) /\
  (forall c, CameraParams c ∈ problem_blocks problem <->
             inlier_on inlier_mask camera_idxs (length points2D) c).
Proof.
  intros Hbuild.
  destruct (build_problem_shape _ _ _ _ _ _ Hbuild) as (Hres & Hsome & _).
  split; [done|]. split.
  - intros i Hi Hin. destruct (Hsome i Hi Hin) as [r Hr]. rewrite Hr.
    apply inlier_residual_block_Some in Hr
      as (c & camera & point2D & _ & Hc & Hcamera & Hpoint2D & ->).
    by exists c, camera, point2D.
  - intros c. rewrite (build_problem_problem_blocks _ _ _ _ _ _ _ Hbuild). split.
    + intros (i & c' & Hi & Hin & Hc & Hb).
      repeat (apply elem_of_cons in Hb as [Hb|Hb]; try done).
      * injection Hb as ->. by exists i.
      * by apply elem_of_nil in Hb.
    + intros (i & Hi & Hin & Hc). exists i, c. repeat split; try done.
      do 5 (apply elem_of_cons; right). apply elem_of_cons. by left.
Qed.

Lemma build_problem_residual_blocks_witness :
  let problem :=
    match build_problem (Cam:=SimplePinhole.camera_model)
            focal_only third_out four_pixels third_on_second two_cameras with
    | Returned problem => problem
    | _ => empty_problem
    end in
  residual_blocks problem =
    omap (inlier_residual_block focal_only third_out four_pixels third_on_second
            two_cameras)
      (seq 0 (length four_pixels)) /\
  (forall i, i < length four_pixels -> third_out !! i = Some true ->
     exists c camera point2D,
       third_on_second !! i = Some c /\ two_cameras !! c = Some camera /\
       four_pixels !! i = Some point2D /\
       inlier_residual_block focal_only third_out four_pixels third_on_second
         two_cameras i =
       Some (MkResidualBlock (model_id camera) point2D (loss_function_scale focal_only)
               [CamFromRigCopyRotation c; CamFromRigCopyTranslation c;
                RigFromWorldRotation; RigFromWorldTranslation;
                Point3DCopy i; CameraParams c])) /\
  (forall c, CameraParams c ∈ problem_blocks problem <->
             inlier_on third_out third_on_second (length four_pixels) c).
Proof.
  apply (build_problem_residual_blocks (Cam:=SimplePinhole.camera_model)
           focal_only third_out four_pixels third_on_second two_cameras).
  vm_compute. reflexivity.
Defined.

(** What the solver may change: the 3D point copy of every inlier and both
    extrinsic copies of every camera an inlier refers to are constant, and
    nothing else is but parameter blocks of such cameras; the rig rotation
    and translation are never constant; when there is a residual block the
    rig rotation is on the quaternion manifold; and no block other than the
    rig rotation and camera parameters has a manifold.  A block of the
    problem that is not constant is therefore the rig rotation, the rig
    translation, or the parameters of a camera while a refine flag is on. *)
Theorem build_problem_parameterization {Cam : CameraModel}
    (options : AbsolutePoseRefinementOptions) (inlier_mask : list bool)
    (points2D : list Vector2d) (camera_idxs : list nat) (cameras : list Camera)
    (problem : Problem) :
  build_problem options inlier_mask points2D camera_idxs cameras = Returned problem ->
  (forall i c, i < length points2D -> inlier_mask !! i = Some true ->
     camera_idxs !! i = Some c ->
     Point3DCopy i ∈ constant_blocks problem /\
     CamFromRigCopyRotation c ∈ constant_blocks problem /\
     CamFromRigCopyTranslation c ∈ constant_blocks problem) /\
  (RigFromWorldRotation ∉ constant_blocks problem) /\
  (RigFromWorldTranslation ∉ constant_blocks problem) /\
  (residual_blocks problem <> [] ->
   manifold_of problem RigFromWorldRotation = Some QuaternionManifold) /\
  (forall b, b <> RigFromWorldRotation -> (forall c, b <> CameraParams c) ->
     manifold_of problem b = None) /\
  (forall b, b ∈ problem_blocks problem -> b ∉ constant_blocks problem ->
     b = RigFromWorldRotation \/ b = RigFromWorldTranslation \/
     exists c, b = CameraParams c /\
               refine_focal_length options || refine_extra_params options = true).
Proof.
  intros Hbuild.
  destruct (build_problem_shape _ _ _ _ _ _ Hbuild)
    as (_ & _ & Hconst & Hpoints & Hcopies & Hman).
  split.
  { intros i c Hi Hin Hc. split; [by apply Hpoints|]. apply Hcopies. by exists i. }
  split.
  { intros Hb. by destruct (Hconst _ Hb) as [(i & _ & _ & ?)|(c & _ & [?|[?|?]])]. }
  split.
  { intros Hb. by destruct (Hconst _ Hb) as [(i & _ & _ & ?)|(c & _ & [?|[?|?]])]. }
  split.
  { intros Hne. rewrite Hman by done. by rewrite decide_True. }
  split.
  { intros b Hb Hcam. rewrite Hman by done. rewrite decide_False; [done|tauto]. }
  intros b Hb Hfree.
  destruct (build_problem_free_blocks _ _ _ _ _ _ _ Hbuild Hb)
    as [?|[?|[?|(c & -> & _ & Hflags)]]]; [done|by left|by right; left|].
  right. right. by exists c.
Qed.

Lemma build_problem_parameterization_witness :
  let problem :=
    match build_problem (Cam:=SimplePinhole.camera_model)
            focal_only third_out four_pixels third_on_second two_cameras with
    | Returned problem => problem
    | _ => empty_problem
    end in
  (forall i c, i < length four_pixels -> third_out !! i = Some true ->
     third_on_second !! i = Some c ->
     Point3DCopy i ∈ constant_blocks problem /\
     CamFromRigCopyRotation c ∈ constant_blocks problem /\
     CamFromRigCopyTranslation c ∈ constant_blocks problem) /\
  (RigFromWorldRotation ∉ constant_blocks problem) /\
  (RigFromWorldTranslation ∉ constant_blocks problem) /\
  (residual_blocks problem <> [] ->
   manifold_of problem RigFromWorldRotation = Some QuaternionManifold) /\
  (forall b, b <> RigFromWorldRotation -> (forall c, b <> CameraParams c) ->
     manifold_of problem b = None) /\
  (forall b, b ∈ problem_blocks problem -> b ∉ constant_blocks problem ->
     b = RigFromWorldRotation \/ b = RigFromWorldTranslation \/
     exists c, b = CameraParams c /\
               refine_focal_length focal_only || refine_extra_params focal_only = true).
Proof.
  apply (build_problem_parameterization (Cam:=SimplePinhole.camera_model)
           focal_only third_out four_pixels third_on_second two_cameras).
  vm_compute. reflexivity.
Defined.

(** ** [RefineGeneralizedAbsolutePose]: when it returns, and what it leaves *)

(** The refinement returns exactly when the four length checks hold, there
    is an observation, every camera index is below the number of cameras and
    the options pass their check. *)
Theorem RefineGeneralizedAbsolutePose_returns_iff
    {Cam : CameraModel} {Solver : Ceres}
    (options : AbsolutePoseRefinementOptions) (inlier_mask : list bool)
    (points2D : list Vector2d) (points3D : list Vector3d)
    (camera_idxs : list nat) (cams_from_rig : list Rigid3d)
    (rig_from_world0 : Rigid3d) (cameras : list Camera)
    (rig_from_world_cov : bool) :
  (exists r,
     RefineGeneralizedAbsolutePose options inlier_mask points2D points3D camera_idxs
       cams_from_rig rig_from_world0 cameras rig_from_world_cov = Returned r) <->
  length points2D = length inlier_mask /\ length points2D = length points3D /\
  length points2D = length camera_idxs /\ length cams_from_rig = length cameras /\
  camera_idxs <> [] /\ Forall (fun c => c < length cameras) camera_idxs /\
  RefinementOptions_Check options = true.
Proof.
  split.
  - intros [r Hcall]. by eapply RefineGeneralizedAbsolutePose_Returned_checks.
  - intros (Hmask & Hpoints & Hidxs & Hcams & Hne & Hrange & Hcheck).
    destruct (build_problem_Returned options inlier_mask points2D camera_idxs cameras)
      as [problem Hbuild]; [done|done|done|].
    eexists. unfold RefineGeneralizedAbsolutePose.
    rewrite <- Hmask, <- Hpoints, <- Hidxs, Hcams, !Nat.eqb_refl. simpl.
    destruct (min_element_is_Some camera_idxs Hne) as [lo ->]. simpl.
    destruct (max_element_lt camera_idxs (length cameras) Hne) as (hi & -> & Hlt).
    simpl. rewrite (proj2 Hlt Hrange). simpl. rewrite Hcheck. simpl.
    by rewrite Hbuild.
Qed.

(** Without observations the refinement does not return: the length checks
    pass on empty arrays, and [*std::min_element] then dereferences the end
    iterator of the empty index array. *)
Theorem RefineGeneralizedAbsolutePose_no_observations
    {Cam : CameraModel} {Solver : Ceres}
    (options : AbsolutePoseRefinementOptions) (cams_from_rig : list Rigid3d)
    (rig_from_world0 : Rigid3d) (cameras : list Camera)
    (rig_from_world_cov : bool) :
  length cams_from_rig = length cameras ->
  RefineGeneralizedAbsolutePose options [] [] [] [] cams_from_rig rig_from_world0
    cameras rig_from_world_cov = Undefined.
Proof.
  intros Hcams. unfold RefineGeneralizedAbsolutePose. simpl.
  by rewrite Hcams, Nat.eqb_refl.
Qed.

Lemma RefineGeneralizedAbsolutePose_no_observations_witness :
  RefineGeneralizedAbsolutePose
    (Cam:=SimplePinhole.camera_model) (Solver:=Nudge.ceres)
    focal_only [] [] [] [] apart AcceptAll.identity two_cameras true = Undefined.
Proof.
  apply (RefineGeneralizedAbsolutePose_no_observations
           (Cam:=SimplePinhole.camera_model) (Solver:=Nudge.ceres)
           focal_only apart AcceptAll.identity two_cameras true).
  reflexivity.
Defined.

(** When no observation is an inlier the solver is given the empty problem:
    no covariance is stored even if one is asked for, the value returned is
    what the solver's summary says of the empty problem, and, the solver
    writing to blocks of the problem only, the rig pose and every camera are
    left as they were. *)
Theorem RefineGeneralizedAbsolutePose_no_inliers
    {Cam : CameraModel} {Solver : Ceres} {Frame : CeresFrame}
    (options : AbsolutePoseRefinementOptions) (inlier_mask : list bool)
    (points2D : list Vector2d) (points3D : list Vector3d)
    (camera_idxs : list nat) (cams_from_rig : list Rigid3d)
    (rig_from_world0 : Rigid3d) (cameras : list Camera)
    (rig_from_world_cov : bool) (r : Refined) :
  RefineGeneralizedAbsolutePose options inlier_mask points2D points3D camera_idxs
    cams_from_rig rig_from_world0 cameras rig_from_world_cov = Returned r ->
  Forall (fun inlier => inlier = false) inlier_mask ->
  let memory0 := initial_memory rig_from_world0 cameras cams_from_rig points3D in
  build_problem options inlier_mask points2D camera_idxs cameras
    = Returned empty_problem /\
  refined_cov r = None /\
  refined_ok r =
    IsSolutionUsable (Solve (solver_options_of options) empty_problem memory0).2 /\
  (forall b, refined_memory r b = memory0 b) /\
  cameras_after (refined_memory r) cameras = cameras.
Proof.
  intros Hcall Hnone memory0.
  pose proof (RefineGeneralizedAbsolutePose_Returned_checks _ _ _ _ _ _ _ _ _ _ Hcall)
    as (Hmask & _).
  pose proof (build_problem_no_inliers options inlier_mask points2D camera_idxs
                cameras Hmask Hnone) as Hbuild.
  apply RefineGeneralizedAbsolutePose_Returned_inv in Hcall as (problem & Hbuild' & ->).
  rewrite Hbuild in Hbuild'. injection Hbuild' as <-.
  split; [done|].
  assert (Hmem : forall b,
    refined_memory (solve_and_report options empty_problem memory0 rig_from_world_cov) b
    = memory0 b).
  { intros b. rewrite solve_and_report_memory. apply Solve_outside.
    by intros Hb%elem_of_nil. }
  split; [|split; [|split; [done|]]].
  - unfold solve_and_report. by destruct (Solve _ _ _).
  - unfold solve_and_report. by destruct (Solve _ _ _).
  - unfold cameras_after. apply list_eq. intros i. rewrite list_lookup_imap.
    destruct (cameras !! i) as [camera|] eqn:Hcamera; simpl; [|done].
    rewrite Hmem. unfold memory0. simpl. rewrite Hcamera. simpl. by destruct camera.
Qed.

Lemma RefineGeneralizedAbsolutePose_no_inliers_witness :
  let r :=
    refined_or_default
      (RefineGeneralizedAbsolutePose
         (Cam:=SimplePinhole.camera_model) (Solver:=Nudge.ceres)
         focal_only none_in four_pixels four_points third_on_second apart
         AcceptAll.identity two_cameras true) in
  let memory0 := initial_memory AcceptAll.identity two_cameras apart four_points in
  build_problem (Cam:=SimplePinhole.camera_model)
    focal_only none_in four_pixels third_on_second two_cameras
    = Returned empty_problem /\
  refined_cov r = None /\
  refined_ok r =
    IsSolutionUsable (Ceres:=Nudge.ceres)
      (Solve (Ceres:=Nudge.ceres) (solver_options_of focal_only) empty_problem memory0).2 /\
  (forall b, refined_memory r b = memory0 b) /\
  cameras_after (refined_memory r) two_cameras = two_cameras.
Proof.
  apply (RefineGeneralizedAbsolutePose_no_inliers
           (Cam:=SimplePinhole.camera_model) (Solver:=Nudge.ceres) (Frame:=Nudge_frame)
           focal_only none_in four_pixels four_points third_on_second apart
           AcceptAll.identity two_cameras true).
  - vm_compute. reflexivity.
  - repeat constructor.
Defined.

(** The solver writing to blocks of the problem only and leaving constant
    blocks as they are, the only memory the refinement can change is the rig
    rotation, the rig translation, and the parameters of a camera that an
    inlier refers to, and these only while a refine flag is on; the copies
    of the 3D points and of the extrinsics stay what they were copied
    from. *)
Theorem RefineGeneralizedAbsolutePose_writes_only
    {Cam : CameraModel} {Solver : Ceres} {Frame : CeresFrame}
    (options : AbsolutePoseRefinementOptions) (inlier_mask : list bool)
    (points2D : list Vector2d) (points3D : list Vector3d)
    (camera_idxs : list nat) (cams_from_rig : list Rigid3d)
    (rig_from_world0 : Rigid3d) (cameras : list Camera)
    (rig_from_world_cov : bool) (r : Refined) :
  RefineGeneralizedAbsolutePose options inlier_mask points2D points3D camera_idxs
    cams_from_rig rig_from_world0 cameras rig_from_world_cov = Returned r ->
  let memory0 := initial_memory rig_from_world0 cameras cams_from_rig points3D in
  (forall b, refined_memory r b <> memory0 b ->
     b = RigFromWorldRotation \/ b = RigFromWorldTranslation \/
     exists c, b = CameraParams c /\
               inlier_on inlier_mask camera_idxs (length points2D) c /\
               refine_focal_length options || refine_extra_params options = true) /\
  (forall i,
     refined_memory r (Point3DCopy i) = from_option data [] (points3D !! i) /\
     refined_memory r (CamFromRigCopyRotation i) =
       from_option (coeffs ∘ rotation) [] (cams_from_rig !! i) /\
     refined_memory r (CamFromRigCopyTranslation i) =
       from_option (data ∘ translation) [] (cams_from_rig !! i)).
Proof.
  intros Hcall memory0.
  apply RefineGeneralizedAbsolutePose_Returned_inv in Hcall as (problem & Hbuild & ->).
  rewrite solve_and_report_memory.
  assert (Hchanged : forall b,
    (Solve (solver_options_of options) problem memory0).1 b <> memory0 b ->
    b = RigFromWorldRotation \/ b = RigFromWorldTranslation \/
    exists c, b = CameraParams c /\
              inlier_on inlier_mask camera_idxs (length points2D) c /\
              refine_focal_length options || refine_extra_params options = true).
  { intros b Hb.
    destruct (decide (b ∈ problem_blocks problem)) as [Hin|Hout];
      [|by destruct Hb; apply Solve_outside].
    destruct (build_problem_free_blocks _ _ _ _ _ _ _ Hbuild Hin) as [Hconst|Hfree];
      [by destruct Hb; apply Solve_constant|done]. }
  split; [done|].
  assert (Hsame : forall b,
    b <> RigFromWorldRotation -> b <> RigFromWorldTranslation ->
    (forall c, b <> CameraParams c) ->
    (Solve (solver_options_of options) problem memory0).1 b = memory0 b).
  { intros b Hrot Htrans Hcam.
    destruct (decide (b ∈ problem_blocks problem)) as [Hin|Hout];
      [|by apply Solve_outside].
    destruct (build_problem_free_blocks _ _ _ _ _ _ _ Hbuild Hin)
      as [Hconst|[?|[?|(c & ? & _)]]];
      [by apply Solve_constant|done|done|by destruct (Hcam c)]. }
  intros i. rewrite !Hsame by done. done.
Qed.

Lemma RefineGeneralizedAbsolutePose_writes_only_witness :
  let r :=
    refined_or_default
      (RefineGeneralizedAbsolutePose
         (Cam:=SimplePinhole.camera_model) (Solver:=Nudge.ceres)
         focal_only third_out four_pixels four_points third_on_second apart
         AcceptAll.identity two_cameras true) in
  let memory0 := initial_memory AcceptAll.identity two_cameras apart four_points in
  (forall b, refined_memory r b <> memory0 b ->
     b = RigFromWorldRotation \/ b = RigFromWorldTranslation \/
     exists c, b = CameraParams c /\
               inlier_on third_out third_on_second (length four_pixels) c /\
               refine_focal_length focal_only || refine_extra_params focal_only = true) /\
  (forall i,
     refined_memory r (Point3DCopy i) = from_option data [] (four_points !! i) /\
     refined_memory r (CamFromRigCopyRotation i) =
       from_option (coeffs ∘ rotation) [] (apart !! i) /\
     refined_memory r (CamFromRigCopyTranslation i) =
       from_option (data ∘ translation) [] (apart !! i)).
Proof.
  apply (RefineGeneralizedAbsolutePose_writes_only
           (Cam:=SimplePinhole.camera_model) (Solver:=Nudge.ceres) (Frame:=Nudge_frame)
           focal_only third_out four_pixels four_points third_on_second apart
           AcceptAll.identity two_cameras true).
  vm_compute. reflexivity.
Defined.

(** A covariance is stored exactly when one is asked for, there is an
    inlier, and the covariance computation succeeds on the solved problem;
    it is then the tangent-space covariance of the rig rotation and
    translation, in this order.  When the computation fails the call returns
    false with the rig pose and the cameras as the solver left them: nothing
    is restored. *)
Theorem RefineGeneralizedAbsolutePose_covariance_stored
    {Cam : CameraModel} {Solver : Ceres}
    (options : AbsolutePoseRefinementOptions) (inlier_mask : list bool)
    (points2D : list Vector2d) (points3D : list Vector3d)
    (camera_idxs : list nat) (cams_from_rig : list Rigid3d)
    (rig_from_world0 : Rigid3d) (cameras : list Camera)
    (rig_from_world_cov : bool) (r : Refined) :
  RefineGeneralizedAbsolutePose options inlier_mask points2D points3D camera_idxs
    cams_from_rig rig_from_world0 cameras rig_from_world_cov = Returned r ->
  exists problem,
    build_problem options inlier_mask points2D camera_idxs cameras = Returned problem /\
    let solved :=
      Solve (solver_options_of options) problem
        (initial_memory rig_from_world0 cameras cams_from_rig points3D) in
    let pose_blocks := [RigFromWorldRotation; RigFromWorldTranslation] in
    refined_memory r = solved.1 /\
    refined_cov r =
      (if rig_from_world_cov && (0 <? count_inliers inlier_mask) &&
          Covariance_Compute pose_blocks problem solved.1
       then Some (GetCovarianceMatrixInTangentSpace pose_blocks problem solved.1)
       else None) /\
    (rig_from_world_cov = true -> 0 < count_inliers inlier_mask ->
     Covariance_Compute pose_blocks problem solved.1 = false ->
     refined_ok r = false).
Proof.
  intros Hcall.
  pose proof (RefineGeneralizedAbsolutePose_Returned_checks _ _ _ _ _ _ _ _ _ _ Hcall)
    as (Hmask & _).
  apply RefineGeneralizedAbsolutePose_Returned_inv in Hcall as (problem & Hbuild & ->).
  exists problem. split; [done|].
  pose proof (build_problem_NumResiduals _ _ _ _ _ _ Hmask Hbuild) as Hnum.
  simpl. split; [apply solve_and_report_memory|].
  unfold solve_and_report. destruct (Solve _ _ _) as [memory summary]. simpl.
  rewrite Hnum.
  destruct (Nat.ltb_spec 0 (count_inliers inlier_mask)) as [Hpos|Hzero].
  - rewrite (proj2 (Nat.ltb_lt 0 (2 * count_inliers inlier_mask))) by lia.
    destruct rig_from_world_cov; simpl; [|by split].
    destruct (Covariance_Compute _ _ _); simpl; by split.
  - rewrite (proj2 (Nat.ltb_ge 0 (2 * count_inliers inlier_mask))) by lia.
    rewrite andb_false_r. simpl. split; [done|]. intros _ Hpos. lia.
Qed.

Lemma RefineGeneralizedAbsolutePose_covariance_stored_witness :
  let r :=
    refined_or_default
      (RefineGeneralizedAbsolutePose
         (Cam:=SimplePinhole.camera_model) (Solver:=Nudge.ceres)
         focal_only third_out four_pixels four_points third_on_second apart
         AcceptAll.identity two_cameras true) in
  exists problem,
    build_problem (Cam:=SimplePinhole.camera_model)
      focal_only third_out four_pixels third_on_second two_cameras = Returned problem /\
    let solved :=
      Solve (Ceres:=Nudge.ceres) (solver_options_of focal_only) problem
        (initial_memory AcceptAll.identity two_cameras apart four_points) in
    let pose_blocks := [RigFromWorldRotation; RigFromWorldTranslation] in
    refined_memory r = solved.1 /\
    refined_cov r =
      (if true && (0 <? count_inliers third_out) &&
          Covariance_Compute (Ceres:=Nudge.ceres) pose_blocks problem solved.1
       then Some (GetCovarianceMatrixInTangentSpace (Ceres:=Nudge.ceres)
                    pose_blocks problem solved.1)
       else None) /\
    (true = true -> 0 < count_inliers third_out ->
     Covariance_Compute (Ceres:=Nudge.ceres) pose_blocks problem solved.1 = false ->
     refined_ok r = false).
Proof.
  apply (RefineGeneralizedAbsolutePose_covariance_stored
           (Cam:=SimplePinhole.camera_model) (Solver:=Nudge.ceres)
           focal_only third_out four_pixels four_points third_on_second apart
           AcceptAll.identity two_cameras true).
  vm_compute. reflexivity.
Defined.

(** ** [EstimateGeneralizedRelativePose] without correspondences *)

(** With no points in either view the relative estimator reaches its early
    return only when both index arrays are non-empty, which the missing
    length checks allow: it then returns false and stores nothing.  With
    empty index arrays [ThrowCheckCameras] dereferences the end iterators
    first. *)
Theorem EstimateGeneralizedRelativePose_no_correspondences
    {Eigen : EigenOps} {Cam : CameraModel} {Engine : Consensus}
    (ransac_options : RANSACOptions) (cams_from_rig : list Rigid3d)
    (cameras : list Camera) :
  cameras <> [] ->
  length cams_from_rig = length cameras ->
  EstimateGeneralizedRelativePose ransac_options [] [] [] [] cams_from_rig cameras
    = Undefined /\
  (forall camera_idxs1 camera_idxs2,
     camera_idxs1 <> [] -> camera_idxs2 <> [] ->
     Forall (fun c => c < length cameras) camera_idxs1 ->
     Forall (fun c => c < length cameras) camera_idxs2 ->
     RANSACOptions_Check ransac_options = true ->
     EstimateGeneralizedRelativePose ransac_options [] [] camera_idxs1 camera_idxs2
       cams_from_rig cameras = Returned (false, no_output)).
Proof.
  intros Hcameras Hlen. split.
  - unfold EstimateGeneralizedRelativePose, ThrowCheckCameras. simpl.
    rewrite bool_decide_eq_false_2 by done. simpl.
    by rewrite Hlen, Nat.eqb_refl.
  - intros camera_idxs1 camera_idxs2 Hne1 Hne2 Hrange1 Hrange2 Hcheck.
    unfold EstimateGeneralizedRelativePose. simpl.
    rewrite (proj2 (ThrowCheckCameras_Returned camera_idxs1 cams_from_rig cameras))
      by done.
    rewrite (proj2 (ThrowCheckCameras_Returned camera_idxs2 cams_from_rig cameras))
      by done.
    simpl. by rewrite Hcheck.
Qed.

Lemma EstimateGeneralizedRelativePose_no_correspondences_witness :
  EstimateGeneralizedRelativePose
    (Eigen:=Binary64.eigen) (Cam:=SimplePinhole.camera_model)
    (Engine:=AcceptAll.consensus)
    default_options [] [] [] [] [AcceptAll.identity] focal10 = Undefined /\
  (forall camera_idxs1 camera_idxs2,
     camera_idxs1 <> [] -> camera_idxs2 <> [] ->
     Forall (fun c => c < length focal10) camera_idxs1 ->
     Forall (fun c => c < length focal10) camera_idxs2 ->
     RANSACOptions_Check (Consensus:=AcceptAll.consensus) default_options = true ->
     EstimateGeneralizedRelativePose
       (Eigen:=Binary64.eigen) (Cam:=SimplePinhole.camera_model)
       (Engine:=AcceptAll.consensus)
       default_options [] [] camera_idxs1 camera_idxs2 [AcceptAll.identity] focal10
     = Returned (false, no_output)).
Proof.
  apply (EstimateGeneralizedRelativePose_no_correspondences
           (Eigen:=Binary64.eigen) (Cam:=SimplePinhole.camera_model)
           (Engine:=AcceptAll.consensus)
           default_options [AcceptAll.identity] focal10); done.
Defined.
